(** * Subresource-integrity step of the site build: model and properties

    This development embeds the SRI hash generator module of the build
    pipeline (the module exporting [generateSRIHash],
    [generateSRIHashFromURL], [generateSRIHashesForURLs],
    [extractExternalResources], [addSRIAttributesToHTML] and
    [processHTMLForSRI]) and states its documented properties.

    Modelling conventions.
    - A JavaScript string is a [text], a list of code units.  Code units are
      taken below 256 ([ascii]); on that range [Canonicalize], [\s] and
      [String.prototype.includes] are transcribed exactly.
    - A regular expression is a value of [regex]; [run] lists the ways the
      backtracking matcher can match at a position, in the order in which it
      tries them, so the head of the list is the match the engine reports.
    - An object used as a URL-to-hash map is read through its entries, in
      [Object.entries] order, and is passed around as the list of them.
      The assignments that build it follow the language: array indices
      are listed first, in ascending order, the other keys in the order
      of their creation, and the key [__proto__] reaches the setter of
      [Object.prototype] instead of creating an entry.
    - The network and the console are explicit: the outcome of every call
      of [get] is given by a function of its rank in the run, and a trace
      of the requested URLs and of the printed lines is threaded through
      the asynchronous functions.  A request need not settle: awaiting a
      promise yields a value, an error, or nothing ever.
    - The digest comes from the [crypto] library and is a parameter. *)

From Stdlib Require Import List Ascii String Bool Arith NArith ZArith Lia.
From Stdlib Require Import DecimalString.
Import ListNotations.

Set Implicit Arguments.
Local Open Scope list_scope.

(** ** Texts *)

Definition text := list ascii.

Definition txt (s : string) : text := list_ascii_of_string s.

(** The double quote character, code unit 34. *)
Definition dq : ascii := "034"%char.
(** The apostrophe, code unit 39. *)
Definition sq : ascii := "'"%char.

Definition text_eqb (a b : text) : bool :=
  if list_eq_dec ascii_dec a b then true else false.

(** [s.startsWith(w)] *)
Fixpoint startsWith (w s : text) : bool :=
  match w, s with
  | [], _ => true
  | _ :: _, [] => false
  | a :: w', c :: s' => Ascii.eqb a c && startsWith w' s'
  end.

(** [s.includes(w)]: [w] occurs in [s] as a contiguous run of code units. *)
Fixpoint includes (w s : text) : bool :=
  startsWith w s ||
  match s with
  | [] => false
  | _ :: s' => includes w s'
  end.

(** [list.includes(x)] on an array of strings (strict equality). *)
Definition arrayIncludes (x : text) (l : list text) : bool :=
  existsb (text_eqb x) l.

(** ** Regular expressions *)

(** [Canonicalize] of the regular-expression semantics without the unicode
    flag: the code unit of [toUpperCase] when that is a single code unit,
    and never an ASCII code unit for a non-ASCII one.  On code units below
    256: a-z go to A-Z; U+00E0..U+00FE except U+00F7 go 32 down; U+00B5 and
    U+00FF have their upper case outside the range and are the only code
    units below 256 canonicalised to it, U+00DF has a two-unit upper case,
    so these three stand for themselves. *)
Definition canonicalize (c : ascii) : ascii :=
  let n := N_of_ascii c in
  if ((97 <=? n) && (n <=? 122))%N then ascii_of_N (n - 32)
  else if ((224 <=? n) && (n <=? 254) && negb (n =? 247))%N
       then ascii_of_N (n - 32)
       else c.

(** [\s]: WhiteSpace and LineTerminator code units below 256. *)
Definition isSpace (c : ascii) : bool :=
  let n := N_of_ascii c in
  ((n =? 9) || (n =? 10) || (n =? 11) || (n =? 12) || (n =? 13)
   || (n =? 32) || (n =? 160))%N.

Inductive classItem :=
| CChar (c : ascii)
| CSpace.

Inductive atom :=
| Lit (c : ascii)                  (* a pattern character or identity escape *)
| OneOf (items : list classItem)   (* [...]  *)
| NoneOf (items : list classItem). (* [^...] *)

Inductive regex :=
| Eps
| One (a : atom)
| Opt (a : atom)           (* a?  greedy *)
| Star (a : atom)          (* a*  greedy *)
| Plus (a : atom)          (* a+  greedy *)
| Seq (r1 r2 : regex)
| Group (r : regex).       (* capturing parentheses *)

Declare Scope regex_scope.
Delimit Scope regex_scope with re.
Bind Scope regex_scope with regex.
Notation "r1 ;; r2" := (Seq r1 r2)
  (at level 61, right associativity) : regex_scope.

(** A run of pattern characters. *)
Fixpoint lits (w : text) : regex :=
  match w with
  | [] => Eps
  | c :: w' => Seq (One (Lit c)) (lits w')
  end.

Section Engine.

(** The [i] flag of the expression. *)
Variable ignoreCase : bool.

Definition sameChar (a c : ascii) : bool :=
  if ignoreCase then Ascii.eqb (canonicalize a) (canonicalize c)
  else Ascii.eqb a c.

Definition inItem (c : ascii) (it : classItem) : bool :=
  match it with
  | CChar a => sameChar a c
  | CSpace => if ignoreCase then isSpace (canonicalize c) else isSpace c
  end.

Definition accepts (a : atom) (c : ascii) : bool :=
  match a with
  | Lit x => sameChar x c
  | OneOf items => existsb (inItem c) items
  | NoneOf items => negb (existsb (inItem c) items)
  end.

(** One code unit accepted by [a], or nothing. *)
Definition step (a : atom) (s : text) : list (text * text) :=
  match s with
  | c :: s' => if accepts a c then [([c], s')] else []
  | [] => []
  end.

(** Greedy repetition: the longest run first, the empty run last. *)
Fixpoint star (a : atom) (s : text) : list (text * text) :=
  match s with
  | c :: s' =>
      if accepts a c
      then map (fun p => (c :: fst p, snd p)) (star a s') ++ [([], s)]
      else [([], s)]
  | [] => [([], [])]
  end.

(** A way of matching: the text consumed, the captures of the groups in
    the order of their opening parentheses, the text left. *)
Definition way := (text * list text * text)%type.

Definition plain (p : text * text) : way := (fst p, [], snd p).

Fixpoint run (r : regex) (s : text) : list way :=
  match r with
  | Eps => [([], [], s)]
  | One a => map plain (step a s)
  | Opt a => map plain (step a s ++ [([], s)])
  | Star a => map plain (star a s)
  | Plus a =>
      match s with
      | c :: s' =>
          if accepts a c
          then map (fun p => (c :: fst p, [], snd p)) (star a s')
          else []
      | [] => []
      end
  | Seq r1 r2 =>
      flat_map
        (fun w1 : way =>
           let '(m1, c1, rest1) := w1 in
           map (fun w2 : way =>
                  let '(m2, c2, rest2) := w2 in (m1 ++ m2, c1 ++ c2, rest2))
               (run r2 rest1))
        (run r1 s)
  | Group r' =>
      map (fun w : way => let '(m, c, rest) := w in (m, m :: c, rest))
          (run r' s)
  end.

(** A successful [exec]: the text skipped since [lastIndex], the matched
    text [match[0]], the captures [match[1..]], and the text from the new
    [lastIndex] on. *)
Record hit := Hit {
  before : text;
  matched : text;
  groups : list text;
  after : text
}.

(** [regex.exec(s)] from [lastIndex]: the leftmost position at which the
    matcher succeeds. *)
Fixpoint exec (r : regex) (s : text) : option hit :=
  match run r s with
  | (m, caps, rest) :: _ => Some (Hit [] m caps rest)
  | [] =>
      match s with
      | [] => None
      | c :: s' =>
          match exec r s' with
          | Some h => Some (Hit (c :: before h) (matched h) (groups h) (after h))
          | None => None
          end
      end
  end.

(** [s.replace(r, f)] for a global [r] and a replacer function [f] called
    with the match and its captures: every match, found from the end of
    the previous one, is replaced by what [f] returns; after an empty
    match the search resumes one code unit further.  Each round consumes
    at least one code unit, so [length s + 1] rounds are enough. *)
Fixpoint replaceFuel (fuel : nat) (r : regex)
         (f : text -> list text -> text) (s : text) : text :=
  match fuel with
  | O => s
  | S fuel' =>
      match exec r s with
      | None => s
      | Some h =>
          before h ++ f (matched h) (groups h) ++
          match matched h, after h with
          | [], [] => []
          | [], c :: rest' => c :: replaceFuel fuel' r f rest'
          | _ :: _, rest => replaceFuel fuel' r f rest
          end
      end
  end.

Definition replace (r : regex) (f : text -> list text -> text) (s : text)
  : text :=
  replaceFuel (S (List.length s)) r f s.

(** [while ((match = r.exec(s)) !== null) { body }] for a global [r]: the
    loop body is folded over the successive matches.  The expressions
    looped over in this module never match the empty text, so [lastIndex]
    advances at every round and [length s + 1] rounds are enough. *)
Fixpoint execLoopFuel (A : Type) (fuel : nat) (r : regex)
         (body : hit -> A -> A) (s : text) (acc : A) : A :=
  match fuel with
  | O => acc
  | S fuel' =>
      match exec r s with
      | None => acc
      | Some h => execLoopFuel fuel' r body (after h) (body h acc)
      end
  end.

Definition execLoop (A : Type) (r : regex) (body : hit -> A -> A)
           (s : text) (acc : A) : A :=
  execLoopFuel (S (List.length s)) r body s acc.

End Engine.

(** ** The expressions of the module

    In the comments below Q stands for the double-quote character, so that
    [Q'] is the class of the two quote characters. *)

(** [[^>]] *)
Definition notGt : atom := NoneOf [CChar ">"%char].
(** [[Q']] *)
Definition quote : atom := OneOf [CChar dq; CChar sq].
(** [[^Q'\s>]] *)
Definition urlChar : atom :=
  NoneOf [CChar dq; CChar sq; CSpace; CChar ">"%char].

Local Open Scope regex_scope.

(** [/<script[^>]+src=[Q']?(https?:\/\/[^Q'\s>]+)[Q']?[^>]*>/gi] and the
    same expression with [<link] and [href=]. *)
Definition locatorRegex (tag attr : string) : regex :=
  lits (txt tag) ;; Plus notGt ;; lits (txt attr) ;; Opt quote ;;
  Group (lits (txt "http") ;; Opt (Lit "s"%char) ;; lits (txt "://") ;;
         Plus urlChar) ;;
  Opt quote ;; Star notGt ;; One (Lit ">"%char).

Definition scriptRegex : regex := locatorRegex "<script" "src=".
Definition linkRegex : regex := locatorRegex "<link" "href=".

(** ** Resource Locator *)

Record Resources := mkResources {
  scripts : list text;
  stylesheets : list text
}.

(** [match[1]] *)
Definition group1 (h : hit) : text := nth 0 (groups h) [].
(** [match[2]] *)
Definition group2 (h : hit) : text := nth 1 (groups h) [].

Definition pushScript (h : hit) (acc : list text) : list text :=
  let url := group1 h in
  if negb (arrayIncludes url acc) then acc ++ [url] else acc.

Definition pushStylesheet (h : hit) (acc : list text) : list text :=
  let url := group1 h in
  let fullTag := matched h in
  if includes (txt "stylesheet") fullTag && negb (arrayIncludes url acc)
  then acc ++ [url] else acc.

Definition extractExternalResources (html : text) : Resources :=
  mkResources (execLoop true scriptRegex pushScript html [])
              (execLoop true linkRegex pushStylesheet html []).

(** ** HTML Integrity Rewriter *)

(** The fourteen syntax characters of [/[.*+?^${}()|[\]\\]/]. *)
Definition syntaxChars : list classItem :=
  map CChar (txt ".*+?^${}()|[]\").

(** [str.replace(/[.*+?^${}()|[\]\\]/g, '\\$&')]: the expression has no
    [i] flag; the replacement text is a backslash and the match. *)
Definition escapeRegex (str : text) : text :=
  replace false (One (OneOf syntaxChars)) (fun m _ => "\"%char :: m) str.

(** The code units a pattern fragment stands for when it is a literal:
    made of pattern characters, each standing for itself, and of syntax
    characters escaped with a backslash.  [None] when a syntax character
    is not escaped, or when a backslash is followed by something else or
    by nothing: the fragment is some other expression, or none. *)
Fixpoint literalPattern (p : text) : option text :=
  match p with
  | [] => Some []
  | c :: p' =>
      if Ascii.eqb c "\"%char
      then match p' with
           | [] => None
           | e :: p'' =>
               if accepts false (OneOf syntaxChars) e
               then option_map (cons e) (literalPattern p'')
               else None
           end
      else if accepts false (OneOf syntaxChars) c then None
      else option_map (cons c) (literalPattern p')
  end.

(** What [new RegExp] makes of a fragment that is a literal.  The
    fragments of the module are escaped and are literals; any other is
    given an expression that matches nothing. *)
Definition compileLiteral (p : text) : regex :=
  match literalPattern p with
  | Some w => lits w
  | None => One (OneOf [])
  end.

(** [new RegExp(`(<script[^>]+src=[Q']?${escapeRegex(url)}[Q']?)([^>]*>)`, 'gi')]
    and the same expression with [<link] and [href=]. *)
Definition rewriterRegex (tag attr : string) (url : text) : regex :=
  Group (lits (txt tag) ;; Plus notGt ;; lits (txt attr) ;; Opt quote ;;
         compileLiteral (escapeRegex url) ;; Opt quote) ;;
  Group (Star notGt ;; One (Lit ">"%char)).

(** [ integrity=Q${hash}Q crossorigin=QanonymousQ] *)
Definition sriAttributes (hash : text) : text :=
  txt " integrity=" ++ dq :: hash ++ dq :: txt " crossorigin=" ++
  dq :: txt "anonymous" ++ [dq].

(** The replacer [(match, opening, closing) => ...] of both passes. *)
Definition addIntegrity (hash : text) (m : text) (caps : list text) : text :=
  let opening := nth 0 caps [] in
  let closing := nth 1 caps [] in
  if includes (txt "integrity=") opening then m
  else opening ++ sriAttributes hash ++ closing.

(** A value of the URL-to-hash object: [null] or a string. *)
Definition hashValue := option text.

(** [!hash] *)
Definition falsy (hash : hashValue) : bool :=
  match hash with
  | None => true
  | Some [] => true
  | Some (_ :: _) => false
  end.

(** One round of the loop over [Object.entries(sriHashes)]. *)
Definition rewriteEntry (updatedHtml : text) (entry : text * hashValue)
  : text :=
  let '(url, hash) := entry in
  match hash with
  | Some (c :: h') =>
      let hash := c :: h' in
      let updatedHtml :=
        replace true (rewriterRegex "<script" "src=" url)
                (addIntegrity hash) updatedHtml in
      replace true (rewriterRegex "<link" "href=" url)
              (addIntegrity hash) updatedHtml
  | _ => updatedHtml   (* continue *)
  end.

Definition addSRIAttributesToHTML (html : text)
           (sriHashes : list (text * hashValue)) : text :=
  fold_left rewriteEntry sriHashes html.


(** ** Hash Generator, Resource Fetcher and Orchestrator *)

(** The digest algorithms the module documents. *)
Inductive algorithm := sha256 | sha384 | sha512.

Definition algorithmName (a : algorithm) : text :=
  match a with
  | sha256 => txt "sha256"
  | sha384 => txt "sha384"
  | sha512 => txt "sha512"
  end.

(** A [Buffer]. *)
Definition bytes := list Byte.byte.

(** The [http] or [https] module. *)
Inductive client := Https | Http.

(** What a call of [client.get(url, callback)] comes to.
    - [Response]: the callback is called with a response of that status,
      whose body is delivered in chunks and then emits [end].
    - [Interrupted]: the callback is called, some chunks are delivered and
      the body breaks off; the response emits no [end], and the module
      listens to nothing else on it.
    - [RequestError]: the request emits [error] (refused connection, failed
      name lookup, reset connection) while the promise is not settled.
    - [GetThrows]: the call itself throws, before anything is sent (the
      string does not parse as a URL, or names another protocol than the
      client's).
    - [NoResponse]: none of these ever happens; the module sets no timeout
      on the request. *)
Inductive fetchOutcome :=
| Response (statusCode : Z) (chunks : list bytes)
| Interrupted (statusCode : Z) (chunks : list bytes)
| RequestError (message : text)
| GetThrows (message : text)
| NoResponse.

(** [new Error(message)] *)
Record Error := mkError { message : text }.

(** The lines of [console.log]. *)
Inductive logLine :=
| LogGenerated (url : text)
| LogFailed (url message : text)
| LogFound (count : nat)
| LogResource (url : text)
| LogSkipping.

(** The observable state: the URLs [get] was called with so far and the
    lines printed so far, both in order. *)
Record World := mkWorld {
  requests : list text;
  console : list logLine
}.

(** What awaiting a promise comes to: it is fulfilled, it is rejected, or
    it never settles and the function that awaits it never goes on. *)
Inductive awaited (A : Type) :=
| Fulfilled (a : A)
| Rejected (e : Error)
| Pending.

Arguments Fulfilled {A} a.
Arguments Rejected {A} e.
Arguments Pending {A}.

Definition promise (A : Type) := World -> awaited A * World.

Definition ret (A : Type) (a : A) : promise A := fun w => (Fulfilled a, w).

Definition bind (A B : Type) (p : promise A) (k : A -> promise B)
  : promise B :=
  fun w =>
    match p w with
    | (Fulfilled a, w') => k a w'
    | (Rejected e, w') => (Rejected e, w')
    | (Pending, w') => (Pending, w')
    end.

(** [try { ... } catch (error) { ... }] *)
Definition tryCatch (A : Type) (p : promise A) (handler : Error -> promise A)
  : promise A :=
  fun w =>
    match p w with
    | (Fulfilled a, w') => (Fulfilled a, w')
    | (Rejected e, w') => handler e w'
    | (Pending, w') => (Pending, w')
    end.

Definition log (l : logLine) : promise unit :=
  fun w => (Fulfilled tt, mkWorld (requests w) (console w ++ [l])).

Notation "x <- p ;; k" := (bind p (fun x => k))
  (at level 61, p at next level, right associativity).
Notation "p ;;; k" := (bind p (fun _ => k))
  (at level 61, right associativity).

(** *** Objects used as maps *)

(** The value of the entry of [key] among the entries of an object,
    [None] when the object has no such entry. *)
Fixpoint getProperty (obj : list (text * hashValue)) (key : text)
  : option hashValue :=
  match obj with
  | [] => None
  | (k, v) :: obj' => if text_eqb k key then Some v else getProperty obj' key
  end.

(** An object created by [{}]: whether its prototype is still
    [Object.prototype], and its own entries in [Object.entries] order. *)
Record jsObject := mkObject {
  ordinaryPrototype : bool;
  ownEntries : list (text * hashValue)
}.

Definition protoKey : text := txt "__proto__".

Definition isDigit (c : ascii) : bool :=
  (48 <=? N_of_ascii c)%N && (N_of_ascii c <=? 57)%N.

Fixpoint numeral (acc : N) (s : text) : N :=
  match s with
  | [] => acc
  | c :: s' => numeral (10 * acc + (N_of_ascii c - 48)) s'
  end.

(** The array index a property key stands for: the key is the canonical
    decimal numeral of an integer below [2^32 - 1]. *)
Definition arrayIndex (key : text) : option N :=
  match key with
  | [] => None
  | c :: rest =>
      if forallb isDigit key
         && (negb (Ascii.eqb c "0"%char) || (List.length rest =? 0)%nat)
      then if (numeral 0 key <? 4294967295)%N
           then Some (numeral 0 key) else None
      else None
  end.

(** The value of an existing entry is replaced; the entry keeps its
    place. *)
Fixpoint update (es : list (text * hashValue)) (key : text)
         (value : hashValue) : list (text * hashValue) :=
  match es with
  | [] => []
  | (k, v) :: es' =>
      if text_eqb k key then (k, value) :: es'
      else (k, v) :: update es' key value
  end.

(** A new entry whose key is an array index comes before the entries of
    the greater indices and before those of all other keys. *)
Fixpoint insertIndex (n : N) (key : text) (value : hashValue)
         (es : list (text * hashValue)) : list (text * hashValue) :=
  match es with
  | [] => [(key, value)]
  | (k, v) :: es' =>
      match arrayIndex k with
      | Some m =>
          if (m <? n)%N then (k, v) :: insertIndex n key value es'
          else (key, value) :: es
      | None => (key, value) :: es
      end
  end.

(** A new entry: array indices first, in ascending order, then the other
    keys in the order of their creation. *)
Definition define (es : list (text * hashValue)) (key : text)
           (value : hashValue) : list (text * hashValue) :=
  match arrayIndex key with
  | Some n => insertIndex n key value es
  | None => es ++ [(key, value)]
  end.

(** [obj[key] = value].  An own entry is updated.  Otherwise, as long as
    the prototype is [Object.prototype], the key [__proto__] reaches the
    setter inherited from it: [null] removes the prototype, a string is
    ignored, and no entry is created either way.  Any other assignment
    creates an entry. *)
Definition setProperty (obj : jsObject) (key : text) (value : hashValue)
  : jsObject :=
  match getProperty (ownEntries obj) key with
  | Some _ =>
      mkObject (ordinaryPrototype obj) (update (ownEntries obj) key value)
  | None =>
      if text_eqb key protoKey && ordinaryPrototype obj
      then match value with
           | None => mkObject false (ownEntries obj)
           | Some _ => obj
           end
      else mkObject (ordinaryPrototype obj)
                    (define (ownEntries obj) key value)
  end.

(** The decimal numeral of a status code inside a template literal. *)
Definition decimal (n : Z) : text :=
  txt (NilZero.string_of_int (Z.to_int n)).

Record Options := mkOptions {
  optAlgorithm : option algorithm;
  optSkipFetch : option bool
}.

Record ProcessingResult := mkResult {
  html : text;
  resources : Resources;
  hashes : list (text * hashValue);
  modified : bool
}.

Section Pipeline.

(** [crypto.createHash(algorithm).update(content).digest('base64')] *)
Variable digestBase64 : algorithm -> bytes -> text.

(** The outcome of the n-th request of the run, made with the given client
    for the given URL. *)
Variable network : nat -> client -> text -> fetchOutcome.

Definition generateSRIHash (content : bytes) (alg : algorithm) : text :=
  algorithmName alg ++ "-"%char :: digestBase64 alg content.

Definition generateSRIHashFromURL (url : text) (alg : algorithm)
  : promise text :=
  fun w =>
    let client := if startsWith (txt "https") url then Https else Http in
    let w' := mkWorld (requests w ++ [url]) (console w) in
    match network (List.length (requests w)) client url with
    | Response statusCode chunks =>
        if negb (statusCode =? 200)%Z
        then (Rejected
                (mkError (txt "Failed to fetch " ++ url ++ txt ": HTTP "
                          ++ decimal statusCode)), w')
        else
          let content := List.concat chunks in
          (Fulfilled (generateSRIHash content alg), w')
    | Interrupted statusCode _ =>
        if negb (statusCode =? 200)%Z
        then (Rejected
                (mkError (txt "Failed to fetch " ++ url ++ txt ": HTTP "
                          ++ decimal statusCode)), w')
        else (Pending, w')
    | RequestError msg =>
        (Rejected (mkError (txt "Failed to fetch " ++ url ++ txt ": " ++ msg)),
         w')
    | GetThrows msg => (Rejected (mkError msg), w')
    | NoResponse => (Pending, w')
    end.

(** The body of [for (const url of urls)] and the rest of the loop. *)
Fixpoint hashEach (urls : list text) (alg : algorithm) (results : jsObject)
  : promise jsObject :=
  match urls with
  | [] => ret results
  | url :: more =>
      results' <-
        tryCatch
          (hash <- generateSRIHashFromURL url alg ;;
           let results := setProperty results url (Some hash) in
           log (LogGenerated url) ;;;
           ret results)
          (fun error =>
             log (LogFailed url (message error)) ;;;
             ret (setProperty results url None)) ;;
      hashEach more alg results'
  end.

(** The object is handed on as its entries, which is all that its users
    read of it. *)
Definition generateSRIHashesForURLs (urls : list text) (alg : algorithm)
  : promise (list (text * hashValue)) :=
  results <- hashEach urls alg (mkObject true []) ;;
  ret (ownEntries results).

Definition processHTMLForSRI (html : text) (options : Options)
  : promise ProcessingResult :=
  let algorithm :=
    match optAlgorithm options with Some a => a | None => sha384 end in
  let skipFetch :=
    match optSkipFetch options with Some b => b | None => false end in
  let resources := extractExternalResources html in
  let allUrls := scripts resources ++ stylesheets resources in
  if (List.length allUrls =? 0)%nat
  then ret (mkResult html resources [] false)
  else
    log (LogFound (List.length allUrls)) ;;;
    fold_right (fun url k => log (LogResource url) ;;; k) (ret tt) allUrls ;;;
    if skipFetch
    then
      log LogSkipping ;;;
      ret (mkResult html resources [] false)
    else
      hashes <- generateSRIHashesForURLs allUrls algorithm ;;
      let updatedHtml := addSRIAttributesToHTML html hashes in
      ret (mkResult updatedHtml resources hashes
                    (negb (text_eqb updatedHtml html))).

End Pipeline.

(** * The command-line script that adds the hashes to files

    The script [addSRIHashes.js]: [processFile] and [main].  The file
    system is the list of the paths that exist, each with what is there: a
    directory, or a regular file with its content (read and written as
    [utf-8] text) and with the rights of the process to read and to write
    it.  The calls of [fs] that fail throw.  The console of the script and
    of the module it calls is one sequence of lines. *)

Inductive diskEntry :=
| Directory
| RegularFile (content : text) (readable writable : bool).

Definition Disk := list (text * diskEntry).

(** What is at a path, if anything. *)
Fixpoint lookup (d : Disk) (filePath : text) : option diskEntry :=
  match d with
  | [] => None
  | (p, e) :: d' => if text_eqb p filePath then Some e else lookup d' filePath
  end.

(** [fs.existsSync(filePath)]: true for a file and for a directory. *)
Definition existsSync (d : Disk) (filePath : text) : bool :=
  existsb (fun entry => text_eqb (fst entry) filePath) d.

(** [fs.readFileSync(filePath, 'utf-8')]; [None] when the call throws:
    nothing at the path, a directory, a file that may not be read. *)
Definition readFileSync (d : Disk) (filePath : text) : option text :=
  match lookup d filePath with
  | Some (RegularFile content true _) => Some content
  | _ => None
  end.

(** The error a failed call of [fs] throws, when reading or when opening
    for writing. *)
Definition fsError (d : Disk) (filePath : text) (reading : bool) : Error :=
  mkError
    (match lookup d filePath with
     | Some Directory =>
         txt "EISDIR: illegal operation on a directory, "
         ++ (if reading then txt "read"
             else txt "open '" ++ filePath ++ txt "'")
     | Some (RegularFile _ _ _) =>
         txt "EACCES: permission denied, open '" ++ filePath ++ txt "'"
     | None =>
         txt "ENOENT: no such file or directory, open '" ++ filePath
         ++ txt "'"
     end).

(** The content of the file at a path is replaced. *)
Fixpoint store (d : Disk) (filePath content : text) : Disk :=
  match d with
  | [] => []
  | (p, e) :: d' =>
      if text_eqb p filePath
      then (p, match e with
               | RegularFile _ readable writable =>
                   RegularFile content readable writable
               | Directory => Directory
               end) :: d'
      else (p, e) :: store d' filePath content
  end.

(** [fs.writeFileSync(filePath, content, 'utf-8')]: the file is replaced,
    or created; [None] when the call throws: a directory, a file that may
    not be written. *)
Definition writeFileSync (d : Disk) (filePath content : text)
  : option Disk :=
  match lookup d filePath with
  | None => Some (d ++ [(filePath, RegularFile content true true)])
  | Some (RegularFile _ _ true) => Some (store d filePath content)
  | _ => None
  end.

(** The lines on the console: those of the module and those of the
    script, a run of [console.log] calls that always come together being
    one line. *)
Inductive cliLine :=
| FromModule (l : logLine)
| LineProcessing (filePath : text)
| LineNotFound (filePath : text)
| LineRead (length : nat)
| LineNoChange
| LineSummary (scripts stylesheets generated : nat)
| LineDryRun
| LineHash (url hash : text)
| LineUpdated
| LineFailed (message : text)
| LineBanner (alg : algorithm) (dryRun : bool)
| LineDefaults
| LineAllDone
| LineSomeFailed.

(** What the script acts on: the files, the requests sent so far, the
    console. *)
Record Machine := mkMachine {
  disk : Disk;
  sent : list text;
  printed : list cliLine
}.

Definition say (l : cliLine) (m : Machine) : Machine :=
  mkMachine (disk m) (sent m) (printed m ++ [l]).

Record FileOptions := mkFileOptions {
  optDryRun : option bool;
  optFileAlgorithm : option algorithm
}.

(** [Object.keys(result.hashes).filter(k => result.hashes[k]).length] *)
Definition generatedCount (hashes : list (text * hashValue)) : nat :=
  List.length (filter (fun entry => negb (falsy (snd entry))) hashes).

(** The lines of the dry-run loop over [Object.entries(result.hashes)]. *)
Definition hashLines (hashes : list (text * hashValue)) : list cliLine :=
  flat_map (fun entry : text * hashValue =>
              match snd entry with
              | Some (c :: h) => [LineHash (fst entry) (c :: h)]
              | _ => []
              end) hashes.

Section Script.

Variable digestBase64 : algorithm -> bytes -> text.
Variable network : nat -> client -> text -> fetchOutcome.

(** [path.join(__dirname, '../index.html')] and
    [path.join(__dirname, '../404.html')] *)
Variable indexPath notFoundPath : text.

Definition processFile (filePath : text) (options : FileOptions)
           (m : Machine) : awaited bool * Machine :=
  let dryRun := match optDryRun options with Some b => b | None => false end in
  let algorithm :=
    match optFileAlgorithm options with Some a => a | None => sha384 end in
  let m := say (LineProcessing filePath) m in
  if negb (existsSync (disk m) filePath)
  then (Fulfilled false, say (LineNotFound filePath) m)
  else
    (* const html = fs.readFileSync(filePath, 'utf-8'), before the try *)
    match readFileSync (disk m) filePath with
    | None => (Rejected (fsError (disk m) filePath true), m)
    | Some content =>
        let m := say (LineRead (List.length content)) m in
        (* try *)
        match processHTMLForSRI digestBase64 network content
                (mkOptions (Some algorithm) (Some false))
                (mkWorld (sent m) []) with
        | (Fulfilled result, w') =>
            let m := mkMachine (disk m) (requests w')
                               (printed m ++ map FromModule (console w')) in
            if negb (modified result)
            then (Fulfilled true, say LineNoChange m)
            else
              let m :=
                say (LineSummary
                       (List.length (scripts (resources result)))
                       (List.length (stylesheets (resources result)))
                       (generatedCount (hashes result))) m in
              if dryRun
              then
                let m := say LineDryRun m in
                (Fulfilled true,
                 mkMachine (disk m) (sent m)
                           (printed m ++ hashLines (hashes result)))
              else
                match writeFileSync (disk m) filePath (html result) with
                | Some disk' =>
                    let m := mkMachine disk' (sent m) (printed m) in
                    (Fulfilled true, say LineUpdated m)
                | None =>
                    (* catch *)
                    (Fulfilled false,
                     say (LineFailed
                            (message (fsError (disk m) filePath false))) m)
                end
        | (Rejected error, w') =>
            (* catch *)
            let m := mkMachine (disk m) (requests w')
                               (printed m ++ map FromModule (console w')) in
            (Fulfilled false, say (LineFailed (message error)) m)
        | (Pending, w') =>
            (Pending,
             mkMachine (disk m) (requests w')
                       (printed m ++ map FromModule (console w')))
        end
    end.

(** [for (const filePath of files) { const success = await
    processFile(filePath, options); if (!success) allSuccess = false; }] *)
Fixpoint processAll (files : list text) (options : FileOptions)
         (allSuccess : bool) (m : Machine) : awaited bool * Machine :=
  match files with
  | [] => (Fulfilled allSuccess, m)
  | filePath :: more =>
      match processFile filePath options m with
      | (Fulfilled success, m') =>
          processAll more options (if negb success then false else allSuccess)
                     m'
      | (Rejected e, m') => (Rejected e, m')
      | (Pending, m') => (Pending, m')
      end
  end.

(** How the process ends: [main] returns, or [process.exit(code)]. *)
Inductive ending := Returned | Exit (code : nat).

Definition main (argv : list text) (m : Machine) : awaited ending * Machine :=
  let args := skipn 2 argv in
  let dryRun := arrayIncludes (txt "--dry-run") args
                || arrayIncludes (txt "-d") args in
  let options := mkFileOptions (Some dryRun) (Some sha384) in
  let filePaths := filter (fun arg => negb (startsWith (txt "-") arg)) args in
  let files :=
    if (List.length filePaths =? 0)%nat then [indexPath; notFoundPath]
    else filePaths in
  let m := say (LineBanner sha384 dryRun) m in
  let m := if (List.length filePaths =? 0)%nat then say LineDefaults m else m in
  match processAll files options true m with
  | (Fulfilled allSuccess, m') =>
      if allSuccess then (Fulfilled Returned, say LineAllDone m')
      else (Fulfilled (Exit 1), say LineSomeFailed m')
  | (Rejected e, m') => (Rejected e, m')
  | (Pending, m') => (Pending, m')
  end.

End Script.

(** * The DOCTYPE check of the HTML validator *)

(** [s.trim()]: the white space and line terminators at both ends are
    removed. *)
Fixpoint trimStart (s : text) : text :=
  match s with
  | c :: s' => if isSpace c then trimStart s' else s
  | [] => []
  end.

Definition trimEnd (s : text) : text := rev (trimStart (rev s)).

Definition trim (s : text) : text := trimEnd (trimStart s).

(** [r.test(s)] for an expression [r] that begins with [^] and has no
    [g] flag: the rest of the expression is tried at the start of [s]
    only. *)
Definition testAtStart (ic : bool) (r : regex) (s : text) : bool :=
  match run ic r s with
  | [] => false
  | _ :: _ => true
  end.

(** [/^<!DOCTYPE html>/i] after its [^] *)
Definition doctypeRegex : regex := lits (txt "<!DOCTYPE html>").

(** The object a check returns: [{ valid, name, message }]. *)
Record Check := mkCheck {
  checkValid : bool;
  checkName : text;
  checkMessage : text
}.

Definition checkDoctype (html : text) : Check :=
  let hasDoctype := testAtStart true doctypeRegex (trim html) in
  mkCheck hasDoctype
          (txt "DOCTYPE Declaration")
          (if hasDoctype then txt "Valid HTML5 DOCTYPE found"
           else txt "Missing or invalid DOCTYPE declaration").

(** * The escaping of the page generator *)

(** A JavaScript value as far as [typeof value !== 'string'] tells. *)
Inductive jsValue :=
| JsString (s : text)
| JsOther.

Definition htmlEscapeMap : list (text * text) :=
  [(txt "&", txt "&amp;");
   (txt "<", txt "&lt;");
   (txt ">", txt "&gt;");
   ([dq], txt "&quot;");
   ([sq], txt "&#39;");
   (txt "/", txt "&#x2F;")].

(** [map[key]] on an object whose values are strings; [None] is
    [undefined]. *)
Fixpoint getEntry (map : list (text * text)) (key : text) : option text :=
  match map with
  | [] => None
  | (k, v) :: map' => if text_eqb k key then Some v else getEntry map' key
  end.

(** What [String.prototype.replace] puts in for the value a replacer
    function returned: [undefined] becomes the text [undefined]. *)
Definition replacement (value : option text) : text :=
  match value with
  | Some v => v
  | None => txt "undefined"
  end.

(** [/[&<>Q'\/]/g] *)
Definition htmlSpecial : atom :=
  OneOf [CChar "&"%char; CChar "<"%char; CChar ">"%char; CChar dq; CChar sq;
         CChar "/"%char].

(** The parameter is [text] in the source. *)
Definition escapeHtml (value : jsValue) : text :=
  match value with
  | JsOther => []
  | JsString s =>
      replace false (One htmlSpecial)
              (fun char _ => replacement (getEntry htmlEscapeMap char)) s
  end.

(** * The file-name validator

    The functions of [fileNamingValidator.js] that work on a name:
    [isValidFileName], [getInvalidReason] and [suggestValidFileName]. *)

Definition specialFiles : list text :=
  [txt "README.md"; txt "LICENSE"; txt "CNAME"; txt "Dockerfile";
   txt ".env"; txt ".env.local"; txt ".env.production"].

(** [s.endsWith(w)] *)
Definition endsWith (w s : text) : bool := startsWith (rev w) (rev s).

(** [s.split(sep)] for a separator of one code unit. *)
Fixpoint split (sep : ascii) (s : text) : list text :=
  match s with
  | [] => [[]]
  | c :: s' =>
      if Ascii.eqb c sep then [] :: split sep s'
      else
        match split sep s' with
        | part :: parts => (c :: part) :: parts
        | [] => [[c]]
        end
  end.

(** The ranges [a-z], [A-Z] and [0-9], one code unit after the other. *)
Definition lowerLetters : list classItem :=
  map CChar (txt "abcdefghijklmnopqrstuvwxyz").

Definition upperLetters : list classItem :=
  map CChar (txt "ABCDEFGHIJKLMNOPQRSTUVWXYZ").

Definition digits : list classItem := map CChar (txt "0123456789").

(** The classes [[a-z0-9._-]] and [[a-zA-Z0-9._-]]. *)
Definition lowerNameItems : list classItem :=
  lowerLetters ++ digits ++ map CChar (txt "._-").

Definition anyNameItems : list classItem :=
  lowerLetters ++ upperLetters ++ digits ++ map CChar (txt "._-").

(** [r.test(s)] for an expression between [^] and [$], without the [m]
    flag: the expression is tried at the start of [s] only, and one of its
    ways of matching has to end where [s] ends. *)
Definition testWhole (ic : bool) (r : regex) (s : text) : bool :=
  existsb (fun w : way => match snd w with [] => true | _ :: _ => false end)
          (run ic r s).

(** [r.test(s)] for an expression without anchors and without the [g]
    flag. *)
Definition test (ic : bool) (r : regex) (s : text) : bool :=
  match exec ic r s with
  | Some _ => true
  | None => false
  end.

(** [allowUppercase] is [false] when the caller leaves it out. *)
Definition isValidFileName (filename : text) (allowUppercase : bool) : bool :=
  if arrayIncludes filename specialFiles then true
  else if includes (txt " ") filename then false
  else
    let allowedPattern :=
      if allowUppercase then Plus (OneOf anyNameItems)
      else Plus (OneOf lowerNameItems) in
    if negb (testWhole false allowedPattern filename) then false
    else if includes (txt "--") filename || includes (txt "..") filename
    then false
    else if negb (startsWith (txt ".") filename)
    then
      if startsWith (txt "-") filename || endsWith (txt "-") filename
      then false
      else if startsWith (txt ".") filename || endsWith (txt ".") filename
      then
        let parts := split "."%char filename in
        if (List.length parts <? 2)%nat then false else true
      else true
    else true.

Definition getInvalidReason (filename : text) (allowUppercase : bool) : text :=
  if includes (txt " ") filename
  then txt "Contains spaces (use hyphens instead)"
  else if negb allowUppercase && test false (One (OneOf upperLetters)) filename
  then txt "Contains uppercase letters (use lowercase)"
  else if includes (txt "--") filename
  then txt "Contains consecutive hyphens"
  else if includes (txt "..") filename
  then txt "Contains consecutive dots"
  else if negb (startsWith (txt ".") filename)
          && (startsWith (txt "-") filename || endsWith (txt "-") filename)
  then txt "Starts or ends with hyphen"
  else
    let allowedPattern :=
      if allowUppercase then Plus (OneOf anyNameItems)
      else Plus (OneOf lowerNameItems) in
    if negb (testWhole false allowedPattern filename)
    then txt "Contains invalid characters (only lowercase letters, numbers, dots, hyphens, and underscores allowed)"
    else txt "Unknown naming convention violation".

(** [toLowerCase] on the code units below 256: A-Z, and U+00C0..U+00DE
    except U+00D7, go 32 up. *)
Definition toLowerUnit (c : ascii) : ascii :=
  let n := N_of_ascii c in
  if ((65 <=? n) && (n <=? 90))%N then ascii_of_N (n + 32)
  else if ((192 <=? n) && (n <=? 222) && negb (n =? 215))%N
       then ascii_of_N (n + 32)
       else c.

Definition toLowerCase (s : text) : text := map toLowerUnit s.

(** The leftmost place from which [r] matches up to the end of the text,
    as the matcher finds it for [r$]: the text before that place. *)
Fixpoint execToEnd (ic : bool) (r : regex) (s : text) : option text :=
  if testWhole ic r s then Some []
  else
    match s with
    | [] => None
    | c :: s' =>
        match execToEnd ic r s' with
        | Some before => Some (c :: before)
        | None => None
        end
    end.

(** [s.replace(/^-+|-+$/g, '')].  The first alternative matches at the
    start of the text only, and is tried first there; from the end of
    that match on, or from the start when there is none, only the second
    alternative can match, at the leftmost place from which hyphens run to
    the end of the text; nothing matches after that. *)
Definition stripHyphens (s : text) : text :=
  let rest :=
    match run false (Plus (Lit "-"%char)) s with
    | (_, _, rest) :: _ => rest
    | [] => s
    end in
  match execToEnd false (Plus (Lit "-"%char)) rest with
  | Some before => before
  | None => rest
  end.

Definition suggestValidFileName (filename : text) : text :=
  let suggested := filename in
  let suggested :=
    replace false (Plus (OneOf [CSpace])) (fun _ _ => txt "-") suggested in
  let suggested := toLowerCase suggested in
  let suggested :=
    replace false (One (NoneOf lowerNameItems)) (fun _ _ => []) suggested in
  let suggested :=
    replace false (Plus (Lit "-"%char)) (fun _ _ => txt "-") suggested in
  let suggested :=
    replace false (Plus (Lit "."%char)) (fun _ _ => txt ".") suggested in
  stripHyphens suggested.

(** ** The walk over a directory

    [validateFileNaming], [validateDirectory] and [ensureValidFileNaming].
    What [fs] shows of a directory is a tree: at a path there is a file, a
    directory with its entries in the order [readdirSync] lists them, or
    something that is neither (a link, a socket).  [path.join] and
    [path.relative] are left open. *)

#[warnings="-register-all"]
Inductive node :=
| FileNode
| OtherNode
| DirNode (entries : list (text * node)).

(** [entry.isDirectory()] and [entry.isFile()] *)
Definition isDirectory (n : node) : bool :=
  match n with DirNode _ => true | _ => false end.

Definition isFile (n : node) : bool :=
  match n with FileNode => true | _ => false end.

(** [{ path, name, reason }] *)
Record InvalidName := mkInvalidName {
  path : text;
  name : text;
  reason : text
}.

(** [{ valid, invalid, warnings }] *)
Record NamingResults := mkNamingResults {
  valid : list text;
  invalid : list InvalidName;
  warnings : list text
}.

(** The options as the caller gives them, and after the defaults. *)
Record NamingOptions := mkNamingOptions {
  optRecursive : option bool;
  optExcludeDirs : option (list text);
  optExcludeFiles : option (list text);
  optAllowUppercase : option bool
}.

Record WalkOptions := mkWalkOptions {
  recursive : bool;
  excludeDirs : list text;
  excludeFiles : list text;
  allowUppercase : bool
}.

Definition withDefaults (options : NamingOptions) : WalkOptions :=
  mkWalkOptions
    (match optRecursive options with Some b => b | None => true end)
    (match optExcludeDirs options with
     | Some l => l
     | None => [txt "node_modules"; txt ".git"; txt ".kiro"; txt ".vscode";
                txt "dist"]
     end)
    (match optExcludeFiles options with
     | Some l => l
     | None => [txt ".DS_Store"; txt ".gitignore"; txt ".gitkeep"]
     end)
    (match optAllowUppercase options with Some b => b | None => false end).

(** The lines [ensureValidFileNaming] prints. *)
Inductive namingLine :=
| NamingFailed (count : nat)
| NamingInvalidPath (path : text)
| NamingReason (reason : text)
| NamingPassed (count : nat).

Section Walk.

(** [path.join(a, b)] and [path.relative(from, to)] *)
Variable pathJoin : text -> text -> text.
Variable pathRelative : text -> text -> text.

(** [dir] is what is at [currentPath]; [readdirSync] lists the entries of
    a directory (the function is called on directories only). *)
Fixpoint validateDirectory (dir : node) (currentPath basePath : text)
         (results : NamingResults) (options : WalkOptions) {struct dir}
  : NamingResults :=
  match dir with
  | DirNode entries =>
      (fix loop (entries : list (text * node)) (results : NamingResults)
         {struct entries} : NamingResults :=
         match entries with
         | [] => results
         | (entryName, entry) :: more =>
             let fullPath := pathJoin currentPath entryName in
             let relativePath := pathRelative basePath fullPath in
             if isDirectory entry
                && arrayIncludes entryName (excludeDirs options)
             then loop more results               (* continue *)
             else if isFile entry
                     && arrayIncludes entryName (excludeFiles options)
             then loop more results               (* continue *)
             else
               let isValid :=
                 isValidFileName entryName (allowUppercase options) in
               let results :=
                 if isValid
                 then mkNamingResults (valid results ++ [relativePath])
                                      (invalid results) (warnings results)
                 else mkNamingResults
                        (valid results)
                        (invalid results
                         ++ [mkInvalidName
                               relativePath entryName
                               (getInvalidReason entryName
                                                 (allowUppercase options))])
                        (warnings results) in
               let results :=
                 if isDirectory entry && recursive options
                 then validateDirectory entry fullPath basePath results options
                 else results in
               loop more results
         end) entries results
  | _ => results
  end.

(** [root] is what is at [dirPath], if anything; [None] is returned when
    [readdirSync] throws because [dirPath] is no directory. *)
Definition validateFileNaming (root : option node) (dirPath : text)
           (options : NamingOptions) : option NamingResults :=
  let results := mkNamingResults [] [] [] in
  match root with
  | None =>
      Some (mkNamingResults
              (valid results) (invalid results)
              (warnings results
               ++ [txt "Directory does not exist: " ++ dirPath]))
  | Some (DirNode entries) =>
      Some (validateDirectory (DirNode entries) dirPath dirPath results
                              (withDefaults options))
  | Some _ => None
  end.

Definition ensureValidFileNaming (root : option node) (dirPath : text)
           (options : NamingOptions) : option (bool * list namingLine) :=
  match validateFileNaming root dirPath options with
  | None => None
  | Some results =>
      if (0 <? List.length (invalid results))%nat
      then
        Some (false,
              NamingFailed (List.length (invalid results))
              :: flat_map (fun item => [NamingInvalidPath (path item);
                                        NamingReason (reason item)])
                          (invalid results))
      else Some (true, [NamingPassed (List.length (valid results))])
  end.

End Walk.

(** * Vocabulary of the properties *)

(** What a way of matching says about the text consumed, independently of
    the order in which the matcher explores the ways. *)
Inductive Matches (ic : bool) : regex -> text -> list text -> Prop :=
| MEps : Matches ic Eps [] []
| MOne a c : accepts ic a c = true -> Matches ic (One a) [c] []
| MOptOne a c : accepts ic a c = true -> Matches ic (Opt a) [c] []
| MOptNone a : Matches ic (Opt a) [] []
| MStar a m : forallb (accepts ic a) m = true -> Matches ic (Star a) m []
| MPlus a c m :
    accepts ic a c = true -> forallb (accepts ic a) m = true ->
    Matches ic (Plus a) (c :: m) []
| MSeq r1 r2 m1 c1 m2 c2 :
    Matches ic r1 m1 c1 -> Matches ic r2 m2 c2 ->
    Matches ic (Seq r1 r2) (m1 ++ m2) (c1 ++ c2)
| MGroup r m c : Matches ic r m c -> Matches ic (Group r) m (m :: c).

(** The expression never matches the empty text. *)
Definition NeverEmpty (ic : bool) (r : regex) : Prop :=
  forall caps, ~ Matches ic r [] caps.

(** The matches an [exec] loop goes through, in the order of the text. *)
Fixpoint hitsFuel (ic : bool) (fuel : nat) (r : regex) (s : text) : list hit :=
  match fuel with
  | O => []
  | S fuel' =>
      match exec ic r s with
      | None => []
      | Some h => h :: hitsFuel ic fuel' r (after h)
      end
  end.

Definition hits (ic : bool) (r : regex) (s : text) : list hit :=
  hitsFuel ic (S (List.length s)) r s.

(** The elements of a list in their order, each at its first occurrence
    only. *)
Fixpoint keepFirst (l : list text) : list text :=
  match l with
  | [] => []
  | x :: l' => x :: filter (fun y => negb (text_eqb x y)) (keepFirst l')
  end.

(** [if (!acc.includes(url)) acc.push(url)] *)
Definition pushNew (acc : list text) (url : text) : list text :=
  if negb (arrayIncludes url acc) then acc ++ [url] else acc.

(** [w] and [m] have the same length and agree code unit by code unit, the
    way the matcher compares a pattern character with the text. *)
Fixpoint sameText (ic : bool) (w m : text) : bool :=
  match w, m with
  | [], [] => true
  | a :: w', c :: m' => sameChar ic a c && sameText ic w' m'
  | _, _ => false
  end.

(** [s] starts with [w], letter case apart. *)
Definition startsWithCI (w s : text) : bool :=
  startsWith (map canonicalize w) (map canonicalize s).

(** The URL is absolute: it starts with [http://] or [https://], letter
    case apart. *)
Definition absoluteCI (url : text) : bool :=
  startsWithCI (txt "http://") url || startsWithCI (txt "https://") url.

(** The request settles its promise: a complete response, a response
    with a status other than 200 (rejected at once, whatever becomes of its
    body), an error of the request, a call that throws. *)
Definition settles (o : fetchOutcome) : bool :=
  match o with
  | Response _ _ => true
  | Interrupted statusCode _ => negb (statusCode =? 200)%Z
  | RequestError _ => true
  | GetThrows _ => true
  | NoResponse => false
  end.

(** What the batch records for a URL whose request settled as [o]: the
    hash of the body after a complete response with status 200, [null]
    otherwise. *)
Definition recorded (digestBase64 : algorithm -> bytes -> text)
           (alg : algorithm) (o : fetchOutcome) : hashValue :=
  match o with
  | Response statusCode chunks =>
      if (statusCode =? 200)%Z
      then Some (generateSRIHash digestBase64 (List.concat chunks) alg)
      else None
  | _ => None
  end.

(** The client [generateSRIHashFromURL] picks for a URL. *)
Definition clientFor (url : text) : client :=
  if startsWith (txt "https") url then Https else Http.

(** Every request of a batch settles: the requests for [urls], made one
    after the other from the [n]-th request of the run on. *)
Fixpoint allSettle (network : nat -> client -> text -> fetchOutcome)
         (n : nat) (urls : list text) : bool :=
  match urls with
  | [] => true
  | url :: more =>
      settles (network n (clientFor url) url)
      && allSettle network (S n) more
  end.

(** The keys of an object. *)
Definition keys (obj : list (text * hashValue)) : list text := map fst obj.

(** The test the locator applies to the text of a link tag. *)
Definition marked (h : hit) : bool := includes (txt "stylesheet") (matched h).

(** The text covered by a sequence of successive matches, each with the
    text skipped before it. *)
Definition covered (hs : list hit) : text :=
  flat_map (fun h => before h ++ matched h) hs.

(** What [escapeRegex] does to one code unit. *)
Definition escapeChar (c : ascii) : text :=
  if accepts false (OneOf syntaxChars) c then ["\"%char; c] else [c].


(** The entries the rewriter does not skip. *)
Definition hashed (entry : text * hashValue) : bool := negb (falsy (snd entry)).

(** The first way of matching that the matcher finds at a position. *)
Definition Leads (ic : bool) (r : regex) (s : text) (w : way) : Prop :=
  exists others, run ic r s = w :: others.

(** [s] has no code unit [x]. *)
Definition noChar (x : ascii) (s : text) : bool :=
  forallb (fun c => negb (Ascii.eqb c x)) s.

(** [w] and [p] disagree, letter case apart, at some place that both
    have: [w] is then no prefix of any extension of [p]. *)
Fixpoint clash (w p : text) : bool :=
  match w, p with
  | a :: w', c :: p' => negb (sameChar true a c) || clash w' p'
  | _, _ => false
  end.

(** Every non-empty suffix of [z] clashes with [w]: however [z] is
    continued, [w] starts nowhere inside it. *)
Fixpoint clashes (w z : text) : bool :=
  match z with
  | [] => true
  | _ :: z' => clash w z && clashes w z'
  end.

(** The two kinds of tag the rewriter looks for. *)
Inductive tagKind := ScriptTag | LinkTag.

Definition tagName (k : tagKind) : string :=
  match k with ScriptTag => "<script" | LinkTag => "<link" end.

Definition refAttr (k : tagKind) : string :=
  match k with ScriptTag => "src=" | LinkTag => "href=" end.

(** The outcome of the request that [generateSRIHashFromURL] makes for a
    URL in a given state. *)
Definition outcomeOf (network : nat -> client -> text -> fetchOutcome)
           (w : World) (url : text) : fetchOutcome :=
  network (List.length (requests w)) (clientFor url) url.

(** Neither [<script] nor [<link] starts anywhere in [s], letter case
    apart, however [s] is continued. *)
Definition noTagStart (s : text) : bool :=
  clashes (txt (tagName ScriptTag)) s && clashes (txt (tagName LinkTag)) s.

(** ** Pages made of text and tags *)

(** A page as the rewriter reads it: stretches of text, and script and
    link tags, each from its name to the first [>] after it. *)
Inductive piece :=
| Text (z : text)
| Tag (k : tagKind) (name body : text).

Definition renderPiece (p : piece) : text :=
  match p with
  | Text z => z
  | Tag _ name body => name ++ body ++ [">"%char]
  end.

Definition render (ps : list piece) : text := flat_map renderPiece ps.

(** In a stretch of text neither tag name starts; a tag has its name, in
    any letter case, and neither [<] nor [>] before the [>] that closes
    it. *)
Definition wellFormed (p : piece) : bool :=
  match p with
  | Text z => noTagStart z
  | Tag k name body =>
      sameText true (txt (tagName k)) name
      && noChar "<"%char body && noChar ">"%char body
  end.

Definition isQuote (c : ascii) : bool := Ascii.eqb c dq || Ascii.eqb c sq.

(** A quote at the start of [s], if there is one, and what follows. *)
Definition optionalQuote (s : text) : text * text :=
  match s with
  | c :: s' => if isQuote c then ([c], s') else ([], s)
  | [] => ([], [])
  end.

(** [s] starts with a reference to [key]: the attribute name [attr], a
    quote or none, and the key, letter case apart.  The result is that
    start of [s], with the quote that may follow the key, and the rest of
    [s]. *)
Definition refHere (attr key s : text) : option (text * text) :=
  if startsWithCI attr s
  then
    let (q1, s2) := optionalQuote (skipn (List.length attr) s) in
    if startsWithCI key s2
    then
      let (q2, s4) := optionalQuote (skipn (List.length key) s2) in
      Some (firstn (List.length attr) s ++ q1
            ++ firstn (List.length key) s2 ++ q2, s4)
    else None
  else None.

(** The last place of [s] at which a reference to [key] starts: [s] up
    to the end of that reference, and the rest of [s]. *)
Fixpoint lastRefFrom (attr key s : text) : option (text * text) :=
  match s with
  | [] => None
  | c :: s' =>
      match lastRefFrom attr key s' with
      | Some (opening, closing) => Some (c :: opening, closing)
      | None => refHere attr key s
      end
  end.

(** The same in the body of a tag, where a reference comes after one
    code unit at least. *)
Definition lastRef (attr key body : text) : option (text * text) :=
  match body with
  | [] => None
  | c :: s =>
      match lastRefFrom attr key s with
      | Some (opening, closing) => Some (c :: opening, closing)
      | None => None
      end
  end.

(** What an entry [key -> hash] makes of a piece: a tag of which the body
    holds a reference to the key gains the two attributes after the last
    one, unless [integrity=] stands in the tag before that place. *)
Definition rewriteTag (key hash : text) (p : piece) : piece :=
  match p with
  | Text z => Text z
  | Tag k name body =>
      match lastRef (txt (refAttr k)) key body with
      | Some (opening, closing) =>
          if includes (txt "integrity=") (name ++ opening) then p
          else Tag k name (opening ++ sriAttributes hash ++ closing)
      | None => p
      end
  end.

(** What an entry makes of a page: nothing when its hash is null or
    empty. *)
Definition rewriteBy (ps : list piece) (entry : text * hashValue)
  : list piece :=
  match snd entry with
  | Some (c :: h) => map (rewriteTag (fst entry) (c :: h)) ps
  | _ => ps
  end.

(** The key can stand in a reference: it holds no [>] and does not start
    with a quote. *)
Definition plainKey (key : text) : bool :=
  noChar ">"%char key
  && match key with c :: _ => negb (isQuote c) | [] => true end.

(** The hash can stand in a tag: it holds neither [<] nor [>]. *)
Definition plainHash (hash : text) : bool :=
  noChar "<"%char hash && noChar ">"%char hash.

Definition sameKind (k k' : tagKind) : bool :=
  match k, k' with
  | ScriptTag, ScriptTag | LinkTag, LinkTag => true
  | _, _ => false
  end.

(** What the pass for tags of kind [k0] makes of a piece: it leaves the
    tags of the other kind alone. *)
Definition passTag (k0 : tagKind) (key hash : text) (p : piece) : piece :=
  match p with
  | Tag k _ _ => if sameKind k k0 then rewriteTag key hash p else p
  | Text _ => p
  end.

(** An entry the rewriter does not skip has a key that can stand in a
    reference and a hash that can stand in a tag. *)
Definition cleanEntry (entry : text * hashValue) : bool :=
  match snd entry with
  | Some (c :: h) => plainKey (fst entry) && plainHash (c :: h)
  | _ => true
  end.

(** The tag holds a reference to the key. *)
Definition refersTo (key : text) (p : piece) : bool :=
  match p with
  | Text _ => false
  | Tag k _ body =>
      match lastRef (txt (refAttr k)) key body with
      | Some _ => true
      | None => false
      end
  end.

(** * Vocabulary of the further properties *)

(** [l1] is [l2] with some elements left out: the elements of [l1] occur
    in [l2] in the same order. *)
Inductive Subseq (A : Type) : list A -> list A -> Prop :=
| SubNil l : Subseq [] l
| SubKeep x l1 l2 : Subseq l1 l2 -> Subseq (x :: l1) (x :: l2)
| SubSkip x l1 l2 : Subseq l1 l2 -> Subseq l1 (x :: l2).

(** The expression has no capturing parentheses. *)
Fixpoint groupless (r : regex) : bool :=
  match r with
  | Seq r1 r2 => groupless r1 && groupless r2
  | Group _ => false
  | _ => true
  end.

(** The URL is one of those the locator lists for the text. *)
Definition located (u input : text) : Prop :=
  In u (scripts (extractExternalResources input)) \/
  In u (stylesheets (extractExternalResources input)).

(** The options of [processHTMLForSRI] after their defaults. *)
Definition algorithmOf (options : Options) : algorithm :=
  match optAlgorithm options with Some a => a | None => sha384 end.

Definition skipFetchOf (options : Options) : bool :=
  match optSkipFetch options with Some b => b | None => false end.

(** All the URLs the locator lists, scripts first: [allUrls]. *)
Definition allUrlsOf (input : text) : list text :=
  scripts (extractExternalResources input)
  ++ stylesheets (extractExternalResources input).

(** The state after the orchestrator has printed what it found. *)
Definition announced (w : World) (all : list text) : World :=
  mkWorld (requests w)
          (console w ++ LogFound (List.length all) :: map LogResource all).

(** The code unit is none of those a captured URL stops at: a quote, white
    space or [>]. *)
Definition urlSafe (c : ascii) : bool :=
  negb (Ascii.eqb c dq || Ascii.eqb c sq || isSpace c || Ascii.eqb c ">"%char).

(** The options of [processFile] after their defaults. *)
Definition dryRunOf (options : FileOptions) : bool :=
  match optDryRun options with Some b => b | None => false end.

(** The files [main] processes: the arguments after the first two that do
    not start with a dash, or the two default files when there is none. *)
Definition filesOf (indexPath notFoundPath : text) (argv : list text)
  : list text :=
  match filter (fun arg => negb (startsWith (txt "-") arg)) (skipn 2 argv) with
  | [] => [indexPath; notFoundPath]
  | filePaths => filePaths
  end.

(** The arguments ask for a dry run. *)
Definition asksDryRun (argv : list text) : bool :=
  arrayIncludes (txt "--dry-run") (skipn 2 argv)
  || arrayIncludes (txt "-d") (skipn 2 argv).

Definition fileAlgorithmOf (options : FileOptions) : algorithm :=
  match optFileAlgorithm options with Some a => a | None => sha384 end.

(** Every non-empty end of the text holds a code unit that is not white
    space: the text does not end with white space. *)
Fixpoint endsNonSpace (w : text) : bool :=
  match w with
  | [] => true
  | a :: w' => negb (forallb isSpace (a :: w')) && endsNonSpace w'
  end.

(** What [escapeHtml] makes of one code unit. *)
Definition escapeHtmlChar (c : ascii) : text :=
  if Ascii.eqb c "&"%char then txt "&amp;"
  else if Ascii.eqb c "<"%char then txt "&lt;"
  else if Ascii.eqb c ">"%char then txt "&gt;"
  else if Ascii.eqb c dq then txt "&quot;"
  else if Ascii.eqb c sq then txt "&#39;"
  else if Ascii.eqb c "/"%char then txt "&#x2F;"
  else [c].

(** The code unit is none of [<], [>], the two quotes and [/]. *)
Definition plainChar (c : ascii) : bool :=
  negb (Ascii.eqb c "<"%char || Ascii.eqb c ">"%char || Ascii.eqb c dq
        || Ascii.eqb c sq || Ascii.eqb c "/"%char).

(** The six entities [escapeHtml] writes. *)
Definition entities : list text :=
  [txt "&amp;"; txt "&lt;"; txt "&gt;"; txt "&quot;"; txt "&#39;";
   txt "&#x2F;"].

(** Every run of code units that satisfy [p] is replaced by [v]. *)
Fixpoint squeezeBy (p : ascii -> bool) (v s : text) : text :=
  match s with
  | [] => []
  | c :: s' =>
      if p c
      then
        match s' with
        | d :: _ => if p d then squeezeBy p v s' else v ++ squeezeBy p v s'
        | [] => v
        end
      else c :: squeezeBy p v s'
  end.

(** The text without the hyphens it starts with, and without those it
    ends with. *)
Fixpoint lstrip (s : text) : text :=
  match s with
  | c :: s' => if Ascii.eqb "-"%char c then lstrip s' else s
  | [] => []
  end.

Fixpoint rstrip (s : text) : text :=
  match s with
  | [] => []
  | c :: s' =>
      if forallb (Ascii.eqb "-"%char) (c :: s') then [] else c :: rstrip s'
  end.

(** A code unit of the class [[a-z0-9._-]]. *)
Definition nameChar (c : ascii) : bool :=
  accepts false (OneOf lowerNameItems) c.

(** What [suggestValidFileName] aims at: only lower-case letters, digits,
    dots, hyphens and underscores, no two hyphens and no two dots in a
    row, no hyphen at either end. *)
Definition tidy (t : text) : bool :=
  forallb nameChar t
  && negb (includes (txt "--") t) && negb (includes (txt "..") t)
  && negb (startsWith (txt "-") t) && negb (endsWith (txt "-") t).

(** Induction over a tree: a property that holds of a directory as soon
    as it holds of what its entries name holds everywhere. *)
Fixpoint node_tree_ind (P : node -> Prop) (Hfile : P FileNode)
         (Hother : P OtherNode)
         (Hdir : forall entries,
             Forall (fun e : text * node => P (snd e)) entries ->
             P (DirNode entries))
         (n : node) {struct n} : P n :=
  match n with
  | FileNode => Hfile
  | OtherNode => Hother
  | DirNode entries =>
      Hdir entries
           ((fix go (es : list (text * node))
               : Forall (fun e : text * node => P (snd e)) es :=
               match es with
               | [] => Forall_nil _
               | (nm, n') :: es' =>
                   Forall_cons (nm, n')
                               (node_tree_ind P Hfile Hother Hdir n')
                               (go es')
               end) entries)
  end.

(** The walk passes over the entry: an excluded directory or an excluded
    file. *)
Definition skipped (o : WalkOptions) (entryName : text) (entry : node) : bool :=
  isDirectory entry && arrayIncludes entryName (excludeDirs o)
  || isFile entry && arrayIncludes entryName (excludeFiles o).

(** The entries the walk comes to: those of the directory that it does
    not pass over and, when the walk is recursive, those it comes to in
    the directories among them. *)
Inductive Reached (o : WalkOptions)
  : list (text * node) -> text -> node -> Prop :=
| ReachedHere entries entryName entry :
    In (entryName, entry) entries -> skipped o entryName entry = false ->
    Reached o entries entryName entry
| ReachedBelow entries dirName sub entryName entry :
    In (dirName, DirNode sub) entries ->
    skipped o dirName (DirNode sub) = false -> recursive o = true ->
    Reached o sub entryName entry ->
    Reached o entries entryName entry.

(** The records the walk adds for a directory. *)
Definition walkAdds (o : WalkOptions) (entries : list (text * node))
           (extra : list InvalidName) : Prop :=
  (forall r, In r extra ->
             isValidFileName (name r) (allowUppercase o) = false /\
             reason r = getInvalidReason (name r) (allowUppercase o) /\
             exists entry, Reached o entries (name r) entry) /\
  (forall entryName entry,
      Reached o entries entryName entry ->
      isValidFileName entryName (allowUppercase o) = false ->
      exists r, In r extra /\ name r = entryName).

(** Every request settles, whenever it is made and whatever its URL. *)
Definition everySettles (network : nat -> client -> text -> fetchOutcome)
  : Prop :=
  forall n c u, settles (network n c u) = true.

(** What is at the path is nothing, or a regular file that the process
    may read and write. *)
Definition processable (d : Disk) (filePath : text) : bool :=
  match lookup d filePath with
  | None => true
  | Some (RegularFile _ readable writable) => readable && writable
  | Some Directory => false
  end.





(** * Scenarios *)

(** The scenario of the specification: the first of two URLs answers 500,
    the second 200. *)
Definition scenarioNetwork (n : nat) (_ : client) (_ : text) : fetchOutcome :=
  match n with
  | O => Response 500 []
  | _ => Response 200 [[Byte.x61]]
  end.

Definition scenarioDigest (_ : algorithm) (_ : bytes) : text := txt "XXXX".



(** The page of the module's own test: local resources only. *)
Definition localOnlyHTML : text :=
  txt "<!DOCTYPE html><html><head>" ++
  txt "<link rel=" ++ dq :: txt "stylesheet" ++ dq :: txt " href=" ++
  dq :: txt "css/local.css" ++ dq :: txt ">" ++
  txt "<script src=" ++ dq :: txt "js/local.js" ++ dq :: txt "></script>" ++
  txt "</head><body><h1>Test</h1></body></html>".

(** A script tag whose URL has its scheme in capitals. *)
Definition capitalSchemeHTML : text :=
  txt "<script src=" ++ dq :: txt "HTTPS://cdn.example.com/a.js" ++
  dq :: txt "></script>".

(** A preload link whose URL goes through a directory named stylesheets. *)
Definition preloadHTML : text :=
  txt "<link rel=" ++ dq :: txt "preload" ++ dq :: txt " href=" ++
  dq :: txt "https://cdn.example.com/stylesheets/font.woff2" ++ dq ::
  txt ">".

(** [ name=QvalueQ], an attribute with its leading space. *)
Definition attribute (name value : string) : text :=
  txt " " ++ txt name ++ txt "=" ++ dq :: txt value ++ [dq].

Definition exampleUrl : text := txt "https://cdn.example.com/a.js".
Definition exampleHash : text := txt "sha384-XXXX".

(** The hash object of the specification's scenario. *)
Definition exampleHashes : list (text * hashValue) :=
  [(exampleUrl, Some exampleHash)].

(** [<script src=Qjs/local.jsQ></script>] *)
Definition localScript : text :=
  txt "<script" ++ attribute "src" "js/local.js" ++ txt "></script>".

(** The page of the specification's scenario: an external script and a
    local one. *)
Definition exampleHTML : text :=
  txt "<script" ++ attribute "src" "https://cdn.example.com/a.js" ++
  txt "></script>" ++ localScript.

(** The same page after one run of the rewriter. *)
Definition exampleHTMLOnce : text :=
  txt "<script" ++ attribute "src" "https://cdn.example.com/a.js" ++
  attribute "integrity" "sha384-XXXX" ++
  attribute "crossorigin" "anonymous" ++
  txt "></script>" ++ localScript.

(** What a second run makes of it. *)
Definition exampleHTMLTwice : text :=
  txt "<script" ++ attribute "src" "https://cdn.example.com/a.js" ++
  attribute "integrity" "sha384-XXXX" ++
  attribute "crossorigin" "anonymous" ++
  attribute "integrity" "sha384-XXXX" ++
  attribute "crossorigin" "anonymous" ++
  txt "></script>" ++ localScript.

(** A script tag that already carries an integrity attribute, after its
    source. *)
Definition pinnedHTML : text :=
  txt "<script" ++ attribute "src" "https://cdn.example.com/a.js" ++
  attribute "integrity" "sha384-OLD" ++ txt "></script>".

Definition pinnedHTMLRewritten : text :=
  txt "<script" ++ attribute "src" "https://cdn.example.com/a.js" ++
  attribute "integrity" "sha384-XXXX" ++
  attribute "crossorigin" "anonymous" ++
  attribute "integrity" "sha384-OLD" ++ txt "></script>".

(** The same tag with the integrity attribute before the source. *)
Definition pinnedFirstHTML : text :=
  txt "<script" ++ attribute "integrity" "sha384-OLD" ++
  attribute "src" "https://cdn.example.com/a.js" ++ txt "></script>".

(** The number of places at which [w] occurs in [s]. *)
Fixpoint occurrences (w s : text) : nat :=
  (if startsWith w s then 1 else 0) +
  match s with
  | [] => 0
  | _ :: s' => occurrences w s'
  end.

(** Two scripts whose URLs differ by the case of one letter. *)
Definition twoCasesHTML : text :=
  txt "<script" ++ attribute "src" "https://cdn.example.com/a.js" ++
  txt "></script>" ++
  txt "<script" ++ attribute "src" "https://cdn.example.com/A.js" ++
  txt "></script>".

(** The fetch of the first failed, the fetch of the second succeeded. *)
Definition twoCasesHashes : list (text * hashValue) :=
  [(txt "https://cdn.example.com/a.js", None);
   (txt "https://cdn.example.com/A.js", Some exampleHash)].

Definition twoCasesHTMLRewritten : text :=
  txt "<script" ++ attribute "src" "https://cdn.example.com/a.js" ++
  attribute "integrity" "sha384-XXXX" ++
  attribute "crossorigin" "anonymous" ++
  txt "></script>" ++
  txt "<script" ++ attribute "src" "https://cdn.example.com/A.js" ++
  attribute "integrity" "sha384-XXXX" ++
  attribute "crossorigin" "anonymous" ++
  txt "></script>".





(** * Further scenarios *)

(** A server that answers every request with an error status. *)
Definition failingNetwork (_ : nat) (_ : client) (_ : text) : fetchOutcome :=
  Response 500 [].

(** A server that answers every request with the same one-byte body. *)
Definition servingNetwork (_ : nat) (_ : client) (_ : text) : fetchOutcome :=
  Response 200 [[Byte.x61]].




(** A directory with the example page, one more file, a file that may
    not be written and a subdirectory. *)
Definition exampleDisk : Disk :=
  [(txt "index.html", RegularFile exampleHTML true true);
   (txt "about.html", RegularFile localOnlyHTML true true);
   (txt "locked.html", RegularFile exampleHTML true false);
   (txt "pages", Directory)].

Definition exampleMachine : Machine := mkMachine exampleDisk [] [].

(** [process.argv] of [node build/addSRIHashes.js index.html] and of the
    same with the dry-run flag. *)
Definition exampleArgv : list text :=
  [txt "node"; txt "build/addSRIHashes.js"; txt "index.html"].

Definition exampleDryArgv : list text :=
  [txt "node"; txt "build/addSRIHashes.js"; txt "-d"; txt "index.html"].

(** A page with an external script, an external stylesheet and a local
    script, as text and tags. *)
Definition examplePage : list piece :=
  [Text (txt "<html><head>");
   Tag ScriptTag (txt "<script")
       (attribute "src" "https://cdn.example.com/a.js" ++ txt " defer");
   Text (txt "</script>");
   Tag LinkTag (txt "<LINK")
       (attribute "rel" "stylesheet"
        ++ attribute "href" "https://cdn.example.com/b.css");
   Tag ScriptTag (txt "<script") (attribute "src" "js/local.js");
   Text (txt "</script></head>")].

(** The same page with the two attributes in its first tag. *)
Definition examplePageRewritten : list piece :=
  [Text (txt "<html><head>");
   Tag ScriptTag (txt "<script")
       (attribute "src" "https://cdn.example.com/a.js"
        ++ sriAttributes exampleHash ++ txt " defer");
   Text (txt "</script>");
   Tag LinkTag (txt "<LINK")
       (attribute "rel" "stylesheet"
        ++ attribute "href" "https://cdn.example.com/b.css");
   Tag ScriptTag (txt "<script") (attribute "src" "js/local.js");
   Text (txt "</script></head>")].

(** The fetch of the script succeeded, the fetch of the stylesheet
    failed. *)
Definition examplePageHashes : list (text * hashValue) :=
  [(exampleUrl, Some exampleHash);
   (txt "https://cdn.example.com/b.css", None)].


(** * Facts about the matcher and the loops *)

Section EngineFacts.

Variable ic : bool.

Lemma step_in a s m rest :
  In (m, rest) (step ic a s) ->
  exists c, m = [c] /\ s = c :: rest /\ accepts ic a c = true.
Proof.
  unfold step. destruct s as [|c s']; [intros []|].
  destruct (accepts ic a c) eqn:E; [|intros []].
  intros [H|[]]. inversion H; subst. eauto.
Qed.

Lemma star_in a s :
  forall m rest, In (m, rest) (star ic a s) ->
                 s = m ++ rest /\ forallb (accepts ic a) m = true.
Proof.
  induction s as [|c s' IH]; simpl; intros m rest H.
  - destruct H as [H|[]]. inversion H; subst. auto.
  - destruct (accepts ic a c) eqn:E.
    + apply in_app_or in H. destruct H as [H|[H|[]]].
      * apply in_map_iff in H. destruct H as [[m' r'] [Heq Hin]].
        simpl in Heq. inversion Heq; subst.
        destruct (IH _ _ Hin) as [-> Hall]. simpl. rewrite E. auto.
      * inversion H; subst. auto.
    + destruct H as [H|[]]. inversion H; subst. auto.
Qed.

Lemma run_seq_in r1 r2 s m caps rest :
  In (m, caps, rest) (run ic (Seq r1 r2) s) <->
  exists m1 c1 rest1 m2 c2,
    In (m1, c1, rest1) (run ic r1 s) /\
    In (m2, c2, rest) (run ic r2 rest1) /\
    m = m1 ++ m2 /\ caps = c1 ++ c2.
Proof.
  simpl. rewrite in_flat_map. split.
  - intros [[[m1 c1] rest1] [H1 H2]]. apply in_map_iff in H2.
    destruct H2 as [[[m2 c2] rest2] [Heq H2]]. inversion Heq; subst.
    exists m1, c1, rest1, m2, c2. auto.
  - intros (m1 & c1 & rest1 & m2 & c2 & H1 & H2 & -> & ->).
    exists (m1, c1, rest1). split; [assumption|].
    apply in_map_iff. exists (m2, c2, rest). auto.
Qed.

(** Every way listed by [run] consumes a prefix of the text that the
    expression describes. *)
Lemma run_sound r :
  forall s m caps rest,
    In (m, caps, rest) (run ic r s) ->
    s = m ++ rest /\ Matches ic r m caps.
Proof.
  induction r as [|a|a|a|a|r1 IH1 r2 IH2|r IH]; intros s m caps rest H.
  - simpl in H. destruct H as [H|[]]. inversion H; subst.
    split; [reflexivity|constructor].
  - simpl in H. apply in_map_iff in H. destruct H as [[m' r'] [Heq H]].
    inversion Heq; subst. apply step_in in H.
    destruct H as (c & -> & -> & Hc). split; [reflexivity|now constructor].
  - simpl in H. apply in_map_iff in H. destruct H as [[m' r'] [Heq H]].
    inversion Heq; subst. apply in_app_or in H. destruct H as [H|[H|[]]].
    + apply step_in in H. destruct H as (c & -> & -> & Hc).
      split; [reflexivity|now constructor].
    + inversion H; subst. split; [reflexivity|constructor].
  - simpl in H. apply in_map_iff in H. destruct H as [[m' r'] [Heq H]].
    inversion Heq; subst. apply star_in in H. destruct H as [-> Hall].
    split; [reflexivity|now constructor].
  - simpl in H. destruct s as [|c s']; [destruct H|].
    destruct (accepts ic a c) eqn:E; [|destruct H].
    apply in_map_iff in H. destruct H as [[m' r'] [Heq H]].
    inversion Heq; subst. apply star_in in H. destruct H as [-> Hall].
    split; [reflexivity|now constructor].
  - apply run_seq_in in H.
    destruct H as (m1 & c1 & rest1 & m2 & c2 & H1 & H2 & -> & ->).
    apply IH1 in H1. destruct H1 as [-> M1].
    apply IH2 in H2. destruct H2 as [-> M2].
    split; [now rewrite app_assoc|now constructor].
  - simpl in H. apply in_map_iff in H.
    destruct H as [[[m' c'] r'] [Heq H]]. inversion Heq; subst.
    apply IH in H. destruct H as [-> M]. split; [reflexivity|now constructor].
Qed.

(** [exec] reports the first way of matching at the leftmost position
    that has one. *)
Lemma exec_some r :
  forall s h,
    exec ic r s = Some h ->
    s = before h ++ matched h ++ after h /\
    exists others,
      run ic r (matched h ++ after h)
      = (matched h, groups h, after h) :: others.
Proof.
  induction s as [|c s' IH]; intros h H; simpl in H.
  - destruct (run ic r []) as [|[[m caps] rest] others] eqn:E;
      [discriminate|].
    inversion H; subst; simpl.
    assert (Hin : In (m, caps, rest) (run ic r [])) by (rewrite E; now left).
    apply run_sound in Hin. destruct Hin as [Hs _].
    split; [assumption|]. rewrite <- Hs. eauto.
  - destruct (run ic r (c :: s')) as [|[[m caps] rest] others] eqn:E.
    + destruct (exec ic r s') as [h'|] eqn:E'; [|discriminate].
      inversion H; subst; simpl. destruct (IH _ eq_refl) as [Hs Hrun].
      split; [now rewrite Hs at 1|assumption].
    + inversion H; subst; simpl.
      assert (Hin : In (m, caps, rest) (run ic r (c :: s')))
        by (rewrite E; now left).
      apply run_sound in Hin. destruct Hin as [Hs _].
      split; [assumption|]. rewrite <- Hs. eauto.
Qed.

Lemma exec_matches r s h :
  exec ic r s = Some h -> Matches ic r (matched h) (groups h).
Proof.
  intros H. apply exec_some in H. destruct H as [_ [others Hrun]].
  assert (Hin : In (matched h, groups h, after h)
                   (run ic r (matched h ++ after h)))
    by (rewrite Hrun; now left).
  now apply run_sound in Hin.
Qed.

(** [exec] fails exactly when the matcher fails at every position. *)
Lemma exec_none r :
  forall s,
    exec ic r s = None <->
    (forall pre suf, s = pre ++ suf -> run ic r suf = []).
Proof.
  induction s as [|c s' IH]; simpl.
  - destruct (run ic r []) as [|[[m caps] rest] others] eqn:E.
    + split; [|reflexivity]. intros _ pre suf Hs.
      symmetry in Hs. apply app_eq_nil in Hs. destruct Hs as [_ ->].
      assumption.
    + split; [discriminate|]. intros H.
      specialize (H [] [] eq_refl). congruence.
  - destruct (run ic r (c :: s')) as [|[[m caps] rest] others] eqn:E.
    + destruct (exec ic r s') as [h'|] eqn:E'.
      * split; [discriminate|]. intros H.
        assert (Hn : Some h' = None); [|discriminate].
        apply IH. intros pre suf Hs. apply (H (c :: pre) suf).
        simpl. now rewrite Hs.
      * split; [|reflexivity]. intros _ pre suf Hs.
        destruct pre as [|c' pre']; simpl in Hs.
        -- now subst.
        -- inversion Hs; subst.
           destruct IH as [IH _]. now apply (IH eq_refl pre' suf).
    + split; [discriminate|]. intros H.
      specialize (H [] (c :: s') eq_refl). congruence.
Qed.

End EngineFacts.

Section LoopFacts.

Variable ic : bool.
Variable r : regex.

Lemma exec_length s h :
  exec ic r s = Some h ->
  List.length s
  = List.length (before h) + List.length (matched h) + List.length (after h).
Proof.
  intros H. apply exec_some in H. destruct H as [Hs _].
  rewrite Hs at 1. rewrite !length_app. lia.
Qed.

(** The rounds beyond [length s + 1] are never used. *)
Lemma replaceFuel_enough f :
  forall n m s,
    List.length s < n -> List.length s < m ->
    replaceFuel ic n r f s = replaceFuel ic m r f s.
Proof.
  induction n as [|n IH]; intros m s Hn Hm; [lia|].
  destruct m as [|m]; [lia|]. simpl.
  destruct (exec ic r s) as [h|] eqn:E; [|reflexivity].
  pose proof (exec_length _ E) as Hlen.
  destruct (matched h) as [|c0 m0] eqn:Em.
  - destruct (after h) as [|c rest'] eqn:Ea; [reflexivity|].
    simpl in Hlen. do 3 f_equal. apply IH; lia.
  - simpl in Hlen. do 2 f_equal. apply IH; lia.
Qed.

(** The loop of [replace], one round unfolded. *)
Lemma replace_eq f s :
  replace ic r f s =
  match exec ic r s with
  | None => s
  | Some h =>
      before h ++ f (matched h) (groups h) ++
      match matched h, after h with
      | [], [] => []
      | [], c :: rest' => c :: replace ic r f rest'
      | _ :: _, rest => replace ic r f rest
      end
  end.
Proof.
  unfold replace at 1. simpl.
  destruct (exec ic r s) as [h|] eqn:E; [|reflexivity].
  pose proof (exec_length _ E) as Hlen.
  destruct (matched h) as [|c0 m0] eqn:Em.
  - destruct (after h) as [|c rest'] eqn:Ea; [reflexivity|].
    simpl in Hlen. do 3 f_equal. unfold replace.
    apply replaceFuel_enough; lia.
  - simpl in Hlen. do 2 f_equal. unfold replace.
    apply replaceFuel_enough; lia.
Qed.


Hypothesis r_never_empty : NeverEmpty ic r.

Lemma exec_advances s h :
  exec ic r s = Some h -> List.length (after h) < List.length s.
Proof.
  intros H. pose proof (exec_length _ H) as Hlen.
  apply exec_matches in H.
  destruct (matched h) as [|c m] eqn:Em.
  - exfalso. exact (r_never_empty H).
  - simpl in Hlen. lia.
Qed.

Lemma execLoopFuel_enough (A : Type) (body : hit -> A -> A) :
  forall n m s acc,
    List.length s < n -> List.length s < m ->
    execLoopFuel ic n r body s acc = execLoopFuel ic m r body s acc.
Proof.
  induction n as [|n IH]; intros m s acc Hn Hm; [lia|].
  destruct m as [|m]; [lia|]. simpl.
  destruct (exec ic r s) as [h|] eqn:E; [|reflexivity].
  pose proof (exec_advances _ E) as Hlt. apply IH; lia.
Qed.

(** The [exec] loop, one round unfolded. *)
Lemma execLoop_eq (A : Type) (body : hit -> A -> A) s acc :
  execLoop ic r body s acc =
  match exec ic r s with
  | None => acc
  | Some h => execLoop ic r body (after h) (body h acc)
  end.
Proof.
  unfold execLoop at 1. simpl.
  destruct (exec ic r s) as [h|] eqn:E; [|reflexivity].
  pose proof (exec_advances _ E) as Hlt. unfold execLoop.
  apply execLoopFuel_enough; lia.
Qed.

End LoopFacts.

Lemma execLoopFuel_hits (A : Type) ic r (body : hit -> A -> A) :
  forall n s acc,
    execLoopFuel ic n r body s acc
    = fold_left (fun a h => body h a) (hitsFuel ic n r s) acc.
Proof.
  induction n as [|n IH]; intros s acc; simpl; [reflexivity|].
  destruct (exec ic r s) as [h|]; simpl; [apply IH|reflexivity].
Qed.

Lemma execLoop_hits (A : Type) ic r (body : hit -> A -> A) s acc :
  execLoop ic r body s acc = fold_left (fun a h => body h a) (hits ic r s) acc.
Proof. apply execLoopFuel_hits. Qed.

(** Every match of the loop is a match of the expression somewhere in the
    text. *)
Lemma hitsFuel_in ic r :
  forall n s h,
    In h (hitsFuel ic n r s) ->
    Matches ic r (matched h) (groups h) /\
    exists pre post, s = pre ++ matched h ++ post.
Proof.
  induction n as [|n IH]; intros s h H; simpl in H; [destruct H|].
  destruct (exec ic r s) as [h0|] eqn:E; [|destruct H].
  destruct H as [<-|H].
  - split; [now apply exec_matches in E|].
    apply exec_some in E. destruct E as [Hs _]. eauto.
  - apply IH in H. destruct H as [HM (pre & post & Hs)].
    split; [assumption|]. apply exec_some in E. destruct E as [Hs0 _].
    exists (before h0 ++ matched h0 ++ pre), post.
    rewrite Hs0, Hs. now rewrite <- !app_assoc.
Qed.

(** The matches lie one after the other in the text. *)
Lemma hitsFuel_partition ic r :
  forall n s,
    exists tail,
      s = flat_map (fun h => before h ++ matched h) (hitsFuel ic n r s) ++ tail.
Proof.
  induction n as [|n IH]; intros s; simpl; [now exists s|].
  destruct (exec ic r s) as [h|] eqn:E; simpl; [|now exists s].
  destruct (IH (after h)) as [tail Ht]. exists tail.
  apply exec_some in E. destruct E as [Hs _].
  rewrite <- !app_assoc, <- Ht. exact Hs.
Qed.

Lemma text_eqb_eq a b : text_eqb a b = true <-> a = b.
Proof.
  unfold text_eqb. destruct (list_eq_dec ascii_dec a b); split;
    congruence.
Qed.

Lemma text_eqb_refl a : text_eqb a a = true.
Proof. now apply text_eqb_eq. Qed.

Lemma arrayIncludes_In x l : arrayIncludes x l = true <-> In x l.
Proof.
  unfold arrayIncludes. rewrite existsb_exists. split.
  - intros [y [Hin Heq]]. apply text_eqb_eq in Heq. now subst.
  - intros H. exists x. split; [assumption|apply text_eqb_refl].
Qed.

Lemma pushNew_NoDup acc url : NoDup acc -> NoDup (pushNew acc url).
Proof.
  intros Hnd. unfold pushNew.
  destruct (arrayIncludes url acc) eqn:E; simpl; [assumption|].
  apply NoDup_app; [assumption|repeat constructor; intros []|].
  intros x Hx [<-|[]]. apply arrayIncludes_In in Hx. congruence.
Qed.

Lemma fold_pushNew_NoDup l :
  forall acc, NoDup acc -> NoDup (fold_left pushNew l acc).
Proof.
  induction l as [|x l IH]; intros acc Hnd; simpl; [assumption|].
  apply IH. now apply pushNew_NoDup.
Qed.

Lemma filter_keepFirst (p : text -> bool) l :
  filter p (keepFirst l) = keepFirst (filter p l).
Proof.
  induction l as [|x l IH]; simpl; [reflexivity|].
  destruct (p x) eqn:Px; simpl.
  - f_equal. rewrite <- IH. clear IH.
    induction (keepFirst l) as [|y k IHk]; simpl; [reflexivity|].
    destruct (text_eqb x y) eqn:E1, (p y) eqn:E2; simpl;
      rewrite ?E1, ?E2; simpl; rewrite ?IHk; reflexivity.
  - rewrite <- IH. clear IH.
    induction (keepFirst l) as [|y k IHk]; simpl; [reflexivity|].
    destruct (text_eqb x y) eqn:Exy; simpl.
    + apply text_eqb_eq in Exy. subst y. rewrite Px. exact IHk.
    + destruct (p y) eqn:E2; simpl; rewrite ?Exy; simpl; rewrite IHk;
        reflexivity.
Qed.

Lemma filter_twice (A : Type) (p q : A -> bool) l :
  filter p (filter q l) = filter (fun x => q x && p x) l.
Proof.
  induction l as [|x l IH]; simpl; [reflexivity|].
  destruct (q x); simpl; [destruct (p x)|]; rewrite IH; reflexivity.
Qed.

(** The push-if-absent loop keeps, after what it already holds, the first
    occurrences of the new elements. *)
Lemma fold_pushNew_keepFirst l :
  forall acc,
    fold_left pushNew l acc
    = acc ++ keepFirst (filter (fun y => negb (arrayIncludes y acc)) l).
Proof.
  induction l as [|x l IH]; intros acc; simpl; [now rewrite app_nil_r|].
  rewrite IH. unfold pushNew.
  destruct (arrayIncludes x acc) eqn:E; simpl; [reflexivity|].
  rewrite <- app_assoc. simpl. do 2 f_equal.
  rewrite filter_keepFirst. f_equal.
  rewrite filter_twice. apply filter_ext. intros y.
  unfold arrayIncludes. rewrite existsb_app. simpl.
  rewrite orb_false_r, negb_orb. f_equal. f_equal.
  assert (Hsym : text_eqb y x = text_eqb x y).
  { destruct (text_eqb y x) eqn:E1, (text_eqb x y) eqn:E2; try reflexivity.
    - apply text_eqb_eq in E1. subst. now rewrite text_eqb_refl in E2.
    - apply text_eqb_eq in E2. subst. now rewrite text_eqb_refl in E1. }
  exact Hsym.
Qed.

Lemma Matches_lits ic w :
  forall m caps,
    Matches ic (lits w) m caps -> caps = [] /\ sameText ic w m = true.
Proof.
  induction w as [|a w IH]; intros m caps H; simpl in H.
  - inversion H; subst. auto.
  - inversion H as [| | | | | |r1 r2 m1 c1 m2 c2 H1 H2|]; subst.
    inversion H1; subst. apply IH in H2. destruct H2 as [-> Hs].
    simpl. split; [reflexivity|]. now apply andb_true_iff.
Qed.

Lemma sameText_length ic w :
  forall m, sameText ic w m = true -> List.length m = List.length w.
Proof.
  induction w as [|a w IH]; intros [|c m] H; simpl in *;
    try discriminate; [reflexivity|].
  apply andb_true_iff in H. destruct H as [_ H]. f_equal. now apply IH.
Qed.

Lemma startsWith_app w s t : startsWith w s = true -> startsWith w (s ++ t) = true.
Proof.
  revert s. induction w as [|a w IH]; intros [|c s] H; simpl in *;
    try reflexivity; try discriminate.
  apply andb_true_iff in H. destruct H as [-> H]. simpl. now apply IH.
Qed.

Lemma sameText_startsWithCI w :
  forall m t, sameText true w m = true -> startsWithCI w (m ++ t) = true.
Proof.
  unfold startsWithCI.
  induction w as [|a w IH]; intros [|c m] t H; simpl in *;
    try reflexivity; try discriminate.
  apply andb_true_iff in H. destruct H as [-> H]. simpl. now apply IH.
Qed.

Section Inversions.
Variable ic : bool.

Lemma Matches_seq_inv r1 r2 m caps :
  Matches ic (Seq r1 r2) m caps ->
  exists m1 c1 m2 c2,
    m = m1 ++ m2 /\ caps = c1 ++ c2 /\
    Matches ic r1 m1 c1 /\ Matches ic r2 m2 c2.
Proof. intros H. inversion H; subst. eauto 10. Qed.

Lemma Matches_group_inv r m caps :
  Matches ic (Group r) m caps ->
  exists c, caps = m :: c /\ Matches ic r m c.
Proof. intros H. inversion H; subst. eauto. Qed.

Lemma Matches_one_inv a m caps :
  Matches ic (One a) m caps ->
  caps = [] /\ exists c, m = [c] /\ accepts ic a c = true.
Proof. intros H. inversion H; subst. eauto. Qed.

Lemma Matches_opt_inv a m caps :
  Matches ic (Opt a) m caps ->
  caps = [] /\ (m = [] \/ exists c, m = [c] /\ accepts ic a c = true).
Proof. intros H. inversion H; subst; eauto. Qed.

Lemma Matches_star_inv a m caps :
  Matches ic (Star a) m caps ->
  caps = [] /\ forallb (accepts ic a) m = true.
Proof. intros H. inversion H; subst. auto. Qed.

Lemma Matches_plus_inv a m caps :
  Matches ic (Plus a) m caps ->
  caps = [] /\ m <> [] /\ forallb (accepts ic a) m = true.
Proof.
  intros H. inversion H; subst. repeat split; [discriminate|].
  simpl. now apply andb_true_iff.
Qed.

End Inversions.

(** A pattern character that is not a letter matches only itself. *)
Lemma accepts_gt c : accepts true (Lit ">"%char) c = true -> c = ">"%char.
Proof.
  destruct c as [[] [] [] [] [] [] [] []]; vm_compute; intros H;
    try discriminate; reflexivity.
Qed.

Lemma forallb_app_true (A : Type) (p : A -> bool) l1 l2 :
  forallb p l1 = true -> forallb p l2 = true -> forallb p (l1 ++ l2) = true.
Proof. intros H1 H2. rewrite forallb_app, H1, H2. reflexivity. Qed.

Lemma sameText_app ic w1 w2 :
  forall m1 m2,
    sameText ic w1 m1 = true -> sameText ic w2 m2 = true ->
    sameText ic (w1 ++ w2) (m1 ++ m2) = true.
Proof.
  induction w1 as [|a w1 IH]; intros [|c m1] m2 H1 H2; simpl in *;
    try discriminate; [assumption|].
  apply andb_true_iff in H1. destruct H1 as [-> H1]. simpl. now apply IH.
Qed.

(** The shape of a match of a locator expression: the tag name, a run
    without [>], the attribute name, the captured URL between optional
    quotes, and the rest of the tag up to the first [>]. *)
Lemma locatorRegex_shape tag attr m caps :
  Matches true (locatorRegex tag attr) m caps ->
  exists t a n q1 url q2 b,
    m = t ++ a ++ n ++ q1 ++ url ++ q2 ++ b ++ [">"%char] /\
    caps = [url] /\
    sameText true (txt tag) t = true /\
    forallb (accepts true notGt) a = true /\ a <> [] /\
    sameText true (txt attr) n = true /\
    absoluteCI url = true /\
    forallb (accepts true notGt) b = true.
Proof.
  unfold locatorRegex. intros H.
  apply Matches_seq_inv in H. destruct H as (t & ct & m1 & c1 & -> & -> & Ht & H).
  apply Matches_seq_inv in H. destruct H as (a & ca & m2 & c2 & -> & -> & Ha & H).
  apply Matches_seq_inv in H. destruct H as (n & cn & m3 & c3 & -> & -> & Hn & H).
  apply Matches_seq_inv in H. destruct H as (q1 & cq1 & m4 & c4 & -> & -> & Hq1 & H).
  apply Matches_seq_inv in H. destruct H as (g & cg & m5 & c5 & -> & -> & Hg & H).
  apply Matches_seq_inv in H. destruct H as (q2 & cq2 & m6 & c6 & -> & -> & Hq2 & H).
  apply Matches_seq_inv in H. destruct H as (b & cb & m7 & c7 & -> & -> & Hb & H).
  apply Matches_lits in Ht. destruct Ht as [-> Ht].
  apply Matches_lits in Hn. destruct Hn as [-> Hn].
  apply Matches_plus_inv in Ha. destruct Ha as (-> & Hane & Ha).
  apply Matches_star_inv in Hb. destruct Hb as (-> & Hb).
  apply Matches_opt_inv in Hq1. destruct Hq1 as (-> & _).
  apply Matches_opt_inv in Hq2. destruct Hq2 as (-> & _).
  apply Matches_one_inv in H. destruct H as (-> & c & -> & Hc).
  apply accepts_gt in Hc. subst c.
  apply Matches_group_inv in Hg. destruct Hg as (cu & -> & Hg).
  apply Matches_seq_inv in Hg. destruct Hg as (u1 & cu1 & w1 & d1 & -> & -> & Hu1 & Hg).
  apply Matches_seq_inv in Hg. destruct Hg as (u2 & cu2 & w2 & d2 & -> & -> & Hu2 & Hg).
  apply Matches_seq_inv in Hg. destruct Hg as (u3 & cu3 & w3 & d3 & -> & -> & Hu3 & Hg).
  apply Matches_lits in Hu1. destruct Hu1 as [-> Hu1].
  apply Matches_lits in Hu3. destruct Hu3 as [-> Hu3].
  apply Matches_plus_inv in Hg. destruct Hg as (-> & _ & Hg).
  apply Matches_opt_inv in Hu2. destruct Hu2 as (-> & Hu2).
  exists t, a, n, q1, (u1 ++ u2 ++ u3 ++ w3), q2, b.
  simpl. repeat split; try assumption.
  unfold absoluteCI. apply orb_true_iff.
  destruct Hu2 as [->|(c & -> & Hc)].
  - left. simpl app. rewrite app_assoc. apply sameText_startsWithCI.
    now apply (sameText_app true (txt "http") (txt "://")).
  - right. rewrite !app_assoc. apply sameText_startsWithCI.
    apply (sameText_app true (txt "http" ++ txt "s") (txt "://"));
      [|assumption].
    apply (sameText_app true (txt "http") (txt "s")); [assumption|].
    simpl. simpl in Hc. now rewrite Hc.
Qed.

(** ** Objects used as maps *)

Lemma text_eqb_sym a b : text_eqb a b = text_eqb b a.
Proof.
  destruct (text_eqb a b) eqn:E1, (text_eqb b a) eqn:E2; try reflexivity.
  - apply text_eqb_eq in E1. subst. now rewrite text_eqb_refl in E2.
  - apply text_eqb_eq in E2. subst. now rewrite text_eqb_refl in E1.
Qed.

Lemma text_eqb_neq a b : a <> b -> text_eqb a b = false.
Proof.
  intros Hne. destruct (text_eqb a b) eqn:E; [|reflexivity].
  apply text_eqb_eq in E. congruence.
Qed.

Lemma getProperty_keys es k :
  getProperty es k = None <-> ~ In k (keys es).
Proof.
  unfold keys. induction es as [|[k0 v0] es IH]; simpl; [tauto|].
  destruct (text_eqb k0 k) eqn:E.
  - apply text_eqb_eq in E. subst. split; [discriminate|tauto].
  - rewrite IH. split; [|tauto]. intros H [H'|H']; [|tauto].
    subst. now rewrite text_eqb_refl in E.
Qed.

Lemma getProperty_In es k v : getProperty es k = Some v -> In (k, v) es.
Proof.
  induction es as [|[k0 v0] es IH]; simpl; [discriminate|].
  destruct (text_eqb k0 k) eqn:E.
  - apply text_eqb_eq in E. subst. intros H. inversion H. now left.
  - auto.
Qed.

Lemma getProperty_update es k v k' :
  getProperty (update es k v) k'
  = match getProperty es k' with
    | Some v' => Some (if text_eqb k k' then v else v')
    | None => None
    end.
Proof.
  induction es as [|[k0 v0] es IH]; simpl; [reflexivity|].
  destruct (text_eqb k0 k) eqn:E; simpl.
  - apply text_eqb_eq in E. subst k0.
    destruct (text_eqb k k') eqn:E'; [reflexivity|].
    destruct (getProperty es k'); reflexivity.
  - destruct (text_eqb k0 k') eqn:E'; [|exact IH].
    apply text_eqb_eq in E'. subst k0. now rewrite text_eqb_sym, E.
Qed.

Lemma keys_update es k v : keys (update es k v) = keys es.
Proof.
  unfold keys. induction es as [|[k0 v0] es IH]; simpl; [reflexivity|].
  destruct (text_eqb k0 k) eqn:E; simpl; [reflexivity|now rewrite IH].
Qed.

Lemma update_In es k v k' v' :
  In (k', v') (update es k v) -> v' = v \/ In (k', v') es.
Proof.
  induction es as [|[k0 v0] es IH]; simpl; [tauto|].
  destruct (text_eqb k0 k); simpl.
  - intros [H|H]; [inversion H; now left|tauto].
  - intros [H|H]; [tauto|]. destruct (IH H); tauto.
Qed.

(** A new entry comes somewhere among the others, which keep their
    order. *)
Lemma define_split es k v :
  exists front back,
    es = front ++ back /\ define es k v = front ++ (k, v) :: back.
Proof.
  unfold define. destruct (arrayIndex k) as [n|].
  - induction es as [|[k0 v0] es IH]; simpl.
    + exists [], []. split; reflexivity.
    + destruct (arrayIndex k0) as [m|].
      * destruct (m <? n)%N.
        -- destruct IH as (front & back & -> & ->).
           exists ((k0, v0) :: front), back. split; reflexivity.
        -- exists [], ((k0, v0) :: es). split; reflexivity.
      * exists [], ((k0, v0) :: es). split; reflexivity.
  - exists es, []. split; [now rewrite app_nil_r|reflexivity].
Qed.

Lemma getProperty_app es1 es2 k :
  getProperty (es1 ++ es2) k
  = match getProperty es1 k with
    | Some v => Some v
    | None => getProperty es2 k
    end.
Proof.
  induction es1 as [|[k0 v0] es1 IH]; simpl; [reflexivity|].
  destruct (text_eqb k0 k); [reflexivity|exact IH].
Qed.

Lemma getProperty_define es k v k' :
  getProperty es k = None ->
  getProperty (define es k v) k'
  = if text_eqb k k' then Some v else getProperty es k'.
Proof.
  intros Hnone. destruct (define_split es k v) as (front & back & -> & ->).
  rewrite getProperty_app in Hnone. rewrite !getProperty_app. simpl.
  destruct (text_eqb k k') eqn:E.
  - apply text_eqb_eq in E. subst k'.
    destruct (getProperty front k); [discriminate|reflexivity].
  - reflexivity.
Qed.

Lemma keys_define es k v u :
  In u (keys (define es k v)) <-> u = k \/ In u (keys es).
Proof.
  destruct (define_split es k v) as (front & back & -> & ->).
  unfold keys. rewrite !map_app. cbn [map fst]. rewrite !in_app_iff.
  cbn [In]. split; intros H; intuition auto.
Qed.

Lemma NoDup_define es k v :
  getProperty es k = None -> NoDup (keys es) -> NoDup (keys (define es k v)).
Proof.
  intros Hnone. apply getProperty_keys in Hnone. revert Hnone.
  destruct (define_split es k v) as (front & back & -> & ->).
  unfold keys. rewrite !map_app. simpl. intros Hnone Hnd.
  apply NoDup_Add with (a := k) (l := map fst front ++ map fst back);
    [apply Add_app|]. split; assumption.
Qed.

Lemma define_In es k v k' v' :
  In (k', v') (define es k v) -> v' = v \/ In (k', v') es.
Proof.
  destruct (define_split es k v) as (front & back & -> & ->).
  rewrite !in_app_iff. simpl. intros [H|[H|H]]; [tauto| |tauto].
  inversion H. now left.
Qed.

(** The entry of the key after [obj[key] = value], for a key other than
    [__proto__]; and the entries of the other keys, for any key. *)
Lemma getProperty_set_same obj k v :
  k <> protoKey ->
  getProperty (ownEntries (setProperty obj k v)) k = Some v.
Proof.
  intros Hk. unfold setProperty.
  destruct (getProperty (ownEntries obj) k) eqn:E; simpl.
  - now rewrite getProperty_update, E, text_eqb_refl.
  - rewrite (text_eqb_neq Hk). simpl.
    now rewrite getProperty_define, text_eqb_refl.
Qed.

Lemma getProperty_set_other obj k v k' :
  k' <> k ->
  getProperty (ownEntries (setProperty obj k v)) k'
  = getProperty (ownEntries obj) k'.
Proof.
  intros Hne. unfold setProperty.
  assert (Hb : text_eqb k k' = false) by (apply text_eqb_neq; congruence).
  destruct (getProperty (ownEntries obj) k) eqn:E; simpl.
  - rewrite getProperty_update, Hb.
    now destruct (getProperty (ownEntries obj) k').
  - destruct (text_eqb k protoKey && ordinaryPrototype obj).
    + now destruct v.
    + simpl. now rewrite getProperty_define, Hb.
Qed.

(** An assignment adds no key but its own, and adds its own unless it is
    [__proto__]. *)
Lemma keys_set_incl obj k v u :
  In u (keys (ownEntries (setProperty obj k v))) ->
  u = k \/ In u (keys (ownEntries obj)).
Proof.
  unfold setProperty.
  destruct (getProperty (ownEntries obj) k) eqn:E; simpl.
  - rewrite keys_update. tauto.
  - destruct (text_eqb k protoKey && ordinaryPrototype obj).
    + destruct v; simpl; tauto.
    + simpl. now rewrite keys_define.
Qed.

Lemma keys_set_keeps obj k v u :
  In u (keys (ownEntries obj)) ->
  In u (keys (ownEntries (setProperty obj k v))).
Proof.
  unfold setProperty.
  destruct (getProperty (ownEntries obj) k) eqn:E; simpl.
  - now rewrite keys_update.
  - destruct (text_eqb k protoKey && ordinaryPrototype obj).
    + now destruct v.
    + simpl. rewrite keys_define. tauto.
Qed.

Lemma keys_set_own obj k v :
  k <> protoKey -> In k (keys (ownEntries (setProperty obj k v))).
Proof.
  intros Hk. pose proof (getProperty_set_same obj v Hk) as H.
  apply getProperty_In in H. unfold keys.
  change k with (fst (k, v)). now apply in_map.
Qed.

Lemma NoDup_set obj k v :
  NoDup (keys (ownEntries obj)) ->
  NoDup (keys (ownEntries (setProperty obj k v))).
Proof.
  intros Hnd. unfold setProperty.
  destruct (getProperty (ownEntries obj) k) eqn:E; simpl.
  - now rewrite keys_update.
  - destruct (text_eqb k protoKey && ordinaryPrototype obj).
    + now destruct v.
    + simpl. now apply NoDup_define.
Qed.

Lemma setProperty_values (P : hashValue -> Prop) obj k v :
  P v -> (forall k' v', In (k', v') (ownEntries obj) -> P v') ->
  forall k' v', In (k', v') (ownEntries (setProperty obj k v)) -> P v'.
Proof.
  intros Hv Hall k' v'. unfold setProperty.
  destruct (getProperty (ownEntries obj) k) eqn:E; simpl.
  - intros H. apply update_In in H. destruct H as [->|H]; eauto.
  - destruct (text_eqb k protoKey && ordinaryPrototype obj).
    + destruct v; simpl; eauto.
    + simpl. intros H. apply define_In in H. destruct H as [->|H]; eauto.
Qed.

Lemma fold_pushNew_In l :
  forall acc u, In u (fold_left pushNew l acc) <-> In u acc \/ In u l.
Proof.
  induction l as [|x l IH]; intros acc u; simpl.
  - tauto.
  - rewrite IH. unfold pushNew.
    destruct (arrayIncludes x acc) eqn:E; simpl.
    + apply arrayIncludes_In in E. split; [tauto|].
      intros [H|[<-|H]]; auto.
    + rewrite in_app_iff. simpl. tauto.
Qed.

(** ** The batch *)

Section BatchFacts.

Variable digestBase64 : algorithm -> bytes -> text.
Variable network : nat -> client -> text -> fetchOutcome.

(** One call is traced; what comes of it follows from its outcome alone:
    a promise that stays pending when the request does not settle, and
    otherwise one fulfilled with the recorded hash or rejected. *)
Lemma generateSRIHashFromURL_settles url alg w :
  exists r,
    generateSRIHashFromURL digestBase64 network url alg w
    = (r, mkWorld (requests w ++ [url]) (console w)) /\
    if settles (outcomeOf network w url)
    then match recorded digestBase64 alg (outcomeOf network w url) with
         | Some h => r = Fulfilled h
         | None => exists e, r = Rejected e
         end
    else r = Pending.
Proof.
  unfold generateSRIHashFromURL, recorded, settles, outcomeOf, clientFor.
  destruct (network _ _ url) as [code chunks|code chunks|msg|msg|].
  - destruct (code =? 200)%Z; simpl; eauto.
  - destruct (code =? 200)%Z; simpl; eauto.
  - eauto.
  - eauto.
  - eauto.
Qed.

(** One round of the loop: the entry of the URL is set from the outcome of
    its request, once that has settled, and the loop goes on. *)
Lemma hashEach_cons url more alg results w :
  settles (outcomeOf network w url) = true ->
  exists line,
    hashEach digestBase64 network (url :: more) alg results w
    = hashEach digestBase64 network more alg
        (setProperty results url
           (recorded digestBase64 alg (outcomeOf network w url)))
        (mkWorld (requests w ++ [url]) (console w ++ [line])).
Proof.
  intros Hs.
  destruct (generateSRIHashFromURL_settles url alg w) as (r & Hr & Hrec).
  rewrite Hs in Hrec.
  simpl hashEach. unfold bind at 1. unfold tryCatch. unfold bind at 1.
  rewrite Hr.
  destruct (recorded digestBase64 alg (outcomeOf network w url)) as [h|].
  - subst r. exists (LogGenerated url). reflexivity.
  - destruct Hrec as [e ->]. exists (LogFailed url (message e)). reflexivity.
Qed.

(** A request that does not settle stops the loop where it is: nothing is
    assigned or printed for its URL and no further request is made. *)
Lemma hashEach_stalls url more alg results w :
  settles (outcomeOf network w url) = false ->
  hashEach digestBase64 network (url :: more) alg results w
  = (Pending, mkWorld (requests w ++ [url]) (console w)).
Proof.
  intros Hs.
  destruct (generateSRIHashFromURL_settles url alg w) as (r & Hr & Hrec).
  rewrite Hs in Hrec. subst r.
  simpl hashEach. unfold bind at 1. unfold tryCatch. unfold bind at 1.
  now rewrite Hr.
Qed.

Lemma hashEach_total :
  forall urls alg results w,
  allSettle network (List.length (requests w)) urls = true ->
  exists res w',
    hashEach digestBase64 network urls alg results w = (Fulfilled res, w') /\
    requests w' = requests w ++ urls /\
    (NoDup (keys (ownEntries results)) -> NoDup (keys (ownEntries res))) /\
    (forall u, In u (keys (ownEntries res)) ->
               In u (keys (ownEntries results)) \/ In u urls) /\
    (forall u, In u (keys (ownEntries results)) \/
               (In u urls /\ u <> protoKey) ->
               In u (keys (ownEntries res))) /\
    (forall u, ~ In u urls ->
               getProperty (ownEntries res) u
               = getProperty (ownEntries results) u) /\
    (forall i u,
        nth_error urls i = Some u -> ~ In u (skipn (S i) urls) ->
        u <> protoKey ->
        getProperty (ownEntries res) u
        = Some (recorded digestBase64 alg
                  (network (List.length (requests w) + i) (clientFor u) u))) /\
    (forall P : hashValue -> Prop,
        P None ->
        (forall body, P (Some (generateSRIHash digestBase64 body alg))) ->
        (forall k v, In (k, v) (ownEntries results) -> P v) ->
        forall k v, In (k, v) (ownEntries res) -> P v).
Proof.
  induction urls as [|url more IH]; intros alg results w Hall.
  - exists results, w. simpl. rewrite app_nil_r.
    repeat split; auto.
    + intros u [H|[[] _]]. exact H.
    + intros i u H. destruct i; discriminate.
  - simpl in Hall. apply andb_true_iff in Hall. destruct Hall as [Hs Hall].
    destruct (hashEach_cons url more alg results w Hs) as [line Heq].
    rewrite Heq. clear Heq.
    set (results1 := setProperty results url _).
    set (w1 := mkWorld _ _).
    assert (Hall1 : allSettle network (List.length (requests w1)) more = true).
    { unfold w1. simpl. rewrite length_app. simpl.
      now rewrite Nat.add_1_r. }
    destruct (IH alg results1 w1 Hall1)
      as (res & w' & Hrun & Hreq & Hnd & Hincl & Hkeep & Hframe & Hown & Hval).
    exists res, w'. split; [exact Hrun|].
    split; [rewrite Hreq; simpl; now rewrite <- app_assoc|].
    split; [intros H; apply Hnd; unfold results1; now apply NoDup_set|].
    split; [|split; [|split; [|split]]].
    + intros u Hu. apply Hincl in Hu. destruct Hu as [Hu|Hu].
      * unfold results1 in Hu. apply keys_set_incl in Hu.
        destruct Hu as [->|Hu]; [right; now left|now left].
      * right. now right.
    + intros u [Hu|[[<-|Hu] Hp]]; apply Hkeep.
      * left. unfold results1. now apply keys_set_keeps.
      * left. unfold results1. now apply keys_set_own.
      * right. now split.
    + intros u Hu. rewrite Hframe by (intros H; apply Hu; now right).
      unfold results1. apply getProperty_set_other.
      intros ->. apply Hu. now left.
    + intros i u Hi Hlast Hp. destruct i as [|i]; simpl in Hi, Hlast.
      * inversion Hi; subst u. rewrite Hframe by exact Hlast.
        unfold results1. rewrite getProperty_set_same by exact Hp.
        unfold outcomeOf. now rewrite Nat.add_0_r.
      * rewrite (Hown i u Hi Hlast Hp). unfold w1. simpl.
        rewrite length_app. simpl.
        replace (List.length (requests w) + 1 + i)
          with (List.length (requests w) + S i) by lia.
        reflexivity.
    + intros P Hnone Hsome Hres k v Hin.
      refine (Hval P Hnone Hsome _ k v Hin).
      intros k' v' Hin'.
      apply (@setProperty_values P results url
               (recorded digestBase64 alg (outcomeOf network w url)))
        with (k' := k'); [|exact Hres|exact Hin'].
      unfold recorded, outcomeOf.
      destruct (network _ _ url) as [code chunks|code chunks|msg|msg|];
        [destruct (code =? 200)%Z| | | |]; auto.
Qed.

(** When some request does not settle the loop stays pending at the first
    such request: the URLs up to it have been requested and no other. *)
Lemma hashEach_pending :
  forall urls alg results w,
  allSettle network (List.length (requests w)) urls = false ->
  exists i u w',
    hashEach digestBase64 network urls alg results w = (Pending, w') /\
    nth_error urls i = Some u /\
    settles (network (List.length (requests w) + i) (clientFor u) u) = false /\
    allSettle network (List.length (requests w)) (firstn i urls) = true /\
    requests w' = requests w ++ firstn (S i) urls.
Proof.
  induction urls as [|url more IH]; intros alg results w Hall;
    [discriminate|].
  simpl in Hall.
  destruct (settles (network (List.length (requests w)) (clientFor url) url))
    eqn:Hs.
  - simpl in Hall.
    destruct (hashEach_cons url more alg results w Hs) as [line Heq].
    rewrite Heq. clear Heq.
    set (results1 := setProperty results url _).
    set (w1 := mkWorld _ _).
    assert (Hlen : List.length (requests w1) = S (List.length (requests w))).
    { unfold w1. simpl. rewrite length_app. simpl. lia. }
    assert (Hall1 : allSettle network (List.length (requests w1)) more = false)
      by now rewrite Hlen.
    destruct (IH alg results1 w1 Hall1)
      as (i & u & w' & Hrun & Hi & Hstall & Hbefore & Hreq).
    exists (S i), u, w'. split; [exact Hrun|]. split; [exact Hi|].
    rewrite Hlen in Hstall, Hbefore.
    split; [now rewrite Nat.add_succ_r|].
    split; [simpl; now rewrite Hs, Hbefore|].
    rewrite Hreq. unfold w1. simpl. now rewrite <- app_assoc.
  - exists 0, url. eexists. split; [now apply hashEach_stalls|].
    split; [reflexivity|]. rewrite Nat.add_0_r.
    split; [exact Hs|]. split; reflexivity.
Qed.

(** The batch hands on the entries of the object the loop has built. *)
Lemma batch_hashEach urls alg w :
  generateSRIHashesForURLs digestBase64 network urls alg w
  = match hashEach digestBase64 network urls alg (mkObject true []) w with
    | (Fulfilled results, w') => (Fulfilled (ownEntries results), w')
    | (Rejected e, w') => (Rejected e, w')
    | (Pending, w') => (Pending, w')
    end.
Proof. reflexivity. Qed.

End BatchFacts.

(** ** The locator's loops *)

Lemma hitsFuel_complete ic r :
  NeverEmpty ic r ->
  forall n s,
    List.length s < n ->
    exists tail,
      s = covered (hitsFuel ic n r s) ++ tail /\ exec ic r tail = None.
Proof.
  intros Hne. induction n as [|n IH]; intros s Hn; [lia|]. simpl.
  destruct (exec ic r s) as [h|] eqn:E.
  - pose proof (exec_advances Hne _ E) as Hlt.
    destruct (IH (after h)) as [tail [Ht Hnone]]; [lia|].
    exists tail. split; [|exact Hnone].
    apply exec_some in E. destruct E as [Hs _].
    unfold covered in *. simpl. rewrite <- !app_assoc, <- Ht. exact Hs.
  - exists s. auto.
Qed.

Lemma hits_complete ic r s :
  NeverEmpty ic r ->
  exists tail, s = covered (hits ic r s) ++ tail /\ exec ic r tail = None.
Proof. intros Hne. apply hitsFuel_complete; [assumption|lia]. Qed.

Lemma locatorRegex_never_empty tag attr :
  NeverEmpty true (locatorRegex tag attr).
Proof.
  intros caps H. apply locatorRegex_shape in H.
  destruct H as (t & a & n & q1 & url & q2 & b & Hm & _).
  symmetry in Hm. repeat (apply app_eq_nil in Hm; destruct Hm as [_ Hm]).
  discriminate.
Qed.

Lemma fold_pushScript hs :
  forall acc,
    fold_left (fun a h => pushScript h a) hs acc
    = fold_left pushNew (map group1 hs) acc.
Proof.
  induction hs as [|h hs IH]; intros acc; simpl; [reflexivity|].
  now rewrite IH.
Qed.

Lemma fold_pushStylesheet hs :
  forall acc,
    fold_left (fun a h => pushStylesheet h a) hs acc
    = fold_left pushNew (map group1 (filter marked hs)) acc.
Proof.
  induction hs as [|h hs IH]; intros acc; simpl; [reflexivity|].
  rewrite IH. unfold pushStylesheet, marked.
  destruct (includes (txt "stylesheet") (matched h)); simpl; reflexivity.
Qed.

Lemma keepFirst_fold l : fold_left pushNew l [] = keepFirst l.
Proof.
  rewrite fold_pushNew_keepFirst. simpl. f_equal.
  induction l as [|x l IH]; simpl; [reflexivity|now rewrite IH].
Qed.

Lemma scripts_keepFirst input :
  scripts (extractExternalResources input)
  = keepFirst (map group1 (hits true scriptRegex input)).
Proof.
  simpl. now rewrite execLoop_hits, fold_pushScript, keepFirst_fold.
Qed.

Lemma stylesheets_keepFirst input :
  stylesheets (extractExternalResources input)
  = keepFirst (map group1 (filter marked (hits true linkRegex input))).
Proof.
  simpl. now rewrite execLoop_hits, fold_pushStylesheet, keepFirst_fold.
Qed.

Lemma keepFirst_NoDup l : NoDup (keepFirst l).
Proof. rewrite <- keepFirst_fold. apply fold_pushNew_NoDup. constructor. Qed.

Lemma keepFirst_In l u : In u (keepFirst l) <-> In u l.
Proof. rewrite <- keepFirst_fold, fold_pushNew_In. simpl. tauto. Qed.

Lemma includes_app w pre s post :
  includes w s = true -> includes w (pre ++ s ++ post) = true.
Proof.
  intros H. induction pre as [|c pre IH]; simpl.
  - induction s as [|c s IH]; simpl in *.
    + destruct w; [|discriminate]. destruct post; reflexivity.
    + apply orb_true_iff in H. destruct H as [H|H].
      * assert (Hs : startsWith w (c :: s ++ post) = true)
          by (change (c :: s ++ post) with ((c :: s) ++ post);
              now apply startsWith_app).
        destruct w; [reflexivity|]. simpl in Hs. simpl. now rewrite Hs.
      * rewrite (IH H). apply orb_true_r.
  - rewrite IH. apply orb_true_r.
Qed.

(** Every reference the locator lists was captured from a match of its
    expression in the text. *)
Lemma located_shape tag attr input h :
  In h (hits true (locatorRegex tag attr) input) ->
  exists pre post t a n q1 q2 b,
    input = pre ++ matched h ++ post /\
    matched h = t ++ a ++ n ++ q1 ++ group1 h ++ q2 ++ b ++ [">"%char] /\
    sameText true (txt tag) t = true /\
    forallb (accepts true notGt) a = true /\ a <> [] /\
    sameText true (txt attr) n = true /\
    absoluteCI (group1 h) = true /\
    forallb (accepts true notGt) b = true.
Proof.
  intros Hin. apply hitsFuel_in in Hin. destruct Hin as [HM (pre & post & Hs)].
  apply locatorRegex_shape in HM.
  destruct HM as (t & a & n & q1 & url & q2 & b & Hm & Hc & Hrest).
  exists pre, post, t, a, n, q1, q2, b. unfold group1. rewrite Hc. simpl.
  split; [exact Hs|]. split; [exact Hm|exact Hrest].
Qed.

(** ** Unfolding equations *)

Lemma exec_cons ic r c s :
  exec ic r (c :: s) =
  match run ic r (c :: s) with
  | (m, caps, rest) :: _ => Some (Hit [] m caps rest)
  | [] =>
      match exec ic r s with
      | Some h => Some (Hit (c :: before h) (matched h) (groups h) (after h))
      | None => None
      end
  end.
Proof. reflexivity. Qed.

Lemma run_one ic a c s :
  run ic (One a) (c :: s) = if accepts ic a c then [([c], [], s)] else [].
Proof. simpl. unfold step. now destruct (accepts ic a c). Qed.

(** ** Escaping *)

Lemma escapeRegex_flat str : escapeRegex str = flat_map escapeChar str.
Proof.
  unfold escapeRegex.
  induction str as [|c s IH].
  - reflexivity.
  - rewrite replace_eq, exec_cons, run_one.
    change (flat_map escapeChar (c :: s))
      with (escapeChar c ++ flat_map escapeChar s).
    unfold escapeChar at 1.
    destruct (accepts false (OneOf syntaxChars) c) eqn:E.
    + cbn [before matched groups after app]. now rewrite IH.
    + rewrite replace_eq in IH.
      destruct (exec false (One (OneOf syntaxChars)) s) as [h|] eqn:Eh.
      * cbn [before matched groups after app]. now rewrite <- IH.
      * cbn [app]. now rewrite <- IH.
Qed.

(** The escaped URL is a literal, and stands for the URL. *)
Lemma literal_escaped url : literalPattern (escapeRegex url) = Some url.
Proof.
  rewrite escapeRegex_flat.
  induction url as [|c u IH]; [reflexivity|].
  change (flat_map escapeChar (c :: u))
    with (escapeChar c ++ flat_map escapeChar u).
  unfold escapeChar at 1.
  destruct (accepts false (OneOf syntaxChars) c) eqn:E.
  - cbn [app literalPattern].
    replace (Ascii.eqb "\"%char "\"%char) with true by reflexivity.
    now rewrite E, IH.
  - cbn [app literalPattern]. rewrite E.
    destruct (Ascii.eqb c "\"%char) eqn:Eb.
    + apply Ascii.eqb_eq in Eb. subst c. discriminate E.
    + now rewrite IH.
Qed.

(** The escaped URL compiles to the run of its own code units: the
    expression matches the URL literally. *)
Lemma compile_escaped url : compileLiteral (escapeRegex url) = lits url.
Proof. unfold compileLiteral. now rewrite literal_escaped. Qed.

(** ** Occurrences, letter case apart *)

Lemma startsWithCI_app w s t :
  startsWithCI w s = true -> startsWithCI w (s ++ t) = true.
Proof.
  unfold startsWithCI. rewrite map_app. apply startsWith_app.
Qed.







Lemma rewriteEntry_skipped input entry :
  hashed entry = false -> rewriteEntry input entry = input.
Proof.
  destruct entry as [url [[|c h]|]]; unfold hashed; simpl; intros H;
    try reflexivity; discriminate.
Qed.


Lemma addSRI_filter entries :
  forall input,
    addSRIAttributesToHTML input entries
    = addSRIAttributesToHTML input (filter hashed entries).
Proof.
  unfold addSRIAttributesToHTML.
  induction entries as [|e entries IH]; intros input; cbn [fold_left filter];
    [reflexivity|].
  destruct (hashed e) eqn:E; cbn [fold_left].
  - apply IH.
  - rewrite rewriteEntry_skipped by exact E. apply IH.
Qed.


(** ** The first way of matching *)

Section Leading.

Variable ic : bool.

Lemma leads_seq r1 r2 s m1 c1 rest1 m2 c2 rest2 :
  Leads ic r1 s (m1, c1, rest1) ->
  Leads ic r2 rest1 (m2, c2, rest2) ->
  Leads ic (Seq r1 r2) s (m1 ++ m2, c1 ++ c2, rest2).
Proof.
  intros [o1 H1] [o2 H2]. unfold Leads. cbn [run].
  rewrite H1. cbn [flat_map]. rewrite H2. cbn [map app]. eauto.
Qed.

Lemma leads_group r s m c rest :
  Leads ic r s (m, c, rest) -> Leads ic (Group r) s (m, m :: c, rest).
Proof.
  intros [o H]. unfold Leads. cbn [run]. rewrite H. cbn [map]. eauto.
Qed.

Lemma leads_one a c s :
  accepts ic a c = true -> Leads ic (One a) (c :: s) ([c], [], s).
Proof. intros H. unfold Leads. rewrite run_one, H. eauto. Qed.

Lemma leads_opt a c s :
  accepts ic a c = true -> Leads ic (Opt a) (c :: s) ([c], [], s).
Proof.
  intros H. unfold Leads. cbn [run step]. rewrite H. cbn [app map].
  unfold plain at 1. cbn [fst snd]. eauto.
Qed.

Lemma leads_eps s : Leads ic Eps s ([], [], s).
Proof. unfold Leads. cbn [run]. eauto. Qed.

Lemma leads_lits w :
  forall m s,
    sameText ic w m = true -> Leads ic (lits w) (m ++ s) (m, [], s).
Proof.
  induction w as [|a w IH]; intros [|c m] s H; simpl in H; try discriminate.
  - apply leads_eps.
  - apply andb_true_iff in H. destruct H as [Hc H].
    change (lits (a :: w)) with (Seq (One (Lit a)) (lits w)).
    change ((c :: m) ++ s) with (c :: (m ++ s)).
    change (c :: m, @nil text, s) with ([c] ++ m, @nil text ++ [], s).
    apply leads_seq with (rest1 := m ++ s).
    + now apply leads_one.
    + now apply IH.
Qed.

(** The longest run comes first. *)
Lemma leads_star a x :
  forall s,
    forallb (accepts ic a) x = true ->
    match s with [] => True | g :: _ => accepts ic a g = false end ->
    exists others, star ic a (x ++ s) = (x, s) :: others.
Proof.
  induction x as [|c x IH]; intros s Hx Hs.
  - destruct s as [|g s]; simpl; [eauto|]. rewrite Hs. eauto.
  - simpl in Hx. apply andb_true_iff in Hx. destruct Hx as [Hc Hx].
    destruct (IH s Hx Hs) as [o Ho]. simpl. rewrite Hc, Ho. simpl. eauto.
Qed.

Lemma leads_star_run a x s :
  forallb (accepts ic a) x = true ->
  match s with [] => True | g :: _ => accepts ic a g = false end ->
  Leads ic (Star a) (x ++ s) (x, [], s).
Proof.
  intros Hx Hs. destruct (leads_star a x s Hx Hs) as [o Ho].
  unfold Leads. cbn [run]. rewrite Ho. cbn [map]. eauto.
Qed.

(** The ways of a greedy run: every longer run first, the empty run last. *)
Lemma star_last a s :
  exists front,
    star ic a s = front ++ [([], s)] /\
    forall p, In p front -> fst p <> [].
Proof.
  destruct s as [|c s]; simpl.
  - exists []. split; [reflexivity|intros p []].
  - destruct (accepts ic a c).
    + exists (map (fun p => (c :: fst p, snd p)) (star ic a s)).
      split; [reflexivity|]. intros p Hp. apply in_map_iff in Hp.
      destruct Hp as (p' & <- & _). discriminate.
    + exists []. split; [reflexivity|intros p []].
Qed.

Lemma star_prefix a x :
  forall s,
    forallb (accepts ic a) x = true ->
    exists shorter,
      star ic a (x ++ s)
      = map (fun p => (x ++ fst p, snd p)) (star ic a s) ++ shorter.
Proof.
  induction x as [|c x IH]; intros s Hx.
  - exists []. rewrite app_nil_r. simpl.
    induction (star ic a s) as [|[m r] l IHl]; simpl; [reflexivity|].
    now rewrite <- IHl.
  - simpl in Hx. apply andb_true_iff in Hx. destruct Hx as [Hc Hx].
    destruct (IH s Hx) as [shorter Hsh]. simpl. rewrite Hc, Hsh.
    exists (map (fun p => (c :: fst p, snd p)) shorter ++ [([], c :: x ++ s)]).
    rewrite map_app, map_map, <- app_assoc. reflexivity.
Qed.

Lemma flat_map_nil (A B : Type) (f : A -> list B) l :
  (forall x, In x l -> f x = []) -> flat_map f l = [].
Proof.
  induction l as [|x l IH]; intros H; simpl; [reflexivity|].
  rewrite (H x (or_introl eq_refl)). apply IH. intros y Hy. apply H. now right.
Qed.

(** A greedy run followed by [r]: when [r] fails after every longer run,
    the first way of matching takes the run [x] and goes on with the first
    way of [r]. *)
Lemma leads_plus_then a r x t m caps rest :
  x <> [] ->
  forallb (accepts ic a) x = true ->
  (forall y t', t = y ++ t' -> y <> [] ->
                forallb (accepts ic a) y = true -> run ic r t' = []) ->
  Leads ic r t (m, caps, rest) ->
  Leads ic (Seq (Plus a) r) (x ++ t) (x ++ m, caps, rest).
Proof.
  intros Hne Hx Hlonger [o Ho].
  destruct x as [|c x]; [congruence|].
  simpl in Hx. apply andb_true_iff in Hx. destruct Hx as [Hc Hx].
  unfold Leads. cbn [run app]. rewrite Hc.
  destruct (star_prefix a x t Hx) as [shorter Hsh].
  destruct (star_last a t) as (front & Hfront & Hnonempty).
  rewrite Hsh, Hfront, !map_app, !flat_map_app. cbn [map flat_map].
  rewrite flat_map_nil.
  - cbn [app fst snd]. rewrite Ho. cbn [map app]. rewrite app_nil_r. eauto.
  - intros w Hw. apply in_map_iff in Hw. destruct Hw as (p1 & <- & Hp1).
    apply in_map_iff in Hp1. destruct Hp1 as ([y t'] & <- & Hp).
    cbn [fst snd].
    assert (Hin : In (y, t') (star ic a t))
      by (rewrite Hfront; apply in_or_app; now left).
    apply star_in in Hin. destruct Hin as [Ht Hy].
    rewrite (Hlonger y t' Ht (Hnonempty _ Hp) Hy). reflexivity.
Qed.

(** [exec] at a position where the matcher succeeds. *)
Lemma exec_leads r s m caps rest :
  Leads ic r s (m, caps, rest) -> exec ic r s = Some (Hit [] m caps rest).
Proof.
  intros [o H]. destruct s as [|c s]; simpl; rewrite H; reflexivity.
Qed.

(** [exec] over a stretch of text in which the matcher succeeds nowhere,
    however the text goes on. *)
Lemma exec_skip r pre :
  forall s,
    (forall p1 p2, pre = p1 ++ p2 -> p2 <> [] -> run ic r (p2 ++ s) = []) ->
    exec ic r (pre ++ s) =
    match exec ic r s with
    | Some h => Some (Hit (pre ++ before h) (matched h) (groups h) (after h))
    | None => None
    end.
Proof.
  induction pre as [|c pre IH]; intros s H.
  - simpl. destruct (exec ic r s) as [[b m g a]|]; reflexivity.
  - change ((c :: pre) ++ s) with (c :: (pre ++ s)). rewrite exec_cons.
    change (c :: pre ++ s) with ((c :: pre) ++ s).
    rewrite (H [] (c :: pre) eq_refl) by discriminate.
    rewrite IH.
    + destruct (exec ic r s) as [h|]; reflexivity.
    + intros p1 p2 Hp Hne. apply (H (c :: p1) p2); [|exact Hne].
      simpl. now rewrite Hp.
Qed.

Lemma replace_skip r f pre s :
  (forall p1 p2, pre = p1 ++ p2 -> p2 <> [] -> run ic r (p2 ++ s) = []) ->
  replace ic r f (pre ++ s) = pre ++ replace ic r f s.
Proof.
  intros H. rewrite (replace_eq ic r f (pre ++ s)), (replace_eq ic r f s).
  rewrite (@exec_skip r pre s H).
  destruct (exec ic r s) as [h|]; [|reflexivity].
  cbn [before matched groups after]. now rewrite <- app_assoc.
Qed.

Lemma replace_first r f s m caps rest :
  Leads ic r s (m, caps, rest) -> m <> [] ->
  replace ic r f s = f m caps ++ replace ic r f rest.
Proof.
  intros H Hne. rewrite replace_eq, (exec_leads H).
  cbn [before matched groups after app].
  destruct m; [congruence|reflexivity].
Qed.

End Leading.

(** ** Code units that fold to themselves only *)

Lemma sameChar_lt c : sameChar true "<"%char c = Ascii.eqb c "<"%char.
Proof. destruct c as [[] [] [] [] [] [] [] []]; reflexivity. Qed.

Lemma sameChar_gt c : sameChar true ">"%char c = Ascii.eqb c ">"%char.
Proof. destruct c as [[] [] [] [] [] [] [] []]; reflexivity. Qed.

Lemma accepts_notGt c : accepts true notGt c = negb (Ascii.eqb c ">"%char).
Proof.
  unfold accepts, notGt. cbn [existsb inItem]. rewrite sameChar_gt.
  now rewrite orb_false_r.
Qed.

Lemma forallb_notGt s : forallb (accepts true notGt) s = noChar ">"%char s.
Proof.
  unfold noChar. induction s as [|c s IH]; cbn [forallb]; [reflexivity|].
  now rewrite accepts_notGt, IH.
Qed.

Lemma sameChar_refl ic c : sameChar ic c c = true.
Proof. unfold sameChar. destruct ic; apply Ascii.eqb_refl. Qed.

Lemma sameText_refl ic w : sameText ic w w = true.
Proof.
  induction w as [|c w IH]; simpl; [reflexivity|].
  now rewrite sameChar_refl.
Qed.

(** ** Where an expression cannot start *)

Lemma run_lits_none w :
  forall s, startsWithCI w s = false -> run true (lits w) s = [].
Proof.
  induction w as [|a w IH]; intros s H; [discriminate|].
  change (lits (a :: w)) with (Seq (One (Lit a)) (lits w)).
  destruct s as [|c s]; [reflexivity|].
  cbn [run]. change (map plain (step true (Lit a) (c :: s)))
    with (run true (One (Lit a)) (c :: s)).
  rewrite run_one. unfold startsWithCI in H. simpl in H.
  unfold accepts, sameChar.
  destruct (Ascii.eqb (canonicalize a) (canonicalize c)); [|reflexivity].
  simpl in H. cbn [flat_map]. rewrite (IH s H). reflexivity.
Qed.

Lemma rewriterRegex_none tag attr url s :
  startsWithCI (txt tag) s = false ->
  run true (rewriterRegex tag attr url) s = [].
Proof.
  intros H. unfold rewriterRegex. cbn [run].
  rewrite (run_lits_none _ _ H). reflexivity.
Qed.

Lemma clash_startsWithCI w :
  forall p s, clash w p = true -> startsWithCI w (p ++ s) = false.
Proof.
  unfold startsWithCI.
  induction w as [|a w IH]; intros [|c p] s H; simpl in H; try discriminate.
  simpl. unfold sameChar in H.
  destruct (Ascii.eqb (canonicalize a) (canonicalize c)); [|reflexivity].
  simpl in *. now apply IH.
Qed.

Lemma clashes_suffix w z :
  clashes w z = true ->
  forall p1 p2, z = p1 ++ p2 -> p2 <> [] -> clash w p2 = true.
Proof.
  intros H p1. revert z H. induction p1 as [|c p1 IH]; intros z H p2 Hz Hne.
  - simpl in Hz. subst z. destruct p2; [congruence|].
    simpl in H. now apply andb_true_iff in H.
  - subst z. simpl in H. apply andb_true_iff in H. destruct H as [_ H].
    now apply (IH _ H).
Qed.

Lemma clashes_noLt w z :
  noChar "<"%char z = true -> clashes ("<"%char :: w) z = true.
Proof.
  induction z as [|c z IH]; intros H; [reflexivity|].
  simpl in H. apply andb_true_iff in H. destruct H as [Hc H].
  cbn [clashes clash]. rewrite sameChar_lt, Hc, (IH H). reflexivity.
Qed.

(** Over a stretch of text whose every suffix clashes with the tag name,
    a pass of the rewriter copies the text. *)
Lemma rewriter_pass_skip tag attr url f z s :
  clashes (txt tag) z = true ->
  replace true (rewriterRegex tag attr url) f (z ++ s)
  = z ++ replace true (rewriterRegex tag attr url) f s.
Proof.
  intros H. apply replace_skip. intros p1 p2 Hz Hne.
  apply rewriterRegex_none, clash_startsWithCI.
  eapply clashes_suffix; eauto.
Qed.

(** ** Where a run of code units stops *)

Lemma prefix_before_stop g y :
  forall t' p post,
    y ++ t' = p ++ g :: post ->
    noChar g y = true -> noChar g p = true ->
    exists p', p = y ++ p' /\ t' = p' ++ g :: post.
Proof.
  induction y as [|c y IH]; intros t' p post Heq Hy Hp.
  - exists p. auto.
  - simpl in Hy. apply andb_true_iff in Hy. destruct Hy as [Hc Hy].
    destruct p as [|d p]; simpl in Heq; inversion Heq; subst.
    + rewrite Ascii.eqb_refl in Hc. discriminate.
    + simpl in Hp. apply andb_true_iff in Hp. destruct Hp as [_ Hp].
      destruct (IH _ _ _ H1 Hy Hp) as (p' & -> & ->).
      exists p'. split; reflexivity.
Qed.

Lemma startsWithCI_stop w g :
  forallb (fun a => negb (sameChar true a g)) w = true ->
  forall s t, startsWithCI w (s ++ g :: t) = true -> startsWithCI w s = true.
Proof.
  unfold startsWithCI.
  induction w as [|a w IH]; intros Hw s t H; [reflexivity|].
  simpl in Hw. apply andb_true_iff in Hw. destruct Hw as [Ha Hw].
  destruct s as [|c s]; simpl in H.
  - unfold sameChar in Ha. apply andb_true_iff in H. destruct H as [H _].
    rewrite H in Ha. discriminate.
  - apply andb_true_iff in H. destruct H as [Hc H]. simpl. rewrite Hc.
    now apply (IH Hw s t).
Qed.

(** ** Reshaping a statement about the first way of matching *)

(** Both sides of an equation between concatenations, flattened. *)
Ltac flatten_app :=
  cbn [app];
  repeat first [rewrite <- app_assoc | rewrite <- app_comm_cons];
  cbn [app].

Lemma Leads_cast ic r s s' w w' :
  Leads ic r s w -> s = s' -> w = w' -> Leads ic r s' w'.
Proof. intros H -> ->. exact H. Qed.

(** ** The scenarios of the specification, run on the model *)

Example scenario_locator :
  extractExternalResources exampleHTML = mkResources [exampleUrl] [].
Proof. vm_compute. reflexivity. Qed.

Example scenario_skipFetch :
  processHTMLForSRI scenarioDigest scenarioNetwork exampleHTML
                    (mkOptions None (Some true)) (mkWorld [] [])
  = (Fulfilled (mkResult exampleHTML (mkResources [exampleUrl] []) [] false),
     mkWorld [] [LogFound 1; LogResource exampleUrl; LogSkipping]).
Proof. vm_compute. reflexivity. Qed.

Example scenario_full_run :
  processHTMLForSRI scenarioDigest (fun _ _ _ => Response 200 [[Byte.x61]])
                    exampleHTML (mkOptions None None) (mkWorld [] [])
  = (Fulfilled (mkResult exampleHTMLOnce (mkResources [exampleUrl] [])
                         exampleHashes true),
     mkWorld [exampleUrl]
             [LogFound 1; LogResource exampleUrl; LogGenerated exampleUrl]).
Proof. vm_compute. reflexivity. Qed.

(** ** Every described way is found *)

Lemma star_complete ic a m :
  forallb (accepts ic a) m = true ->
  forall rest, In (m, rest) (star ic a (m ++ rest)).
Proof.
  induction m as [|c m IH]; intros Hm rest.
  - cbn [app]. destruct (star_last ic a rest) as (front & -> & _).
    apply in_or_app. right. now left.
  - simpl in Hm. apply andb_true_iff in Hm. destruct Hm as [Hc Hm].
    simpl. rewrite Hc. apply in_or_app. left.
    apply in_map_iff. exists (m, rest). split; [reflexivity|now apply IH].
Qed.

(** The matcher lists every way of matching that the expression
    describes. *)
Lemma run_complete ic r m caps :
  Matches ic r m caps -> forall rest, In (m, caps, rest) (run ic r (m ++ rest)).
Proof.
  induction 1 as [|a c Hc|a c Hc|a|a m Hm|a c m Hc Hm
                  |r1 r2 m1 c1 m2 c2 H1 IH1 H2 IH2|r m c H IH]; intros rest.
  - now left.
  - cbn [app]. rewrite (run_one ic a c rest), Hc. now left.
  - cbn [run app step]. rewrite Hc. now left.
  - cbn [run app]. apply in_map_iff. exists ([], rest).
    split; [reflexivity|]. apply in_or_app. right. now left.
  - cbn [run]. apply in_map_iff. exists (m, rest).
    split; [reflexivity|now apply star_complete].
  - cbn [run app]. rewrite Hc. apply in_map_iff. exists (m, rest).
    split; [reflexivity|now apply star_complete].
  - apply run_seq_in. exists m1, c1, (m2 ++ rest), m2, c2.
    rewrite <- app_assoc. auto.
  - cbn [run]. apply in_map_iff. exists (m, c, rest).
    split; [reflexivity|apply IH].
Qed.

(** An expression that matches somewhere in a text is found by [exec]. *)
Lemma exec_finds ic r pre m caps post :
  Matches ic r m caps -> exec ic r (pre ++ m ++ post) <> None.
Proof.
  intros HM Hnone. rewrite exec_none in Hnone.
  specialize (Hnone pre (m ++ post) eq_refl).
  pose proof (run_complete HM post) as Hin. rewrite Hnone in Hin.
  destruct Hin.
Qed.

Lemma Matches_lits_intro ic w :
  forall m, sameText ic w m = true -> Matches ic (lits w) m [].
Proof.
  induction w as [|a w IH]; intros [|c m] H; simpl in H; try discriminate.
  - constructor.
  - apply andb_true_iff in H. destruct H as [Hc H].
    change (Matches ic (Seq (One (Lit a)) (lits w)) ([c] ++ m) ([] ++ [])).
    constructor; [now constructor|now apply IH].
Qed.

Lemma Matches_cast ic r m m' caps caps' :
  Matches ic r m caps -> m = m' -> caps = caps' -> Matches ic r m' caps'.
Proof. intros H -> ->. exact H. Qed.

Lemma groupless_caps ic r m caps :
  groupless r = true -> Matches ic r m caps -> caps = [].
Proof.
  intros Hg HM. induction HM; simpl in Hg; try reflexivity; try discriminate.
  apply andb_true_iff in Hg. destruct Hg as [Hg1 Hg2].
  now rewrite IHHM1, IHHM2.
Qed.

Lemma groupless_lits w : groupless (lits w) = true.
Proof. induction w as [|c w IH]; simpl; [reflexivity|exact IH]. Qed.

(** ** Subsequences *)

Lemma Subseq_refl (A : Type) (l : list A) : Subseq l l.
Proof. induction l; constructor; assumption. Qed.

Lemma Subseq_skip_app (A : Type) (x l1 l2 : list A) :
  Subseq l1 l2 -> Subseq l1 (x ++ l2).
Proof. intros H. induction x; simpl; [exact H|now constructor]. Qed.

Lemma Subseq_app (A : Type) (a a' b b' : list A) :
  Subseq a a' -> Subseq b b' -> Subseq (a ++ b) (a' ++ b').
Proof.
  intros Ha Hb. induction Ha as [l|x l1 l2 H IH|x l1 l2 H IH]; simpl.
  - now apply Subseq_skip_app.
  - now constructor.
  - now constructor.
Qed.

Lemma Subseq_length (A : Type) (l1 l2 : list A) :
  Subseq l1 l2 -> List.length l1 <= List.length l2.
Proof. induction 1; simpl; lia. Qed.

Lemma Subseq_trans (A : Type) (l2 l3 : list A) :
  Subseq l2 l3 -> forall l1, Subseq l1 l2 -> Subseq l1 l3.
Proof.
  induction 1 as [l|x l2 l3 H IH|x l2 l3 H IH]; intros l1 H1.
  - inversion H1; subst. constructor.
  - inversion H1; subst; constructor; now apply IH.
  - constructor. now apply IH.
Qed.

(** A subsequence of the same length is the list itself. *)
Lemma Subseq_same_length (A : Type) (l1 l2 : list A) :
  Subseq l1 l2 -> List.length l1 = List.length l2 -> l1 = l2.
Proof.
  induction 1 as [l|x l1 l2 H IH|x l1 l2 H IH]; simpl; intros Hlen.
  - destruct l; [reflexivity|discriminate].
  - f_equal. apply IH. lia.
  - apply Subseq_length in H. lia.
Qed.

(** ** A replacement that only inserts *)

Lemma replace_Subseq ic r f :
  (forall m caps, Matches ic r m caps -> Subseq m (f m caps)) ->
  forall s, Subseq s (replace ic r f s).
Proof.
  intros Hf s. remember (List.length s) as n eqn:Hn.
  revert s Hn. induction n as [n IH] using lt_wf_ind. intros s Hn.
  rewrite replace_eq.
  destruct (exec ic r s) as [h|] eqn:E; [|apply Subseq_refl].
  pose proof (exec_length _ _ _ E) as Hlen.
  pose proof (exec_matches _ _ _ E) as HM.
  apply exec_some in E. destruct E as [Hs _].
  rewrite Hs at 1.
  apply Subseq_app; [apply Subseq_refl|].
  apply Subseq_app; [now apply Hf|].
  destruct (matched h) as [|c0 m0] eqn:Em.
  - destruct (after h) as [|c rest'] eqn:Ea; [constructor|].
    constructor. simpl in Hlen. apply (IH (List.length rest')); [lia|reflexivity].
  - simpl in Hlen. apply (IH (List.length (after h))); [lia|reflexivity].
Qed.
(** ** The rewriter only inserts *)

(** A match of a rewriter expression is its two groups, one after the
    other. *)
Lemma rewriterRegex_groups tag attr url m caps :
  Matches true (rewriterRegex tag attr url) m caps ->
  exists opening closing,
    caps = [opening; closing] /\ m = opening ++ closing /\
    closing <> [].
Proof.
  unfold rewriterRegex. rewrite compile_escaped. intros H.
  apply Matches_seq_inv in H.
  destruct H as (m1 & c1 & m2 & c2 & -> & -> & H1 & H2).
  apply Matches_group_inv in H1. destruct H1 as (d1 & -> & H1).
  apply Matches_group_inv in H2. destruct H2 as (d2 & -> & H2).
  apply groupless_caps in H1;
    [|cbn [groupless]; now rewrite !groupless_lits].
  pose proof H2 as H2'. apply groupless_caps in H2'; [|reflexivity].
  subst d1 d2. exists m1, m2. split; [reflexivity|]. split; [reflexivity|].
  apply Matches_seq_inv in H2.
  destruct H2 as (b & ? & g & ? & -> & _ & _ & Hg).
  apply Matches_one_inv in Hg. destruct Hg as (_ & c & -> & _).
  intros Hnil. apply app_eq_nil in Hnil. destruct Hnil as [_ Hnil].
  discriminate.
Qed.

Lemma addIntegrity_cases hash opening closing :
  addIntegrity hash (opening ++ closing) [opening; closing]
  = (if includes (txt "integrity=") opening then opening ++ closing
     else opening ++ sriAttributes hash ++ closing).
Proof. reflexivity. Qed.

Lemma addIntegrity_Subseq tag attr url hash m caps :
  Matches true (rewriterRegex tag attr url) m caps ->
  Subseq m (addIntegrity hash m caps).
Proof.
  intros H. apply rewriterRegex_groups in H.
  destruct H as (o & c & -> & -> & _). rewrite addIntegrity_cases.
  destruct (includes (txt "integrity=") o); [apply Subseq_refl|].
  apply Subseq_app; [apply Subseq_refl|].
  apply Subseq_skip_app, Subseq_refl.
Qed.

Lemma rewriteEntry_Subseq input entry : Subseq input (rewriteEntry input entry).
Proof.
  destruct entry as [url [[|c h]|]]; unfold rewriteEntry;
    try apply Subseq_refl.
  eapply Subseq_trans.
  - apply replace_Subseq. intros m caps. apply addIntegrity_Subseq.
  - apply replace_Subseq. intros m caps. apply addIntegrity_Subseq.
Qed.

Lemma addSRI_Subseq entries :
  forall input, Subseq input (addSRIAttributesToHTML input entries).
Proof.
  unfold addSRIAttributesToHTML.
  induction entries as [|e entries IH]; intros input; cbn [fold_left].
  - apply Subseq_refl.
  - eapply Subseq_trans; [apply IH|apply rewriteEntry_Subseq].
Qed.

(** ** What the locator finds, the rewriter finds *)

Lemma locator_to_rewriter tag attr m caps :
  Matches true (locatorRegex tag attr) m caps ->
  exists u opening closing,
    caps = [u] /\
    Matches true (rewriterRegex tag attr u) m [opening; closing].
Proof.
  unfold locatorRegex. intros H.
  apply Matches_seq_inv in H. destruct H as (t & ct & m1 & c1 & -> & -> & Ht & H).
  apply Matches_seq_inv in H. destruct H as (a & ca & m2 & c2 & -> & -> & Ha & H).
  apply Matches_seq_inv in H. destruct H as (n & cn & m3 & c3 & -> & -> & Hn & H).
  apply Matches_seq_inv in H. destruct H as (q1 & cq1 & m4 & c4 & -> & -> & Hq1 & H).
  apply Matches_seq_inv in H. destruct H as (g & cg & m5 & c5 & -> & -> & Hg & H).
  apply Matches_seq_inv in H. destruct H as (q2 & cq2 & m6 & c6 & -> & -> & Hq2 & H).
  apply Matches_seq_inv in H. destruct H as (b & cb & m7 & c7 & -> & -> & Hb & H).
  apply Matches_group_inv in Hg. destruct Hg as (cu & -> & Hg).
  pose proof (groupless_caps (ic := true) (groupless_lits (txt tag)) Ht) as E1.
  pose proof (groupless_caps (ic := true) (r := Plus notGt) eq_refl Ha) as E2.
  pose proof (groupless_caps (ic := true) (groupless_lits (txt attr)) Hn) as E3.
  pose proof (groupless_caps (ic := true) (r := Opt quote) eq_refl Hq1) as E4.
  pose proof (groupless_caps (ic := true) (r := Opt quote) eq_refl Hq2) as E5.
  pose proof (groupless_caps (ic := true) (r := Star notGt) eq_refl Hb) as E6.
  pose proof (groupless_caps (ic := true) (r := One (Lit ">"%char)) eq_refl H)
    as E7.
  apply groupless_caps in Hg; [|reflexivity].
  subst. exists g, (t ++ a ++ n ++ q1 ++ g ++ q2), (b ++ m7).
  split; [reflexivity|].
  unfold rewriterRegex. rewrite compile_escaped.
  apply Matches_cast
    with (m := (t ++ a ++ n ++ q1 ++ g ++ q2) ++ (b ++ m7))
         (caps := ((t ++ a ++ n ++ q1 ++ g ++ q2)
                     :: ([] ++ [] ++ [] ++ [] ++ [] ++ []))
                  ++ ((b ++ m7) :: ([] ++ []))).
  - constructor; constructor.
    + repeat (constructor; try assumption).
      apply Matches_lits_intro, sameText_refl.
    + constructor; assumption.
  - repeat rewrite <- app_assoc. reflexivity.
  - reflexivity.
Qed.

(** At every reference the locator captures, the rewriter expression
    built from the captured URL matches. *)
Lemma located_is_matched tag attr input h :
  In h (hits true (locatorRegex tag attr) input) ->
  exec true (rewriterRegex tag attr (group1 h)) input <> None.
Proof.
  intros Hin. apply hitsFuel_in in Hin. destruct Hin as [HM (pre & post & ->)].
  apply locator_to_rewriter in HM.
  destruct HM as (u & o & c & Hc & HM).
  unfold group1. rewrite Hc. cbn [nth]. eapply exec_finds. exact HM.
Qed.

(** A pass whose expression matches in a text without [integrity=] makes
    the text longer. *)
Lemma pass_lengthens tag attr url hash input :
  exec true (rewriterRegex tag attr url) input <> None ->
  includes (txt "integrity=") input = false ->
  List.length input
  < List.length (replace true (rewriterRegex tag attr url)
                         (addIntegrity hash) input).
Proof.
  intros Hex Hfresh. rewrite replace_eq.
  destruct (exec true (rewriterRegex tag attr url) input) as [h|] eqn:E;
    [clear Hex|congruence].
  pose proof (exec_matches _ _ _ E) as HM.
  apply exec_some in E. destruct E as [Hs _].
  apply rewriterRegex_groups in HM.
  destruct HM as (o & c & Hcaps & Hm & Hc).
  assert (Ho : includes (txt "integrity=") o = false).
  { destruct (includes (txt "integrity=") o) eqn:Eo; [|reflexivity].
    rewrite Hs, Hm, <- app_assoc in Hfresh.
    rewrite (includes_app _ (before h) o (c ++ after h) Eo) in Hfresh.
    discriminate. }
  assert (Hle : List.length (after h)
                <= List.length (replace true (rewriterRegex tag attr url)
                                        (addIntegrity hash) (after h))).
  { apply Subseq_length, replace_Subseq. intros m caps.
    apply addIntegrity_Subseq. }
  rewrite Hs at 1. rewrite Hcaps.
  destruct (matched h) as [|x y] eqn:Em.
  - symmetry in Hm. apply app_eq_nil in Hm. destruct Hm as [_ Hm]. congruence.
  - rewrite Hm, addIntegrity_cases, Ho.
    rewrite !length_app. unfold sriAttributes. rewrite !length_app. simpl.
    lia.
Qed.
(** ** A located URL with a hash makes the text longer *)

Lemma pass_not_shorter tag attr url hash input :
  List.length input
  <= List.length (replace true (rewriterRegex tag attr url)
                          (addIntegrity hash) input).
Proof.
  apply Subseq_length, replace_Subseq. intros m caps.
  apply addIntegrity_Subseq.
Qed.

Lemma rewriteEntry_lengthens input u h :
  located u input -> h <> [] ->
  includes (txt "integrity=") input = false ->
  List.length input < List.length (rewriteEntry input (u, Some h)).
Proof.
  intros Hloc Hh Hfresh. destruct h as [|c h]; [congruence|].
  unfold rewriteEntry. set (hash := c :: h).
  destruct Hloc as [Hu|Hu].
  - rewrite scripts_keepFirst, keepFirst_In, in_map_iff in Hu.
    destruct Hu as (x & <- & Hin). apply located_is_matched in Hin.
    eapply Nat.lt_le_trans; [|apply pass_not_shorter].
    now apply pass_lengthens.
  - rewrite stylesheets_keepFirst, keepFirst_In, in_map_iff in Hu.
    destruct Hu as (x & <- & Hin). apply filter_In in Hin.
    destruct Hin as [Hin _]. apply located_is_matched in Hin.
    set (first := replace true (rewriterRegex "<script" "src=" (group1 x))
                          (addIntegrity hash) input).
    assert (Hsub : Subseq input first).
    { apply replace_Subseq. intros m caps. apply addIntegrity_Subseq. }
    destruct (Nat.eq_dec (List.length input) (List.length first)) as [E|E].
    + apply Subseq_same_length in Hsub; [|exact E]. rewrite <- Hsub.
      now apply pass_lengthens.
    + apply Subseq_length in Hsub.
      eapply Nat.lt_le_trans; [|apply pass_not_shorter]. lia.
Qed.

Lemma addSRI_not_shorter entries input :
  List.length input <= List.length (addSRIAttributesToHTML input entries).
Proof. apply Subseq_length, addSRI_Subseq. Qed.

Lemma addSRI_lengthens u h input entries :
  In (u, Some h) entries -> h <> [] -> located u input ->
  includes (txt "integrity=") input = false ->
  List.length input < List.length (addSRIAttributesToHTML input entries).
Proof.
  intros Hin Hh Hloc Hfresh. unfold addSRIAttributesToHTML.
  assert (Hgen : forall cur,
             cur = input \/ List.length input < List.length cur ->
             List.length input
             < List.length (fold_left rewriteEntry entries cur)).
  { induction entries as [|e entries IH]; intros cur Hcur; [destruct Hin|].
    cbn [fold_left].
    pose proof (Subseq_length (rewriteEntry_Subseq cur e)) as Hstep.
    pose proof (addSRI_not_shorter entries (rewriteEntry cur e)) as Hrest.
    unfold addSRIAttributesToHTML in Hrest.
    destruct Hcur as [->|Hcur]; [|lia].
    destruct Hin as [->|Hin].
    - pose proof (rewriteEntry_lengthens Hloc Hh Hfresh). lia.
    - apply (IH Hin).
      destruct (Nat.eq_dec (List.length input)
                           (List.length (rewriteEntry input e))) as [E|E].
      + left. symmetry.
        apply Subseq_same_length; [apply rewriteEntry_Subseq|exact E].
      + right. lia. }
  apply Hgen. now left.
Qed.
(** ** The orchestrator, case by case *)

Lemma log_resources l :
  forall w,
    fold_right (fun url k => log (LogResource url) ;;; k) (ret tt) l w
    = (Fulfilled tt, mkWorld (requests w) (console w ++ map LogResource l)).
Proof.
  induction l as [|u l IH]; intros w.
  - simpl. unfold ret. rewrite app_nil_r. now destruct w.
  - cbn [fold_right]. unfold bind at 1. unfold log at 1. rewrite IH.
    cbn [requests console map]. now rewrite <- app_assoc.
Qed.

Section OrchestratorFacts.

Variable digestBase64 : algorithm -> bytes -> text.
Variable network : nat -> client -> text -> fetchOutcome.

Lemma processHTMLForSRI_cases input options w :
  processHTMLForSRI digestBase64 network input options w =
  match allUrlsOf input with
  | [] => (Fulfilled (mkResult input (extractExternalResources input) []
                               false), w)
  | _ :: _ =>
      if skipFetchOf options
      then (Fulfilled (mkResult input (extractExternalResources input) []
                                false),
            mkWorld (requests w)
                    (console (announced w (allUrlsOf input))
                     ++ [LogSkipping]))
      else
        match generateSRIHashesForURLs digestBase64 network
                (allUrlsOf input) (algorithmOf options)
                (announced w (allUrlsOf input)) with
        | (Fulfilled hashes, w') =>
            (Fulfilled
               (mkResult (addSRIAttributesToHTML input hashes)
                         (extractExternalResources input) hashes
                         (negb (text_eqb
                                  (addSRIAttributesToHTML input hashes)
                                  input))), w')
        | (Rejected e, w') => (Rejected e, w')
        | (Pending, w') => (Pending, w')
        end
  end.
Proof.
  unfold processHTMLForSRI.
  fold (allUrlsOf input). fold (skipFetchOf options).
  fold (algorithmOf options).
  set (all := allUrlsOf input).
  assert (Hfound : forall (A : Type) (k : promise A),
             (log (LogFound (List.length all)) ;;;
              fold_right (fun url k => log (LogResource url) ;;; k)
                         (ret tt) all ;;; k) w
             = k (announced w all)).
  { intros A k. unfold bind at 1. unfold log at 1. unfold bind at 1.
    rewrite log_resources. cbn [requests console]. unfold announced.
    now rewrite <- app_assoc. }
  destruct all as [|u0 rest] eqn:Eall; [reflexivity|].
  cbn [List.length Nat.eqb]. rewrite Hfound.
  destruct (skipFetchOf options).
  - reflexivity.
  - unfold bind at 1.
    destruct (generateSRIHashesForURLs digestBase64 network (u0 :: rest)
                (algorithmOf options) (announced w (u0 :: rest)))
      as [[hashes|e|] w']; reflexivity.
Qed.

End OrchestratorFacts.
(** ** The URL pattern, exactly *)

Lemma run_lits_exact ic w :
  forall m s, sameText ic w m = true -> run ic (lits w) (m ++ s) = [(m, [], s)].
Proof.
  induction w as [|a w IH]; intros [|c m] s H; simpl in H; try discriminate.
  - reflexivity.
  - apply andb_true_iff in H. destruct H as [Hc H].
    change (lits (a :: w)) with (Seq (One (Lit a)) (lits w)).
    change ((c :: m) ++ s) with (c :: (m ++ s)).
    cbn [run]. change (map plain (step ic (Lit a) (c :: m ++ s)))
      with (run ic (One (Lit a)) (c :: m ++ s)).
    rewrite run_one. cbn [accepts]. rewrite Hc. cbn [flat_map].
    rewrite (IH m s H). reflexivity.
Qed.

Lemma startsWithCI_split w :
  forall s,
    startsWithCI w s = true ->
    sameText true w (firstn (List.length w) s) = true.
Proof.
  unfold startsWithCI.
  induction w as [|a w IH]; intros [|c s] H; simpl in H; try discriminate;
    try reflexivity.
  apply andb_true_iff in H. destruct H as [Hc H].
  cbn [List.length firstn sameText]. unfold sameChar. rewrite Hc.
  now apply IH.
Qed.

(** ** What a captured URL is made of *)

Lemma accepts_urlChar c : accepts true urlChar c = urlSafe c.
Proof. destruct c as [[] [] [] [] [] [] [] []]; reflexivity. Qed.

Lemma scheme_char_safe a c :
  In a (txt "https:/") -> sameChar true a c = true -> urlSafe c = true.
Proof.
  intros Ha.
  repeat (destruct Ha as [<-|Ha];
          [destruct c as [[] [] [] [] [] [] [] []]; vm_compute; intros H;
           try discriminate; reflexivity|]).
  destruct Ha.
Qed.

Lemma scheme_text_safe w :
  (forall a, In a w -> In a (txt "https:/")) ->
  forall m, sameText true w m = true -> forallb urlSafe m = true.
Proof.
  induction w as [|a w IH]; intros Hw [|c m] H; simpl in H; try discriminate;
    [reflexivity|].
  apply andb_true_iff in H. destruct H as [Hc H]. simpl.
  rewrite (@scheme_char_safe a c (Hw a (or_introl eq_refl)) Hc).
  apply IH; [|exact H]. intros x Hx. apply Hw. now right.
Qed.

Lemma forallb_urlChar m :
  forallb (accepts true urlChar) m = forallb urlSafe m.
Proof.
  induction m as [|c m IH]; cbn [forallb]; [reflexivity|].
  now rewrite accepts_urlChar, IH.
Qed.

(** The URL a locator expression captures: a scheme, at least one more
    code unit, and no quote, white space or [>] anywhere. *)
Lemma locatorRegex_url tag attr m caps :
  Matches true (locatorRegex tag attr) m caps ->
  exists u, caps = [u] /\ forallb urlSafe u = true /\ 8 <= List.length u.
Proof.
  unfold locatorRegex. intros H.
  apply Matches_seq_inv in H. destruct H as (t & ct & m1 & c1 & -> & -> & Ht & H).
  apply Matches_seq_inv in H. destruct H as (a & ca & m2 & c2 & -> & -> & Ha & H).
  apply Matches_seq_inv in H. destruct H as (n & cn & m3 & c3 & -> & -> & Hn & H).
  apply Matches_seq_inv in H. destruct H as (q1 & cq1 & m4 & c4 & -> & -> & Hq1 & H).
  apply Matches_seq_inv in H. destruct H as (g & cg & m5 & c5 & -> & -> & Hg & H).
  apply Matches_seq_inv in H. destruct H as (q2 & cq2 & m6 & c6 & -> & -> & Hq2 & H).
  apply Matches_seq_inv in H. destruct H as (b & cb & m7 & c7 & -> & -> & Hb & H).
  apply Matches_group_inv in Hg. destruct Hg as (cu & -> & Hg).
  pose proof (groupless_caps (ic := true) (groupless_lits (txt tag)) Ht) as E1.
  pose proof (groupless_caps (ic := true) (r := Plus notGt) eq_refl Ha) as E2.
  pose proof (groupless_caps (ic := true) (groupless_lits (txt attr)) Hn) as E3.
  pose proof (groupless_caps (ic := true) (r := Opt quote) eq_refl Hq1) as E4.
  pose proof (groupless_caps (ic := true) (r := Opt quote) eq_refl Hq2) as E5.
  pose proof (groupless_caps (ic := true) (r := Star notGt) eq_refl Hb) as E6.
  pose proof (groupless_caps (ic := true) (r := One (Lit ">"%char)) eq_refl H)
    as E7.
  pose proof Hg as Hcu. apply groupless_caps in Hcu; [|reflexivity].
  subst. exists g. split; [reflexivity|].
  apply Matches_seq_inv in Hg. destruct Hg as (u1 & ? & w1 & ? & -> & _ & Hu1 & Hg).
  apply Matches_seq_inv in Hg. destruct Hg as (u2 & ? & w2 & ? & -> & _ & Hu2 & Hg).
  apply Matches_seq_inv in Hg. destruct Hg as (u3 & ? & w3 & ? & -> & _ & Hu3 & Hg).
  apply Matches_lits in Hu1. destruct Hu1 as [_ Hu1].
  apply Matches_lits in Hu3. destruct Hu3 as [_ Hu3].
  apply Matches_plus_inv in Hg. destruct Hg as (_ & Hne & Hw3).
  apply Matches_opt_inv in Hu2. destruct Hu2 as (_ & Hu2).
  assert (H2 : forallb urlSafe u2 = true).
  { destruct Hu2 as [->|(c & -> & Hc)]; [reflexivity|].
    simpl. rewrite (@scheme_char_safe "s"%char c); [reflexivity| |exact Hc].
    simpl. tauto. }
  split.
  - rewrite forallb_urlChar in Hw3. rewrite !forallb_app, H2, Hw3.
    rewrite (@scheme_text_safe (txt "http")), (@scheme_text_safe (txt "://"));
      try assumption; try reflexivity;
      intros y Hy; simpl in *; tauto.
  - rewrite !length_app. apply sameText_length in Hu1, Hu3.
    rewrite Hu1, Hu3. destruct w3; [congruence|]. simpl. lia.
Qed.

(** ** Objects and the batch, continued *)

Lemma generateSRIHash_nonempty digestBase64 content alg :
  generateSRIHash digestBase64 content alg <> [].
Proof.
  unfold generateSRIHash. intros H. apply app_eq_nil in H.
  destruct H as [_ H]. discriminate.
Qed.

(** When no request gets a complete response with status 200, the batch
    records only nulls. *)
Lemma hashEach_all_fail digestBase64 network :
  (forall n c u chunks, network n c u <> Response 200 chunks) ->
  forall urls alg results w res w',
    hashEach digestBase64 network urls alg results w = (Fulfilled res, w') ->
    (forall k v, In (k, v) (ownEntries results) -> v = None) ->
    forall k v, In (k, v) (ownEntries res) -> v = None.
Proof.
  intros Hfail. induction urls as [|url more IH];
    intros alg results w res w' Hrun Hres.
  - simpl in Hrun. unfold ret in Hrun. inversion Hrun; subst. exact Hres.
  - destruct (settles (outcomeOf network w url)) eqn:Hs.
    + destruct (hashEach_cons digestBase64 network url more alg results w Hs)
        as [line Heq].
      rewrite Heq in Hrun. apply (IH _ _ _ _ _ Hrun).
      intros k v Hin.
      refine (@setProperty_values (fun v => v = None) results url _ _ Hres
                                  k v Hin).
      unfold recorded, outcomeOf.
      destruct (network _ _ url) as [code chunks|code chunks|msg|msg|] eqn:E;
        try reflexivity.
      destruct (code =? 200)%Z eqn:Ec; [|reflexivity].
      apply Z.eqb_eq in Ec. subst code. now destruct (Hfail _ _ _ _ E).
    + rewrite (hashEach_stalls digestBase64 network url more alg results w Hs)
        in Hrun.
      discriminate.
Qed.

Lemma addSRI_all_null input entries :
  (forall k v, In (k, v) entries -> v = None) ->
  addSRIAttributesToHTML input entries = input.
Proof.
  intros H. rewrite addSRI_filter.
  replace (filter hashed entries) with (@nil (text * hashValue));
    [reflexivity|].
  induction entries as [|[k v] entries IH]; [reflexivity|].
  cbn [filter]. rewrite (H k v (or_introl eq_refl)). cbn.
  apply IH. intros k' v' Hin. apply (H k' v'). now right.
Qed.

(** A located URL is absolute; so it is not the name [__proto__]. *)
Lemma located_url_absolute u input : located u input -> absoluteCI u = true.
Proof.
  assert (Hhit : forall tag attr h,
             In h (hits true (locatorRegex tag attr) input) ->
             absoluteCI (group1 h) = true).
  { intros tag attr h Hin. apply located_shape in Hin.
    destruct Hin as (pre & post & t & a & n & q1 & q2 & b & _ & _ & _ & _
                     & _ & _ & Habs & _).
    exact Habs. }
  intros [Hu|Hu].
  - rewrite scripts_keepFirst, keepFirst_In, in_map_iff in Hu.
    destruct Hu as (h & <- & Hin).
    now apply (Hhit "<script"%string "src="%string).
  - rewrite stylesheets_keepFirst, keepFirst_In, in_map_iff in Hu.
    destruct Hu as (h & <- & Hin). apply filter_In in Hin.
    destruct Hin as [Hin _]. now apply (Hhit "<link"%string "href="%string).
Qed.

(** ** The script *)

Lemma existsSync_lookup d p :
  existsSync d p = match lookup d p with Some _ => true | None => false end.
Proof.
  induction d as [|[q e] d IH]; [reflexivity|].
  cbn [existsSync existsb lookup fst].
  destruct (text_eqb q p); [reflexivity|]. exact IH.
Qed.

Lemma existsSync_read d p content :
  readFileSync d p = Some content -> existsSync d p = true.
Proof.
  rewrite existsSync_lookup. unfold readFileSync.
  destruct (lookup d p); [reflexivity|discriminate].
Qed.

Lemma lookup_store d p c q :
  lookup (store d p c) q
  = if text_eqb p q
    then match lookup d q with
         | Some (RegularFile _ r w) => Some (RegularFile c r w)
         | other => other
         end
    else lookup d q.
Proof.
  induction d as [|[r e] d IH]; cbn [store lookup].
  - now destruct (text_eqb p q).
  - destruct (text_eqb r p) eqn:E; cbn [lookup].
    + apply text_eqb_eq in E. subst r.
      destruct (text_eqb p q); [now destruct e|reflexivity].
    + rewrite IH. destruct (text_eqb r q) eqn:E'; [|reflexivity].
      apply text_eqb_eq in E'. subst r. now rewrite text_eqb_sym, E.
Qed.

Lemma lookup_app d p e q :
  lookup (d ++ [(p, e)]) q
  = match lookup d q with
    | Some x => Some x
    | None => if text_eqb p q then Some e else None
    end.
Proof.
  induction d as [|[r x] d IH]; cbn [app lookup]; [reflexivity|].
  destruct (text_eqb r q); [reflexivity|exact IH].
Qed.

(** What is at a path after a file has been written. *)
Lemma write_lookup d p c d' q :
  writeFileSync d p c = Some d' ->
  lookup d' q
  = if text_eqb p q
    then match lookup d q with
         | Some (RegularFile _ r w) => Some (RegularFile c r w)
         | Some Directory => Some Directory
         | None => Some (RegularFile c true true)
         end
    else lookup d q.
Proof.
  unfold writeFileSync.
  destruct (lookup d p) as [[|old r [|]]|] eqn:E; try discriminate;
    intros H; inversion H; subst d'; clear H.
  - rewrite lookup_store.
    destruct (text_eqb p q) eqn:E'; [|reflexivity].
    apply text_eqb_eq in E'. subst q. now rewrite E.
  - rewrite lookup_app. destruct (text_eqb p q) eqn:E'.
    + apply text_eqb_eq in E'. subst q. now rewrite E.
    + now destruct (lookup d q).
Qed.

Lemma read_write_same d p c d' old :
  writeFileSync d p c = Some d' -> readFileSync d p = Some old ->
  readFileSync d' p = Some c.
Proof.
  intros Hw Hr. unfold readFileSync in *.
  rewrite (write_lookup _ _ _ p Hw), text_eqb_refl.
  destruct (lookup d p) as [[|x [|] w]|]; try discriminate. reflexivity.
Qed.

Lemma read_write_other d p c d' q :
  writeFileSync d p c = Some d' -> q <> p ->
  readFileSync d' q = readFileSync d q.
Proof.
  intros Hw Hne. unfold readFileSync.
  rewrite (write_lookup _ _ _ q Hw), text_eqb_neq by congruence.
  reflexivity.
Qed.

Lemma existsSync_write d p c d' q :
  existsSync d p = true -> writeFileSync d p c = Some d' ->
  existsSync d' q = existsSync d q.
Proof.
  intros Hp Hw. rewrite !existsSync_lookup in *.
  rewrite (write_lookup _ _ _ q Hw).
  destruct (text_eqb p q) eqn:E; [|reflexivity].
  apply text_eqb_eq in E. subst q.
  now destruct (lookup d p) as [[|]|].
Qed.

Lemma processable_write d p c d' q :
  existsSync d p = true -> writeFileSync d p c = Some d' ->
  processable d' q = processable d q.
Proof.
  intros Hp Hw. rewrite existsSync_lookup in Hp. unfold processable.
  rewrite (write_lookup _ _ _ q Hw).
  destruct (text_eqb p q) eqn:E; [|reflexivity].
  apply text_eqb_eq in E. subst q.
  now destruct (lookup d p) as [[|]|].
Qed.

Lemma forallb_same (A : Type) (f g : A -> bool) l :
  (forall x, f x = g x) -> forallb f l = forallb g l.
Proof.
  intros H. induction l as [|x l IH]; cbn; [reflexivity|].
  now rewrite H, IH.
Qed.

Lemma everySettles_all network n urls :
  everySettles network -> allSettle network n urls = true.
Proof.
  intros H. revert n. induction urls as [|u urls IH]; intros n;
    [reflexivity|].
  cbn [allSettle]. now rewrite H, IH.
Qed.

Section ScriptFacts.

Variable digestBase64 : algorithm -> bytes -> text.
Variable network : nat -> client -> text -> fetchOutcome.
Variable indexPath notFoundPath : text.

(** The batch of the orchestrator is fulfilled when its requests all
    settle and stays pending otherwise. *)
Lemma batch_run urls alg w :
  if allSettle network (List.length (requests w)) urls
  then exists hs w',
      generateSRIHashesForURLs digestBase64 network urls alg w
      = (Fulfilled hs, w') /\
      requests w' = requests w ++ urls /\
      incl (keys hs) urls
  else exists i u w',
      generateSRIHashesForURLs digestBase64 network urls alg w
      = (Pending, w') /\
      nth_error urls i = Some u /\
      settles (network (List.length (requests w) + i) (clientFor u) u)
      = false /\
      requests w' = requests w ++ firstn (S i) urls.
Proof.
  rewrite batch_hashEach.
  destruct (allSettle network (List.length (requests w)) urls) eqn:Hall.
  - destruct (hashEach_total digestBase64 network urls alg (mkObject true [])
                w Hall)
      as (res & w' & Hrun & Hreq & _ & Hincl & _).
    rewrite Hrun. exists (ownEntries res), w'.
    split; [reflexivity|]. split; [exact Hreq|].
    intros u Hu. apply Hincl in Hu. destruct Hu as [[]|Hu]. exact Hu.
  - destruct (hashEach_pending digestBase64 network urls alg
                (mkObject true []) w Hall)
      as (i & u & w' & Hrun & Hi & Hs & _ & Hreq).
    rewrite Hrun. exists i, u, w'. auto.
Qed.

Lemma orchestrator_settles input options w :
  if skipFetchOf options
     || allSettle network (List.length (requests w)) (allUrlsOf input)
  then exists res w',
      processHTMLForSRI digestBase64 network input options w
      = (Fulfilled res, w') /\
      Subseq input (html res) /\
      requests w'
      = requests w ++ (if skipFetchOf options then [] else allUrlsOf input) /\
      modified res = negb (text_eqb (html res) input)
  else exists w',
      processHTMLForSRI digestBase64 network input options w = (Pending, w').
Proof.
  rewrite processHTMLForSRI_cases.
  destruct (allUrlsOf input) as [|u0 rest] eqn:Eall.
  - rewrite orb_true_r.
    eexists. eexists. split; [reflexivity|]. cbn.
    rewrite text_eqb_refl. repeat split.
    + apply Subseq_refl.
    + destruct (skipFetchOf options); now rewrite app_nil_r.
  - destruct (skipFetchOf options); cbn [orb].
    + eexists. eexists. split; [reflexivity|]. cbn.
      rewrite text_eqb_refl, app_nil_r. repeat split.
      apply Subseq_refl.
    + pose proof (batch_run (u0 :: rest) (algorithmOf options)
                            (announced w (u0 :: rest))) as Hb.
      change (requests (announced w (u0 :: rest))) with (requests w) in Hb.
      destruct (allSettle network (List.length (requests w)) (u0 :: rest)).
      * destruct Hb as (hs & w' & Hrun & Hreq & _).
        rewrite Hrun. eexists. eexists. split; [reflexivity|]. cbn.
        repeat split.
        -- apply addSRI_Subseq.
        -- exact Hreq.
      * destruct Hb as (i & u & w' & Hrun & _).
        rewrite Hrun. eexists. reflexivity.
Qed.

(** What one call of [processFile] does, case by case. *)
Lemma processFile_run filePath options m :
  match lookup (disk m) filePath with
  | None =>
      exists m',
        processFile digestBase64 network filePath options m
        = (Fulfilled false, m') /\
        sent m' = sent m /\ disk m' = disk m
  | Some (RegularFile content true writable) =>
      if allSettle network (List.length (sent m)) (allUrlsOf content)
      then exists res w' m',
          processHTMLForSRI digestBase64 network content
            (mkOptions (Some (fileAlgorithmOf options)) (Some false))
            (mkWorld (sent m) [])
          = (Fulfilled res, w') /\
          Subseq content (html res) /\
          modified res = negb (text_eqb (html res) content) /\
          processFile digestBase64 network filePath options m
          = (Fulfilled (negb (modified res) || dryRunOf options || writable),
             m') /\
          sent m' = sent m ++ allUrlsOf content /\
          disk m'
          = if modified res && negb (dryRunOf options) && writable
            then store (disk m) filePath (html res) else disk m
      else exists m',
          processFile digestBase64 network filePath options m
          = (Pending, m') /\
          disk m' = disk m
  | Some _ =>
      exists m',
        processFile digestBase64 network filePath options m
        = (Rejected (fsError (disk m) filePath true), m') /\
        sent m' = sent m /\ disk m' = disk m
  end.
Proof.
  unfold processFile. cbn [say disk sent printed].
  rewrite existsSync_lookup. unfold readFileSync, writeFileSync.
  destruct (lookup (disk m) filePath) as [[|content [|] writable]|] eqn:El;
    cbn [negb]; try (eexists; split; [reflexivity|]; cbn; auto).
  fold (fileAlgorithmOf options). fold (dryRunOf options).
  match goal with
  | |- context [processHTMLForSRI _ _ _ ?o ?w] =>
      pose proof (orchestrator_settles content o w) as Ho
  end.
  cbn [skipFetchOf optSkipFetch orb requests] in Ho.
  destruct (allSettle network (List.length (sent m)) (allUrlsOf content)).
  - destruct Ho as (res & w' & Hrun & Hsub & Hreq & Hmod).
    rewrite Hrun. exists res, w'.
    destruct (modified res) eqn:Em; cbn [negb andb orb].
    + destruct (dryRunOf options) eqn:Edry; cbn [negb andb orb].
      * eexists. repeat split; try eassumption; cbn; auto.
      * destruct writable; eexists; repeat split; try eassumption;
          cbn; auto.
    + eexists. repeat split; try eassumption; cbn; auto.
  - destruct Ho as (w' & Hrun). rewrite Hrun.
    eexists. split; reflexivity.
Qed.

(** What a call of [processFile] does to the files, however it ends. *)
Lemma processFile_effect filePath options m :
  disk (snd (processFile digestBase64 network filePath options m)) = disk m \/
  dryRunOf options = false /\
  exists content html',
    readFileSync (disk m) filePath = Some content /\
    Subseq content html' /\ html' <> content /\
    writeFileSync (disk m) filePath html'
    = Some (disk (snd (processFile digestBase64 network filePath options
                                    m))).
Proof.
  pose proof (processFile_run filePath options m) as H.
  unfold readFileSync, writeFileSync.
  destruct (lookup (disk m) filePath) as [[|content [|] writable]|] eqn:El.
  - destruct H as (m' & -> & _ & Hd). now left.
  - destruct (allSettle network (List.length (sent m)) (allUrlsOf content)).
    + destruct H as (res & w' & m' & _ & Hsub & Hmod & -> & _ & Hd).
      cbn [snd]. rewrite Hd.
      destruct (modified res) eqn:Em; cbn [andb]; [|now left].
      destruct (dryRunOf options) eqn:Edry; cbn [negb andb]; [now left|].
      destruct writable; cbn [andb]; [|now left].
      right. split; [reflexivity|]. exists content, (html res).
      repeat split; auto.
      intros Heq. rewrite Heq, text_eqb_refl in Hmod. discriminate.
    + destruct H as (m' & -> & Hd). now left.
  - destruct H as (m' & -> & _ & Hd). now left.
  - destruct H as (m' & -> & _ & Hd). now left.
Qed.

Lemma processFile_keeps_files filePath options m q :
  existsSync (disk (snd (processFile digestBase64 network filePath options m))) q
  = existsSync (disk m) q.
Proof.
  destruct (processFile_effect filePath options m)
    as [Hd | (_ & content & html' & Hread & _ & _ & Hd)];
    [now rewrite Hd|].
  eapply existsSync_write; [|exact Hd].
  now apply existsSync_read with (content := content).
Qed.

Lemma processFile_keeps_rights filePath options m q :
  processable
    (disk (snd (processFile digestBase64 network filePath options m))) q
  = processable (disk m) q.
Proof.
  destruct (processFile_effect filePath options m)
    as [Hd | (_ & content & html' & Hread & _ & _ & Hd)];
    [now rewrite Hd|].
  eapply processable_write; [|exact Hd].
  now apply existsSync_read with (content := content).
Qed.

(** What the loop does to the files, however it ends. *)
Lemma processAll_effect files options :
  forall allSuccess m,
    let m' := snd (processAll digestBase64 network files options allSuccess m)
    in
    (forall q, existsSync (disk m') q = existsSync (disk m) q) /\
    (dryRunOf options = true -> disk m' = disk m) /\
    (forall q, ~ In q files ->
               readFileSync (disk m') q = readFileSync (disk m) q) /\
    (forall q html, readFileSync (disk m) q = Some html ->
       exists html', readFileSync (disk m') q = Some html' /\
                     Subseq html html').
Proof.
  induction files as [|p more IH]; intros allSuccess m.
  - cbn. repeat split; auto.
    intros q html H. exists html. split; [exact H|apply Subseq_refl].
  - cbn [processAll].
    pose proof (processFile_keeps_files p options m) as Hkeep.
    pose proof (processFile_effect p options m) as Hdisk.
    assert (Hone :
              (dryRunOf options = true ->
               disk (snd (processFile digestBase64 network p options m))
               = disk m) /\
              (forall q, q <> p ->
                 readFileSync
                   (disk (snd (processFile digestBase64 network p options m)))
                   q
                 = readFileSync (disk m) q) /\
              (forall q html, readFileSync (disk m) q = Some html ->
                 exists html',
                   readFileSync
                     (disk (snd (processFile digestBase64 network p options
                                             m))) q
                   = Some html' /\ Subseq html html')).
    { destruct Hdisk as [Hd1 | (Hdry & h & h' & Hr & Hs & _ & Hd1)].
      - rewrite Hd1. repeat split; auto.
        intros q html H. exists html. split; [exact H|apply Subseq_refl].
      - split; [congruence|]. split.
        + intros q Hq. eapply read_write_other; eauto.
        + intros q html Hq.
          destruct (list_eq_dec ascii_dec q p) as [->|Hne].
          * erewrite read_write_same by eauto. exists h'.
            split; [reflexivity|]. congruence.
          * erewrite read_write_other by eauto.
            exists html. split; [exact Hq|apply Subseq_refl]. }
    destruct Hone as (Hdry1 & Hother1 & Hsub1).
    destruct (processFile digestBase64 network p options m)
      as [[success|e|] m1]; cbn [snd] in *.
    + destruct (IH (if negb success then false else allSuccess) m1)
        as (Hex & Hdry & Hother & Hsub).
      split; [|split; [|split]].
      * intros q. now rewrite Hex, Hkeep.
      * intros Hd. now rewrite (Hdry Hd), Hdry1.
      * intros q Hq. rewrite Hother by (intros H; apply Hq; now right).
        apply Hother1. intros ->. apply Hq. now left.
      * intros q html Hq.
        destruct (Hsub1 q html Hq) as (h1 & Hr1 & Hs1).
        destruct (Hsub q h1 Hr1) as (h2 & Hr2 & Hs2).
        exists h2. split; [exact Hr2|]. eapply Subseq_trans; eauto.
    + split; [exact Hkeep|]. split; [exact Hdry1|]. split; [|exact Hsub1].
      intros q Hq. apply Hother1. intros ->. apply Hq. now left.
    + split; [exact Hkeep|]. split; [exact Hdry1|]. split; [|exact Hsub1].
      intros q Hq. apply Hother1. intros ->. apply Hq. now left.
Qed.

(** When every request settles and every file is missing or can be read
    and written, the loop comes to its end and tells whether every file
    exists. *)
Lemma processAll_run files options :
  everySettles network ->
  forall allSuccess m,
    forallb (processable (disk m)) files = true ->
    exists m',
      processAll digestBase64 network files options allSuccess m
      = (Fulfilled (allSuccess
                    && forallb (fun p => existsSync (disk m) p) files), m').
Proof.
  intros Hnet. induction files as [|p more IH]; intros allSuccess m Hfiles.
  - exists m. cbn. now rewrite andb_true_r.
  - cbn [processAll forallb] in *.
    apply andb_true_iff in Hfiles. destruct Hfiles as [Hp Hmore].
    pose proof (processFile_keeps_files p options m) as Hkeep.
    pose proof (processFile_keeps_rights p options m) as Hrights.
    pose proof (processFile_run p options m) as Hrun.
    rewrite existsSync_lookup. unfold processable in Hp.
    destruct (lookup (disk m) p) as [[|content [|] [|]]|] eqn:El;
      try discriminate.
    + rewrite everySettles_all in Hrun by exact Hnet.
      destruct Hrun as (res & w' & m1 & _ & _ & _ & Hrun & _).
      rewrite orb_true_r in Hrun. rewrite Hrun in *. cbn [snd negb] in *.
      destruct (IH allSuccess m1) as (m' & Hall).
      { rewrite (@forallb_same _ (processable (disk m1))
                   (processable (disk m)) more Hrights). exact Hmore. }
      exists m'. rewrite Hall. cbn [andb].
      now rewrite (@forallb_same _ (fun q => existsSync (disk m1) q)
                     (fun q => existsSync (disk m) q) more Hkeep).
    + destruct Hrun as (m1 & Hrun & _).
      rewrite Hrun in *. cbn [snd negb] in *.
      destruct (IH false m1) as (m' & Hall).
      { rewrite (@forallb_same _ (processable (disk m1))
                   (processable (disk m)) more Hrights). exact Hmore. }
      exists m'. rewrite Hall. cbn [andb]. now rewrite andb_false_r.
Qed.

End ScriptFacts.

Section MainFacts.

Variable digestBase64 : algorithm -> bytes -> text.
Variable network : nat -> client -> text -> fetchOutcome.
Variable indexPath notFoundPath : text.

(** [main] is the loop over its files, between the banner and the last
    line. *)
Lemma main_run argv m :
  exists m0,
    disk m0 = disk m /\
    main digestBase64 network indexPath notFoundPath argv m
    = match processAll digestBase64 network
              (filesOf indexPath notFoundPath argv)
              (mkFileOptions (Some (asksDryRun argv)) (Some sha384)) true m0
      with
      | (Fulfilled allSuccess, m') =>
          if allSuccess then (Fulfilled Returned, say LineAllDone m')
          else (Fulfilled (Exit 1), say LineSomeFailed m')
      | (Rejected e, m') => (Rejected e, m')
      | (Pending, m') => (Pending, m')
      end.
Proof.
  unfold main, filesOf. fold (asksDryRun argv).
  destruct (filter (fun arg => negb (startsWith (txt "-") arg)) (skipn 2 argv))
    as [|p ps]; cbn [List.length Nat.eqb];
    eexists; (split; [|reflexivity]); reflexivity.
Qed.

(** What [main] does to the files, however it ends. *)
Lemma main_effect argv m :
  let m' := snd (main digestBase64 network indexPath notFoundPath argv m) in
  (asksDryRun argv = true -> disk m' = disk m) /\
  (forall q, ~ In q (filesOf indexPath notFoundPath argv) ->
             readFileSync (disk m') q = readFileSync (disk m) q) /\
  (forall q html, readFileSync (disk m) q = Some html ->
     exists html', readFileSync (disk m') q = Some html' /\
                   Subseq html html').
Proof.
  destruct (main_run argv m) as (m0 & Hd0 & ->).
  pose proof (processAll_effect digestBase64 network
                (filesOf indexPath notFoundPath argv)
                (mkFileOptions (Some (asksDryRun argv)) (Some sha384)) true m0)
    as (_ & Hdry & Hother & Hsub).
  rewrite Hd0 in *.
  destruct (processAll digestBase64 network _ _ true m0)
    as [[[|]|e|] m1]; cbn [snd say disk] in *; repeat split; auto.
Qed.

End MainFacts.

(** ** What a changed text holds *)

Lemma startsWith_prefix w s : startsWith w (w ++ s) = true.
Proof.
  induction w as [|a w IH]; [reflexivity|].
  cbn. now rewrite Ascii.eqb_refl.
Qed.

Lemma startsWith_split w :
  forall s, startsWith w s = true -> exists post, s = w ++ post.
Proof.
  induction w as [|a w IH]; intros s H.
  - now exists s.
  - destruct s as [|c s]; [discriminate|]. cbn in H.
    apply andb_true_iff in H. destruct H as [Hc H].
    apply Ascii.eqb_eq in Hc. subst c.
    destruct (IH s H) as [post ->]. now exists post.
Qed.

Lemma includes_iff w s :
  includes w s = true <-> exists pre post, s = pre ++ w ++ post.
Proof.
  split.
  - induction s as [|c s IH]; cbn [includes]; intros H.
    + rewrite orb_false_r in H. apply startsWith_split in H.
      destruct H as [post ->]. now exists [], post.
    + apply orb_true_iff in H. destruct H as [H|H].
      * apply startsWith_split in H. destruct H as [post ->].
        now exists [], post.
      * destruct (IH H) as (pre & post & ->). now exists (c :: pre), post.
  - intros (pre & post & ->). apply includes_app.
    destruct w as [|a w]; [reflexivity|]. cbn [includes].
    pose proof (startsWith_prefix (a :: w) []) as H.
    rewrite app_nil_r in H. now rewrite H.
Qed.

Lemma includes_trans a b c :
  includes a b = true -> includes b c = true -> includes a c = true.
Proof.
  rewrite !includes_iff. intros (p1 & q1 & ->) (p2 & q2 & ->).
  exists (p2 ++ p1), (q1 ++ q2). now rewrite <- !app_assoc.
Qed.

Lemma includes_here w pre post : includes w (pre ++ w ++ post) = true.
Proof. apply includes_iff. now exists pre, post. Qed.

(** One pass of the rewriter leaves the text as it is, or its result holds
    the two attributes with the hash of the pass. *)
Lemma pass_changed tag attr url hash :
  forall n s,
    List.length s < n ->
    replace true (rewriterRegex tag attr url) (addIntegrity hash) s = s \/
    includes (sriAttributes hash)
             (replace true (rewriterRegex tag attr url) (addIntegrity hash) s)
    = true.
Proof.
  induction n as [|n IH]; intros s Hn; [lia|].
  rewrite replace_eq.
  destruct (exec true (rewriterRegex tag attr url) s) as [h|] eqn:E;
    [|now left].
  pose proof (exec_length _ _ _ E) as Hlen.
  pose proof (exec_matches _ _ _ E) as HM.
  apply exec_some in E. destruct E as [Hs _].
  apply rewriterRegex_groups in HM.
  destruct HM as (opening & closing & Hcaps & Hm & Hne).
  rewrite Hcaps.
  destruct (matched h) as [|x y] eqn:Em.
  { symmetry in Hm. apply app_eq_nil in Hm. destruct Hm as [_ Hm].
    congruence. }
  rewrite Hm, addIntegrity_cases.
  cbn [List.length] in Hlen.
  destruct (includes (txt "integrity=") opening).
  - destruct (IH (after h)) as [Hr|Hr]; [lia| |].
    + left. rewrite Hr, Hs, Hm. reflexivity.
    + right. rewrite app_assoc.
      rewrite <- (app_nil_r (replace _ _ _ _)).
      now apply includes_app.
  - right.
    replace (before h ++ (opening ++ sriAttributes hash ++ closing)
             ++ replace true (rewriterRegex tag attr url)
                        (addIntegrity hash) (after h))
      with ((before h ++ opening) ++ sriAttributes hash
            ++ (closing ++ replace true (rewriterRegex tag attr url)
                                   (addIntegrity hash) (after h)))
      by (now rewrite <- !app_assoc).
    apply includes_here.
Qed.

Lemma rewriteEntry_changed input url hash :
  rewriteEntry input (url, hash) = input \/
  exists h, hash = Some h /\ h <> [] /\
            includes (sriAttributes h) (rewriteEntry input (url, hash)) = true.
Proof.
  destruct hash as [[|c h]|]; [now left| |now left].
  cbn [rewriteEntry].
  set (s1 := replace true (rewriterRegex "<script" "src=" url)
                     (addIntegrity (c :: h)) input).
  destruct (@pass_changed "<link" "href=" url (c :: h) _ s1 (Nat.lt_succ_diag_r _))
    as [H2|H2].
  - rewrite H2. subst s1.
    destruct (@pass_changed "<script" "src=" url (c :: h) _ input
                (Nat.lt_succ_diag_r _)) as [H1|H1].
    + now left.
    + right. exists (c :: h). repeat split; [discriminate|exact H1].
  - right. exists (c :: h). repeat split; [discriminate|exact H2].
Qed.

Lemma addSRI_changed entries :
  forall input,
    addSRIAttributesToHTML input entries = input \/
    exists url h,
      In (url, Some h) entries /\ h <> [] /\
      includes (sriAttributes h) (addSRIAttributesToHTML input entries) = true.
Proof.
  unfold addSRIAttributesToHTML.
  induction entries as [|[url hash] more IH]; intros input; [now left|].
  cbn [fold_left].
  destruct (IH (rewriteEntry input (url, hash))) as [Hr|(u & h & Hin & Hne & Hinc)].
  - rewrite Hr.
    destruct (rewriteEntry_changed input url hash) as [H|(h & -> & Hne & Hinc)].
    + now left.
    + right. exists url, h. repeat split; auto. now left.
  - right. exists u, h. repeat split; auto. now right.
Qed.

(** ** The DOCTYPE check *)

Lemma isSpace_canonicalize c : isSpace (canonicalize c) = isSpace c.
Proof. destruct c as [[] [] [] [] [] [] [] []]; reflexivity. Qed.

Lemma canonicalize_lt c : canonicalize c = "<"%char -> c = "<"%char.
Proof. destruct c as [[] [] [] [] [] [] [] []]; cbv; congruence. Qed.

Lemma startsWithCI_cons a w c s :
  startsWithCI (a :: w) (c :: s)
  = Ascii.eqb (canonicalize a) (canonicalize c) && startsWithCI w s.
Proof. reflexivity. Qed.

Lemma testAtStart_lits w s :
  testAtStart true (lits w) s = startsWithCI w s.
Proof.
  unfold testAtStart.
  destruct (startsWithCI w s) eqn:E.
  - pose proof (startsWithCI_split _ _ E) as H.
    rewrite <- (firstn_skipn (List.length w) s).
    now rewrite (@run_lits_exact true w _ _ H).
  - now rewrite run_lits_none.
Qed.

Lemma startsWithCI_spaces w :
  forall ws,
    forallb isSpace ws = true -> startsWithCI w ws = true ->
    forallb isSpace w = true.
Proof.
  induction w as [|a w IH]; intros [|c ws] Hws H; try reflexivity;
    try discriminate.
  rewrite startsWithCI_cons in H. apply andb_true_iff in H.
  destruct H as [Hc H]. apply Ascii.eqb_eq in Hc.
  cbn [forallb] in *. apply andb_true_iff in Hws. destruct Hws as [Hs Hws].
  rewrite (IH ws Hws H), andb_true_r.
  now rewrite <- isSpace_canonicalize, Hc, isSpace_canonicalize.
Qed.

Lemma startsWithCI_trimmed w :
  forall t ws,
    endsNonSpace w = true -> forallb isSpace ws = true ->
    startsWithCI w (t ++ ws) = true -> startsWithCI w t = true.
Proof.
  induction w as [|a w IH]; intros t ws Hend Hws H; [reflexivity|].
  cbn [endsNonSpace] in Hend. apply andb_true_iff in Hend.
  destruct Hend as [Hns Hend].
  destruct t as [|c t].
  - cbn [app] in H. rewrite (startsWithCI_spaces _ _ Hws H) in Hns.
    discriminate.
  - cbn [app] in H. rewrite startsWithCI_cons in *.
    apply andb_true_iff in H. destruct H as [-> H].
    now apply IH in H.
Qed.

Lemma trimStart_spaces s :
  exists ws, s = ws ++ trimStart s /\ forallb isSpace ws = true.
Proof.
  induction s as [|c s (ws & IH & Hws)]; [now exists []|].
  cbn [trimStart]. destruct (isSpace c) eqn:E.
  - exists (c :: ws). cbn. rewrite E, Hws. split; [now f_equal|reflexivity].
  - now exists [].
Qed.

Lemma trimEnd_spaces s :
  exists ws, s = trimEnd s ++ ws /\ forallb isSpace ws = true.
Proof.
  unfold trimEnd. destruct (trimStart_spaces (rev s)) as (ws & H & Hws).
  exists (rev ws). split.
  - rewrite <- rev_app_distr, <- H. now rewrite rev_involutive.
  - rewrite forallb_forall in *. intros x Hx. apply Hws. now apply in_rev.
Qed.

(** The check looks at the text after its leading white space, and the
    trimming of the end does not matter. *)
Lemma checkDoctype_valid s :
  checkValid (checkDoctype s)
  = startsWithCI (txt "<!DOCTYPE html>") (trimStart s).
Proof.
  unfold checkDoctype, doctypeRegex, trim. cbn [checkValid].
  rewrite testAtStart_lits.
  destruct (trimEnd_spaces (trimStart s)) as (ws & H & Hws).
  destruct (startsWithCI (txt "<!DOCTYPE html>") (trimStart s)) eqn:E.
  - rewrite H in E. eapply startsWithCI_trimmed; eauto.
  - destruct (startsWithCI _ (trimEnd _)) eqn:E2; [|reflexivity].
    rewrite H in E. now rewrite (startsWithCI_app _ _ ws E2) in E.
Qed.

Lemma checkDoctype_same s t :
  startsWithCI (txt "<!DOCTYPE html>") (trimStart s)
  = startsWithCI (txt "<!DOCTYPE html>") (trimStart t) ->
  checkDoctype s = checkDoctype t.
Proof.
  intros H. rewrite <- !checkDoctype_valid in H.
  unfold checkDoctype in *. cbn [checkValid] in H. now rewrite H.
Qed.

(** A text without [<] starts a text that goes on with [<] only when it
    starts what is before it. *)
Lemma startsWithCI_before_lt w :
  forall bs rest,
    forallb (fun a => negb (Ascii.eqb a "<"%char)) w = true ->
    startsWithCI w (bs ++ "<"%char :: rest) = startsWithCI w bs.
Proof.
  induction w as [|a w IH]; intros bs rest Hw; [reflexivity|].
  cbn [forallb] in Hw. apply andb_true_iff in Hw. destruct Hw as [Ha Hw].
  destruct bs as [|b bs].
  - cbn [app]. rewrite startsWithCI_cons.
    destruct (Ascii.eqb (canonicalize a) (canonicalize "<"%char)) eqn:E;
      [|reflexivity].
    apply Ascii.eqb_eq in E. change (canonicalize "<"%char) with "<"%char in E.
    apply canonicalize_lt in E. subst a. discriminate.
  - cbn [app]. rewrite !startsWithCI_cons. now rewrite IH.
Qed.

(** What follows a tag that is not a declaration does not matter to the
    check. *)
Lemma doctype_before_tag pre c rest :
  canonicalize c <> "!"%char ->
  startsWithCI (txt "<!DOCTYPE html>") (trimStart (pre ++ "<"%char :: c :: rest))
  = startsWithCI (txt "<!DOCTYPE html>") (trimStart pre).
Proof.
  intros Hc. induction pre as [|b pre IH].
  - cbn [app trimStart]. change (isSpace "<"%char) with false. cbn iota.
    change (txt "<!DOCTYPE html>")
      with ("<"%char :: "!"%char :: txt "DOCTYPE html>").
    rewrite !startsWithCI_cons.
    destruct (Ascii.eqb (canonicalize "!"%char) (canonicalize c)) eqn:E.
    + apply Ascii.eqb_eq in E. symmetry in E. contradiction.
    + now rewrite andb_false_r.
  - cbn [app trimStart]. destruct (isSpace b); [exact IH|].
    change (txt "<!DOCTYPE html>") with ("<"%char :: txt "!DOCTYPE html>").
    rewrite !startsWithCI_cons. f_equal.
    now apply startsWithCI_before_lt.
Qed.

(** A match of the rewriter starts with its tag name. *)
Lemma rewriterRegex_opening tag attr url m caps :
  Matches true (rewriterRegex tag attr url) m caps ->
  exists head rest closing,
    sameText true (txt tag) head = true /\
    caps = [head ++ rest; closing] /\ m = (head ++ rest) ++ closing.
Proof.
  intros H. unfold rewriterRegex in H.
  apply Matches_seq_inv in H.
  destruct H as (m1 & c1 & m2 & c2 & -> & -> & H1 & H2).
  apply Matches_group_inv in H1. destruct H1 as (c1' & -> & H1).
  apply Matches_group_inv in H2. destruct H2 as (c2' & -> & H2).
  apply Matches_seq_inv in H1.
  destruct H1 as (head & ch & rest & cr & -> & -> & Hh & Hr).
  apply Matches_lits in Hh. destruct Hh as [-> Hh].
  exists head, rest, m2. split; [exact Hh|]. split; [|reflexivity].
  pose proof (rewriterRegex_groups
                (MSeq (MGroup (MSeq (Matches_lits_intro _ _ _ Hh) Hr))
                      (MGroup H2))) as (o & c & Ho & Hm & _).
  cbn [app] in Ho. injection Ho as <- Ho.
  apply app_inv_head in Hm. subst c.
  cbn [app]. f_equal. exact Ho.
Qed.

Lemma pass_keeps_doctype tag attr url hash a t s :
  txt tag = "<"%char :: a :: t -> canonicalize a <> "!"%char ->
  checkDoctype (replace true (rewriterRegex tag attr url)
                        (addIntegrity hash) s)
  = checkDoctype s.
Proof.
  intros Htag Ha. rewrite replace_eq.
  destruct (exec true (rewriterRegex tag attr url) s) as [h|] eqn:E;
    [|reflexivity].
  pose proof (exec_matches _ _ _ E) as HM.
  apply exec_some in E. destruct E as [Hs _].
  apply rewriterRegex_opening in HM.
  destruct HM as (head & rest & closing & Hh & Hcaps & Hm).
  rewrite Htag in Hh.
  destruct head as [|x [|c head]]; cbn [sameText sameChar] in Hh;
    try discriminate;
    [now rewrite andb_false_r in Hh|].
  apply andb_true_iff in Hh. destruct Hh as [Hx Hh].
  apply andb_true_iff in Hh. destruct Hh as [Hc _].
  apply Ascii.eqb_eq in Hx, Hc.
  change (canonicalize "<"%char) with "<"%char in Hx.
  symmetry in Hx. apply canonicalize_lt in Hx. subst x.
  rewrite Hc in Ha.
  rewrite Hcaps, Hm, addIntegrity_cases.
  apply checkDoctype_same. rewrite Hs, Hm. cbn [app].
  destruct (includes _ _); cbn [app]; now rewrite !doctype_before_tag.
Qed.

Lemma rewriteEntry_keeps_doctype input entry :
  checkDoctype (rewriteEntry input entry) = checkDoctype input.
Proof.
  destruct entry as [url [[|c h]|]]; try reflexivity.
  cbn [rewriteEntry].
  rewrite (@pass_keeps_doctype "<link" "href=" url (c :: h) "l"%char
             (txt "ink")) by (reflexivity || discriminate).
  now rewrite (@pass_keeps_doctype "<script" "src=" url (c :: h) "s"%char
                 (txt "cript")) by (reflexivity || discriminate).
Qed.

(** ** The escaping of the page generator *)

(** A global replacement of single code units goes through the text one
    code unit at a time. *)
Lemma replace_one ic a f s :
  replace ic (One a) f s
  = flat_map (fun c => if accepts ic a c then f [c] [] else [c]) s.
Proof.
  induction s as [|c s IH]; [reflexivity|].
  rewrite replace_eq, exec_cons, run_one. cbn [flat_map].
  destruct (accepts ic a c) eqn:E.
  - cbn [before matched groups after app]. now rewrite IH.
  - rewrite replace_eq in IH.
    destruct (exec ic (One a) s) as [h|] eqn:Eh.
    + cbn [before matched groups after app]. now rewrite <- IH.
    + cbn [app]. now rewrite <- IH.
Qed.

Lemma escapeHtml_flat s :
  escapeHtml (JsString s) = flat_map escapeHtmlChar s.
Proof.
  unfold escapeHtml. rewrite replace_one.
  induction s as [|c s IH]; [reflexivity|].
  cbn [flat_map]. rewrite IH. f_equal. clear.
  unfold escapeHtmlChar, htmlSpecial.
  cbn [accepts existsb inItem sameChar].
  rewrite !(Ascii.eqb_sym c).
  destruct (Ascii.eqb "&"%char c) eqn:E1;
    [apply Ascii.eqb_eq in E1; subst c; reflexivity|].
  destruct (Ascii.eqb "<"%char c) eqn:E2;
    [apply Ascii.eqb_eq in E2; subst c; reflexivity|].
  destruct (Ascii.eqb ">"%char c) eqn:E3;
    [apply Ascii.eqb_eq in E3; subst c; reflexivity|].
  destruct (Ascii.eqb dq c) eqn:E4;
    [apply Ascii.eqb_eq in E4; subst c; reflexivity|].
  destruct (Ascii.eqb sq c) eqn:E5;
    [apply Ascii.eqb_eq in E5; subst c; reflexivity|].
  destruct (Ascii.eqb "/"%char c) eqn:E6;
    [apply Ascii.eqb_eq in E6; subst c; reflexivity|].
  reflexivity.
Qed.

Lemma escapeHtmlChar_cases c :
  (In (escapeHtmlChar c) entities /\ plainChar c = false
   \/ c = "&"%char /\ escapeHtmlChar c = txt "&amp;") \/
  escapeHtmlChar c = [c] /\ plainChar c = true /\ c <> "&"%char.
Proof.
  unfold escapeHtmlChar, plainChar, entities.
  destruct (Ascii.eqb c "&"%char) eqn:E1.
  { apply Ascii.eqb_eq in E1. subst c. left. right. now split. }
  destruct (Ascii.eqb c "<"%char) eqn:E2; [left; left; cbn; auto 10|].
  destruct (Ascii.eqb c ">"%char) eqn:E3; [left; left; cbn; auto 10|].
  destruct (Ascii.eqb c dq) eqn:E4; [left; left; cbn; auto 10|].
  destruct (Ascii.eqb c sq) eqn:E5; [left; left; cbn; auto 10|].
  destruct (Ascii.eqb c "/"%char) eqn:E6.
  { left; left. cbn. auto 10. }
  right. repeat split. intros ->. discriminate.
Qed.

Lemma escapeHtmlChar_plain c : forallb plainChar (escapeHtmlChar c) = true.
Proof.
  destruct (escapeHtmlChar_cases c) as [[[Hin _]|[_ ->]]|(-> & Hp & _)].
  - cbn in Hin.
    repeat (destruct Hin as [<-|Hin]; [reflexivity|]). destruct Hin.
  - reflexivity.
  - cbn. now rewrite Hp.
Qed.

Lemma escapeHtml_plain value : forallb plainChar (escapeHtml value) = true.
Proof.
  destruct value as [s|]; [|reflexivity].
  rewrite escapeHtml_flat.
  induction s as [|c s IH]; [reflexivity|].
  cbn [flat_map]. rewrite forallb_app, IH, escapeHtmlChar_plain. reflexivity.
Qed.

(** Two code units with the same escaping, followed by anything, are the
    same code unit followed by the same. *)
Lemma escapeHtmlChar_inj c d x y :
  escapeHtmlChar c ++ x = escapeHtmlChar d ++ y -> c = d /\ x = y.
Proof.
  unfold escapeHtmlChar.
  destruct (Ascii.eqb c "&"%char) eqn:C1;
    [apply Ascii.eqb_eq in C1|apply Ascii.eqb_neq in C1];
  (destruct (Ascii.eqb c "<"%char) eqn:C2;
    [apply Ascii.eqb_eq in C2|apply Ascii.eqb_neq in C2]);
  (destruct (Ascii.eqb c ">"%char) eqn:C3;
    [apply Ascii.eqb_eq in C3|apply Ascii.eqb_neq in C3]);
  (destruct (Ascii.eqb c dq) eqn:C4;
    [apply Ascii.eqb_eq in C4|apply Ascii.eqb_neq in C4]);
  (destruct (Ascii.eqb c sq) eqn:C5;
    [apply Ascii.eqb_eq in C5|apply Ascii.eqb_neq in C5]);
  (destruct (Ascii.eqb c "/"%char) eqn:C6;
    [apply Ascii.eqb_eq in C6|apply Ascii.eqb_neq in C6]);
  try (subst c; discriminate);
  (destruct (Ascii.eqb d "&"%char) eqn:D1;
    [apply Ascii.eqb_eq in D1|apply Ascii.eqb_neq in D1]);
  (destruct (Ascii.eqb d "<"%char) eqn:D2;
    [apply Ascii.eqb_eq in D2|apply Ascii.eqb_neq in D2]);
  (destruct (Ascii.eqb d ">"%char) eqn:D3;
    [apply Ascii.eqb_eq in D3|apply Ascii.eqb_neq in D3]);
  (destruct (Ascii.eqb d dq) eqn:D4;
    [apply Ascii.eqb_eq in D4|apply Ascii.eqb_neq in D4]);
  (destruct (Ascii.eqb d sq) eqn:D5;
    [apply Ascii.eqb_eq in D5|apply Ascii.eqb_neq in D5]);
  (destruct (Ascii.eqb d "/"%char) eqn:D6;
    [apply Ascii.eqb_eq in D6|apply Ascii.eqb_neq in D6]);
  try (subst d; discriminate);
  cbn [txt list_ascii_of_string app]; intros H;
  try discriminate H;
  try (injection H as H; subst; now split);
  try (injection H as H1 H2; subst; congruence).
Qed.

Lemma noChar_In x s : noChar x s = true -> ~ In x s.
Proof.
  unfold noChar. rewrite forallb_forall. intros H Hin.
  specialize (H x Hin). now rewrite Ascii.eqb_refl in H.
Qed.

(** A text without [<] holds no match of a locator expression whose tag
    name starts with [<]. *)
Lemma no_lt_no_hits tag attr t s :
  txt tag = "<"%char :: t -> noChar "<"%char s = true ->
  hits true (locatorRegex tag attr) s = [].
Proof.
  intros Htag Hno.
  destruct (hits true (locatorRegex tag attr) s) as [|h hs] eqn:E;
    [reflexivity|exfalso].
  assert (Hin : In h (hits true (locatorRegex tag attr) s))
    by (rewrite E; now left).
  apply located_shape in Hin.
  destruct Hin as (pre & post & t0 & a & n & q1 & q2 & b & Hs & Hm & Ht & _).
  rewrite Htag in Ht. destruct t0 as [|x t0]; [discriminate|].
  cbn [sameText sameChar] in Ht. apply andb_true_iff in Ht.
  destruct Ht as [Hx _]. apply Ascii.eqb_eq in Hx.
  change (canonicalize "<"%char) with "<"%char in Hx.
  symmetry in Hx. apply canonicalize_lt in Hx. subst x.
  apply (noChar_In _ _ Hno). rewrite Hs, Hm.
  apply in_or_app. right. apply in_or_app. left. now left.
Qed.

Lemma no_lt_no_resources s :
  noChar "<"%char s = true ->
  extractExternalResources s = mkResources [] [].
Proof.
  intros Hno.
  pose proof (scripts_keepFirst s) as Hs.
  pose proof (stylesheets_keepFirst s) as Hl.
  unfold scriptRegex in Hs. unfold linkRegex in Hl.
  rewrite (@no_lt_no_hits "<script" "src=" (txt "script") s eq_refl Hno) in Hs.
  rewrite (@no_lt_no_hits "<link" "href=" (txt "link") s eq_refl Hno) in Hl.
  destruct (extractExternalResources s) as [sc st]. cbn in Hs, Hl.
  now subst.
Qed.

Lemma no_lt_not_rewritten s entries :
  noChar "<"%char s = true -> addSRIAttributesToHTML s entries = s.
Proof.
  intros Hno. unfold addSRIAttributesToHTML.
  induction entries as [|[url hash] more IH]; [reflexivity|].
  cbn [fold_left].
  assert (He : rewriteEntry s (url, hash) = s); [|now rewrite He].
  destruct hash as [[|c h]|]; try reflexivity.
  cbn [rewriteEntry].
  assert (Hpass : forall tag attr t f,
             txt tag = "<"%char :: t ->
             replace true (rewriterRegex tag attr url) f s = s).
  { intros tag attr t f Htag.
    rewrite <- (app_nil_r s) at 1.
    rewrite rewriter_pass_skip by (rewrite Htag; now apply clashes_noLt).
    rewrite replace_eq. cbn [exec].
    rewrite rewriterRegex_none by (now rewrite Htag).
    apply app_nil_r. }
  rewrite (Hpass "<script"%string "src="%string (txt "script") _ eq_refl).
  now rewrite (Hpass "<link"%string "href="%string (txt "link") _ eq_refl).
Qed.

Lemma plain_noLt s : forallb plainChar s = true -> noChar "<"%char s = true.
Proof.
  unfold noChar. rewrite !forallb_forall. intros H c Hc.
  specialize (H c Hc). unfold plainChar in H.
  destruct (Ascii.eqb c "<"%char); [discriminate|reflexivity].
Qed.

(** An ampersand in an escaped text starts an entity. *)
Lemma ampersand_after e' fm post :
  noChar "&"%char e' = true ->
  forall p, e' ++ fm = p ++ "&"%char :: post ->
  exists p', fm = p' ++ "&"%char :: post.
Proof.
  induction e' as [|x e' IHe]; intros He p Hp.
  - now exists p.
  - cbn [noChar forallb] in He. apply andb_true_iff in He.
    destruct He as [Hx He]. destruct p as [|y p].
    + cbn [app] in Hp. injection Hp as -> _.
      rewrite Ascii.eqb_refl in Hx. discriminate.
    + cbn [app] in Hp. injection Hp as _ Hp. now apply (IHe He p).
Qed.

Lemma escaped_ampersand s :
  forall pre post,
    flat_map escapeHtmlChar s = pre ++ "&"%char :: post ->
    exists e post', In e entities /\ "&"%char :: post = e ++ post'.
Proof.
  induction s as [|c s IH]; intros pre post H; cbn [flat_map] in H.
  - destruct pre; discriminate.
  - destruct pre as [|p pre].
    + cbn [app] in H.
      destruct (escapeHtmlChar_cases c) as [[[Hin _]|[_ Heq]]|(Heq & _ & Hc)].
      * destruct (escapeHtmlChar c) as [|x e] eqn:Ee.
        { cbn in Hin. repeat (destruct Hin as [Hin|Hin]; [discriminate|]).
          destruct Hin. }
        cbn [app] in H. injection H as -> H.
        exists ("&"%char :: e), (flat_map escapeHtmlChar s).
        split; [exact Hin|]. cbn [app]. now rewrite H.
      * rewrite Heq in H. exists (txt "&amp;"), (flat_map escapeHtmlChar s).
        split; [now left|]. now rewrite <- H.
      * rewrite Heq in H. cbn [app] in H. injection H as H _. congruence.
    + assert (Hent : forall e',
                 noChar "&"%char e' = true ->
                 ("&"%char :: e') ++ flat_map escapeHtmlChar s
                 = (p :: pre) ++ "&"%char :: post ->
                 exists e post', In e entities /\ "&"%char :: post = e ++ post').
      { intros e' He' He. cbn [app] in He. injection He as _ He.
        destruct (@ampersand_after e' _ post He' pre He) as [p' Hp'].
        now apply (IH p' post). }
      destruct (escapeHtmlChar_cases c) as [[[Hin _]|[_ Heq]]|(Heq & _ & _)].
      * cbn in Hin.
        repeat (destruct Hin as [Hin|Hin];
                [rewrite <- Hin in H;
                 match type of H with
                 | ("&"%char :: ?e') ++ _ = _ => now apply (Hent e' eq_refl)
                 end|]).
        destruct Hin.
      * rewrite Heq in H. now apply (Hent (txt "amp;") eq_refl).
      * rewrite Heq in H. cbn [app] in H. injection H as _ H.
        now apply (IH pre post).
Qed.

(** * Facts about the file-name validator *)

(** ** Runs of code units *)

Lemma span_run (p : ascii -> bool) s :
  exists x t,
    s = x ++ t /\ forallb p x = true /\
    match t with [] => True | g :: _ => p g = false end.
Proof.
  induction s as [|c s (x & t & -> & Hx & Ht)].
  - now exists [], [].
  - destruct (p c) eqn:E.
    + exists (c :: x), t. cbn. now rewrite E, Hx.
    + now exists [], (c :: x ++ t).
Qed.

Lemma leads_plus_run ic a c x t :
  forallb (accepts ic a) (c :: x) = true ->
  match t with [] => True | g :: _ => accepts ic a g = false end ->
  Leads ic (Plus a) ((c :: x) ++ t) (c :: x, [], t).
Proof.
  intros Hx Ht. cbn [forallb] in Hx. apply andb_true_iff in Hx.
  destruct Hx as [Hc Hx].
  destruct (leads_star ic a x t Hx Ht) as [o Ho].
  unfold Leads. cbn [run app]. rewrite Hc, Ho. cbn [map fst snd]. eauto.
Qed.

Lemma squeezeBy_run p v x :
  forall c t,
    forallb p (c :: x) = true ->
    match t with [] => True | g :: _ => p g = false end ->
    squeezeBy p v ((c :: x) ++ t) = v ++ squeezeBy p v t.
Proof.
  induction x as [|d x IH]; intros c t Hx Ht;
    cbn [forallb] in Hx; apply andb_true_iff in Hx; destruct Hx as [Hc Hx].
  - cbn [app squeezeBy]. rewrite Hc. destruct t as [|g t].
    + now rewrite app_nil_r.
    + now rewrite Ht.
  - change ((c :: d :: x) ++ t) with (c :: (d :: x) ++ t).
    cbn [squeezeBy]. rewrite Hc. cbn [app].
    pose proof Hx as Hd. cbn [forallb] in Hd. apply andb_true_iff in Hd.
    destruct Hd as [-> _]. now apply IH.
Qed.

Lemma replace_plus ic a v :
  forall n s,
    List.length s < n ->
    replace ic (Plus a) (fun _ _ => v) s = squeezeBy (accepts ic a) v s.
Proof.
  induction n as [|n IH]; intros s Hn; [lia|].
  destruct s as [|c s]; [reflexivity|].
  destruct (accepts ic a c) eqn:Ec.
  - destruct (span_run (accepts ic a) s) as (x & t & -> & Hx & Ht).
    assert (Hcx : forallb (accepts ic a) (c :: x) = true)
      by (cbn; now rewrite Ec, Hx).
    change (c :: x ++ t) with ((c :: x) ++ t).
    rewrite (replace_first _ (leads_plus_run _ _ _ _ _ Hcx Ht))
      by discriminate.
    rewrite squeezeBy_run by assumption.
    f_equal. apply IH. cbn [List.length] in Hn. rewrite length_app in Hn. lia.
  - change (c :: s) with ([c] ++ s). rewrite replace_skip.
    + cbn [app squeezeBy]. rewrite Ec. f_equal. apply IH.
      cbn [List.length] in Hn. lia.
    + intros p1 p2 Hp Hne. destruct p1 as [|y p1].
      * cbn [app] in Hp. subst p2. cbn [app run]. now rewrite Ec.
      * destruct p1; [|discriminate]. destruct p2; [congruence|discriminate].
Qed.

Lemma replace_squeeze ic a v s :
  replace ic (Plus a) (fun _ _ => v) s = squeezeBy (accepts ic a) v s.
Proof. apply (replace_plus ic a v (n := S (List.length s))). lia. Qed.

Lemma squeezeBy_ext p q v s :
  (forall c, p c = q c) -> squeezeBy p v s = squeezeBy q v s.
Proof.
  intros H. induction s as [|c s IH]; [reflexivity|].
  cbn [squeezeBy]. rewrite <- H, IH. destruct s as [|d s]; [reflexivity|].
  now rewrite <- H.
Qed.

Lemma squeezeBy_none p v s :
  forallb (fun c => negb (p c)) s = true -> squeezeBy p v s = s.
Proof.
  induction s as [|c s IH]; intros H; [reflexivity|].
  cbn [forallb] in H. apply andb_true_iff in H. destruct H as [Hc H].
  cbn [squeezeBy]. apply negb_true_iff in Hc. rewrite Hc. f_equal. auto.
Qed.

Lemma squeezeBy_forallb p q v s :
  forallb q v = true -> forallb q s = true ->
  forallb q (squeezeBy p v s) = true.
Proof.
  intros Hv. induction s as [|c s IH]; intros H; [reflexivity|].
  cbn [forallb] in H. apply andb_true_iff in H. destruct H as [Hc H].
  cbn [squeezeBy]. destruct (p c).
  - destruct s as [|d s]; [exact Hv|].
    destruct (p d); [now apply IH|].
    rewrite forallb_app, Hv. now apply IH.
  - cbn [forallb]. rewrite Hc. now apply IH.
Qed.

(** Squeezing the runs of one code unit to that code unit. *)
Lemma squeeze_head x s :
  hd_error (squeezeBy (Ascii.eqb x) [x] s) = hd_error s.
Proof.
  induction s as [|c s IH]; [reflexivity|].
  cbn [squeezeBy]. destruct (Ascii.eqb x c) eqn:Ec.
  - apply Ascii.eqb_eq in Ec. subst c.
    destruct s as [|d s]; [reflexivity|].
    destruct (Ascii.eqb x d) eqn:Ed; [|reflexivity].
    apply Ascii.eqb_eq in Ed. subst d. exact IH.
  - reflexivity.
Qed.

Lemma includes_pair y c s :
  includes [y; y] (c :: s)
  = (Ascii.eqb y c
     && match hd_error s with Some d => Ascii.eqb y d | None => false end)
    || includes [y; y] s.
Proof.
  cbn [includes startsWith]. destruct s as [|d s]; cbn [hd_error].
  - now rewrite andb_false_r.
  - now rewrite andb_true_r.
Qed.

Lemma squeeze_keeps_no_pair x y s :
  includes [y; y] s = false ->
  includes [y; y] (squeezeBy (Ascii.eqb x) [x] s) = false.
Proof.
  induction s as [|c s IH]; intros H; [reflexivity|].
  rewrite includes_pair in H. apply orb_false_iff in H.
  destruct H as [Hh Ht]. specialize (IH Ht).
  cbn [squeezeBy]. destruct (Ascii.eqb x c) eqn:Ec.
  - apply Ascii.eqb_eq in Ec. subst c.
    destruct s as [|d s];
      [cbn [app]; now rewrite includes_pair, andb_false_r|].
    destruct (Ascii.eqb x d) eqn:Ed; [exact IH|].
    cbn [app]. rewrite includes_pair, IH, squeeze_head, orb_false_r.
    cbn [hd_error] in *. exact Hh.
  - now rewrite includes_pair, IH, squeeze_head, orb_false_r.
Qed.

Lemma squeeze_no_pair x s :
  includes [x; x] (squeezeBy (Ascii.eqb x) [x] s) = false.
Proof.
  induction s as [|c s IH]; [reflexivity|].
  cbn [squeezeBy]. destruct (Ascii.eqb x c) eqn:Ec.
  - destruct s as [|d s];
      [cbn [app]; now rewrite includes_pair, andb_false_r|].
    destruct (Ascii.eqb x d) eqn:Ed; [exact IH|].
    cbn [app]. rewrite includes_pair, IH, squeeze_head, orb_false_r.
    cbn [hd_error]. now rewrite Ed, andb_false_r.
  - rewrite includes_pair, IH, Ec. reflexivity.
Qed.

Lemma squeeze_fixed x s :
  includes [x; x] s = false -> squeezeBy (Ascii.eqb x) [x] s = s.
Proof.
  induction s as [|c s IH]; intros H; [reflexivity|].
  rewrite includes_pair in H. apply orb_false_iff in H.
  destruct H as [Hh Ht]. specialize (IH Ht).
  cbn [squeezeBy]. destruct (Ascii.eqb x c) eqn:Ec.
  - apply Ascii.eqb_eq in Ec. subst c.
    destruct s as [|d s]; [reflexivity|].
    cbn [hd_error andb] in Hh.
    rewrite Hh. cbn [app]. now rewrite IH.
  - now rewrite IH.
Qed.

(** ** The tests *)

Lemma testWhole_iff ic r s :
  testWhole ic r s = true <-> exists caps, Matches ic r s caps.
Proof.
  unfold testWhole. rewrite existsb_exists. split.
  - intros ([[m caps] rest] & Hin & Hrest). cbn [snd] in Hrest.
    destruct rest; [|discriminate].
    apply run_sound in Hin. destruct Hin as [-> HM].
    rewrite app_nil_r. now exists caps.
  - intros [caps HM]. exists (s, caps, []). split; [|reflexivity].
    pose proof (run_complete HM []) as H. now rewrite app_nil_r in H.
Qed.

Lemma testWhole_plus ic a s :
  testWhole ic (Plus a) s
  = match s with [] => false | _ :: _ => forallb (accepts ic a) s end.
Proof.
  destruct (testWhole ic (Plus a) s) eqn:E.
  - apply testWhole_iff in E. destruct E as [caps HM].
    apply Matches_plus_inv in HM.
    destruct HM as (_ & Hne & Hm). destruct s; [congruence|exact (eq_sym Hm)].
  - destruct s as [|c s]; [reflexivity|].
    destruct (forallb (accepts ic a) (c :: s)) eqn:Ef; [|reflexivity].
    cbn [forallb] in Ef. apply andb_true_iff in Ef. destruct Ef as [Hc Hs].
    assert (H : testWhole ic (Plus a) (c :: s) = true).
    { apply testWhole_iff. exists []. now constructor. }
    congruence.
Qed.

Lemma test_one ic a s : test ic (One a) s = existsb (accepts ic a) s.
Proof.
  unfold test. induction s as [|c s IH]; [reflexivity|].
  rewrite exec_cons, run_one. cbn [existsb].
  destruct (accepts ic a c); [reflexivity|].
  cbn [orb]. rewrite <- IH. now destruct (exec ic (One a) s).
Qed.

(** ** The code units of a name *)

Lemma nameChar_not_space c : nameChar c = true -> isSpace c = false.
Proof. destruct c as [[] [] [] [] [] [] [] []]; vm_compute; congruence. Qed.

Lemma nameChar_lower c : nameChar c = true -> toLowerUnit c = c.
Proof. destruct c as [[] [] [] [] [] [] [] []]; vm_compute; congruence. Qed.

Lemma nameChar_not_upper c :
  nameChar c = true -> accepts false (OneOf upperLetters) c = false.
Proof. destruct c as [[] [] [] [] [] [] [] []]; vm_compute; congruence. Qed.

Lemma nameChar_any c :
  nameChar c = true -> accepts false (OneOf anyNameItems) c = true.
Proof. destruct c as [[] [] [] [] [] [] [] []]; vm_compute; congruence. Qed.

(** ** The ends of a text *)

Lemma endsWith_cons x c t :
  endsWith [x] (c :: t)
  = match t with [] => Ascii.eqb x c | _ :: _ => endsWith [x] t end.
Proof.
  unfold endsWith. cbn [rev app].
  destruct t as [|d t]; [cbn; now rewrite andb_true_r|].
  cbn [rev]. destruct (rev t ++ [d]) as [|e u] eqn:E.
  - destruct (rev t); discriminate.
  - reflexivity.
Qed.

Lemma endsWith_In x t : endsWith [x] t = true -> In x t.
Proof.
  induction t as [|c t IH]; [discriminate|].
  rewrite endsWith_cons. destruct t as [|d t].
  - intros H. apply Ascii.eqb_eq in H. now left.
  - intros H. right. now apply IH.
Qed.

Lemma run_of_hyphens_ends c s :
  forallb (Ascii.eqb "-"%char) (c :: s) = true ->
  endsWith (txt "-") (c :: s) = true.
Proof.
  revert c. induction s as [|d s IH]; intros c H.
  - cbn in H. rewrite andb_true_r in H.
    change (txt "-") with ["-"%char]. now rewrite endsWith_cons.
  - change (txt "-") with ["-"%char]. rewrite endsWith_cons.
    cbn [forallb] in H. apply andb_true_iff in H. destruct H as [_ H].
    now apply IH.
Qed.

Lemma split_length sep s : In sep s -> 2 <= List.length (split sep s).
Proof.
  assert (Hpos : forall t, 1 <= List.length (split sep t)).
  { induction t as [|c t IH]; cbn [split]; [cbn; lia|].
    destruct (Ascii.eqb c sep); [cbn; lia|].
    destruct (split sep t); cbn in *; lia. }
  induction s as [|c s IH]; intros H; [destruct H|].
  cbn [split]. destruct (Ascii.eqb c sep) eqn:E.
  - cbn [List.length]. specialize (Hpos s). lia.
  - destruct H as [H|H]; [subst; now rewrite Ascii.eqb_refl in E|].
    specialize (IH H). destruct (split sep s); cbn in *; lia.
Qed.

(** ** The hyphens at the ends *)

Lemma run_hyphens s :
  match run false (Plus (Lit "-"%char)) s with
  | (_, _, rest) :: _ => rest
  | [] => s
  end = lstrip s.
Proof.
  destruct s as [|c s]; [reflexivity|].
  destruct (Ascii.eqb "-"%char c) eqn:Ec.
  - destruct (span_run (Ascii.eqb "-"%char) s) as (x & t & -> & Hx & Ht).
    assert (Hcx : forallb (accepts false (Lit "-"%char)) (c :: x) = true)
      by (cbn [forallb accepts sameChar]; rewrite Ec; exact Hx).
    change (c :: x ++ t) with ((c :: x) ++ t).
    destruct (leads_plus_run false (Lit "-"%char) c x t Hcx Ht) as [o ->].
    cbn [app lstrip]. rewrite Ec. clear Hcx Ec c.
    induction x as [|d x IH]; cbn [app lstrip].
    + destruct t as [|g t]; [reflexivity|]. cbn [lstrip]. now rewrite Ht.
    + cbn [forallb] in Hx. apply andb_true_iff in Hx.
      destruct Hx as [-> Hx]. now apply IH.
  - cbn [run accepts sameChar lstrip]. now rewrite Ec.
Qed.

Lemma execToEnd_hyphens s :
  match execToEnd false (Plus (Lit "-"%char)) s with
  | Some before => before
  | None => s
  end = rstrip s.
Proof.
  assert (H : forall s,
             execToEnd false (Plus (Lit "-"%char)) s
             = if existsb (fun _ => true) s
                  && negb (text_eqb (rstrip s) s)
               then Some (rstrip s) else None).
  { induction s0 as [|c s0 IH]; [reflexivity|].
    cbn [execToEnd]. rewrite testWhole_plus.
    change (forallb (accepts false (Lit "-"%char)) (c :: s0))
      with (forallb (Ascii.eqb "-"%char) (c :: s0)).
    cbn [rstrip existsb orb andb].
    destruct (forallb (Ascii.eqb "-"%char) (c :: s0)) eqn:Ef; [reflexivity|].
    rewrite IH.
    destruct s0 as [|d s0].
    - cbn [existsb andb rstrip]. unfold text_eqb.
      destruct (list_eq_dec ascii_dec [c] [c]); [reflexivity|congruence].
    - cbn [existsb orb andb]. unfold text_eqb.
      destruct (list_eq_dec ascii_dec (rstrip (d :: s0)) (d :: s0)) as [e|e];
        destruct (list_eq_dec ascii_dec (c :: rstrip (d :: s0)) (c :: d :: s0))
        as [e'|e']; cbn [negb]; try reflexivity; congruence. }
  rewrite H. destruct s as [|c s]; [reflexivity|].
  cbn [existsb orb andb]. unfold text_eqb.
  destruct (list_eq_dec ascii_dec (rstrip (c :: s)) (c :: s)) as [e|e];
    cbn [negb]; congruence.
Qed.

Lemma stripHyphens_eq s : stripHyphens s = rstrip (lstrip s).
Proof. unfold stripHyphens. now rewrite run_hyphens, execToEnd_hyphens. Qed.

Lemma lstrip_suffix s : exists x, s = x ++ lstrip s.
Proof.
  induction s as [|c s [x IH]]; [now exists []|].
  cbn [lstrip]. destruct (Ascii.eqb "-"%char c).
  - exists (c :: x). cbn. now f_equal.
  - now exists [].
Qed.

Lemma rstrip_prefix s : exists x, s = rstrip s ++ x.
Proof.
  induction s as [|c s [x IH]]; [now exists []|].
  cbn [rstrip]. destruct (forallb (Ascii.eqb "-"%char) (c :: s)).
  - now exists (c :: s).
  - exists x. cbn. now f_equal.
Qed.

Lemma startsWith_one x c s : startsWith [x] (c :: s) = Ascii.eqb x c.
Proof. cbn [startsWith]. apply andb_true_r. Qed.

Lemma lstrip_start s : startsWith (txt "-") (lstrip s) = false.
Proof.
  change (txt "-") with ["-"%char].
  induction s as [|c s IH]; [reflexivity|].
  cbn [lstrip]. destruct (Ascii.eqb "-"%char c) eqn:E; [exact IH|].
  now rewrite startsWith_one.
Qed.

Lemma rstrip_start s :
  startsWith (txt "-") s = false -> startsWith (txt "-") (rstrip s) = false.
Proof.
  change (txt "-") with ["-"%char].
  destruct s as [|c s]; [reflexivity|].
  cbn [rstrip]. destruct (forallb _ _); [reflexivity|].
  now rewrite !startsWith_one.
Qed.

Lemma rstrip_nil s : rstrip s = [] -> forallb (Ascii.eqb "-"%char) s = true.
Proof.
  destruct s as [|c s]; [reflexivity|]. cbn [rstrip].
  destruct (forallb (Ascii.eqb "-"%char) (c :: s)); [reflexivity|discriminate].
Qed.

Lemma rstrip_end s : endsWith (txt "-") (rstrip s) = false.
Proof.
  change (txt "-") with ["-"%char].
  induction s as [|c s IH]; [reflexivity|].
  cbn [rstrip]. destruct (forallb (Ascii.eqb "-"%char) (c :: s)) eqn:Ef;
    [reflexivity|].
  rewrite endsWith_cons. destruct (rstrip s) as [|d t] eqn:Er; [|exact IH].
  apply rstrip_nil in Er. cbn [forallb] in Ef. rewrite Er, andb_true_r in Ef.
  exact Ef.
Qed.

Lemma lstrip_fixed s : startsWith (txt "-") s = false -> lstrip s = s.
Proof.
  change (txt "-") with ["-"%char].
  destruct s as [|c s]; [reflexivity|]. rewrite startsWith_one.
  cbn [lstrip]. now intros ->.
Qed.

Lemma rstrip_fixed s : endsWith (txt "-") s = false -> rstrip s = s.
Proof.
  change (txt "-") with ["-"%char].
  induction s as [|c s IH]; [reflexivity|]. intros H.
  cbn [rstrip]. destruct (forallb (Ascii.eqb "-"%char) (c :: s)) eqn:Ef.
  - apply run_of_hyphens_ends in Ef. change (txt "-") with ["-"%char] in Ef.
    congruence.
  - f_equal. rewrite endsWith_cons in H. destruct s as [|d s]; [reflexivity|].
    now apply IH.
Qed.

Lemma includes_part w pre s post :
  includes w (pre ++ s ++ post) = false -> includes w s = false.
Proof.
  intros H. destruct (includes w s) eqn:E; [|reflexivity].
  now rewrite (includes_app _ pre _ post E) in H.
Qed.

Lemma forallb_part (p : ascii -> bool) pre s post :
  forallb p (pre ++ s ++ post) = true -> forallb p s = true.
Proof.
  rewrite !forallb_app. intros H.
  apply andb_true_iff in H. destruct H as [_ H].
  apply andb_true_iff in H. now destruct H.
Qed.

Lemma strip_part s : exists pre post, s = pre ++ rstrip (lstrip s) ++ post.
Proof.
  destruct (lstrip_suffix s) as [pre Hp].
  destruct (rstrip_prefix (lstrip s)) as [post Hq].
  exists pre, post. now rewrite <- Hq.
Qed.

(** ** The suggestion, step by step *)

Lemma filter_flat_map (p : ascii -> bool) s :
  flat_map (fun c => if negb (p c) then [] else [c]) s = filter p s.
Proof.
  induction s as [|c s IH]; [reflexivity|].
  cbn [flat_map filter]. rewrite IH. now destruct (p c).
Qed.

Lemma forallb_filter_same (p : ascii -> bool) s : forallb p (filter p s) = true.
Proof.
  induction s as [|c s IH]; [reflexivity|].
  cbn [filter]. destruct (p c) eqn:E; [|exact IH]. cbn. now rewrite E.
Qed.

Lemma filter_fixed (p : ascii -> bool) s : forallb p s = true -> filter p s = s.
Proof.
  induction s as [|c s IH]; [reflexivity|]. cbn [forallb filter].
  intros H. apply andb_true_iff in H. destruct H as [-> H]. now rewrite IH.
Qed.

Lemma suggest_eq filename :
  suggestValidFileName filename
  = rstrip (lstrip
      (squeezeBy (Ascii.eqb "."%char) ["."%char]
         (squeezeBy (Ascii.eqb "-"%char) ["-"%char]
            (filter nameChar
               (toLowerCase (squeezeBy isSpace ["-"%char] filename)))))).
Proof.
  unfold suggestValidFileName.
  rewrite stripHyphens_eq, !replace_squeeze, replace_one.
  change (fun c : ascii =>
            if accepts false (NoneOf lowerNameItems) c then [] else [c])
    with (fun c : ascii => if negb (nameChar c) then [] else [c]).
  rewrite filter_flat_map.
  rewrite (@squeezeBy_ext (accepts false (OneOf [CSpace])) isSpace)
    by (intros c; cbn [accepts existsb inItem]; apply orb_false_r).
  reflexivity.
Qed.

Lemma includes_one_In x t : includes [x] t = true -> In x t.
Proof.
  induction t as [|c t IH]; [discriminate|].
  cbn [includes]. rewrite startsWith_one. intros H.
  apply orb_true_iff in H. destruct H as [H|H].
  - apply Ascii.eqb_eq in H. now left.
  - right. now apply IH.
Qed.

Lemma tidy_parts t :
  tidy t = true <->
  forallb nameChar t = true /\ includes (txt "--") t = false /\
  includes (txt "..") t = false /\ startsWith (txt "-") t = false /\
  endsWith (txt "-") t = false.
Proof.
  unfold tidy. rewrite !andb_true_iff, !negb_true_iff. tauto.
Qed.

Lemma suggest_tidy filename : tidy (suggestValidFileName filename) = true.
Proof.
  rewrite suggest_eq.
  set (s3 := filter nameChar _).
  assert (H3 : forallb nameChar s3 = true) by apply forallb_filter_same.
  set (s4 := squeezeBy (Ascii.eqb "-"%char) ["-"%char] s3).
  assert (H4 : forallb nameChar s4 = true)
    by (apply squeezeBy_forallb; [reflexivity|exact H3]).
  assert (H4h : includes (txt "--") s4 = false) by apply squeeze_no_pair.
  set (s5 := squeezeBy (Ascii.eqb "."%char) ["."%char] s4).
  assert (H5 : forallb nameChar s5 = true)
    by (apply squeezeBy_forallb; [reflexivity|exact H4]).
  assert (H5h : includes (txt "--") s5 = false)
    by (apply squeeze_keeps_no_pair; exact H4h).
  assert (H5d : includes (txt "..") s5 = false) by apply squeeze_no_pair.
  destruct (strip_part s5) as (pre & post & Hs).
  apply tidy_parts. repeat split.
  - rewrite Hs in H5. now apply forallb_part in H5.
  - rewrite Hs in H5h. now apply includes_part in H5h.
  - rewrite Hs in H5d. now apply includes_part in H5d.
  - apply rstrip_start, lstrip_start.
  - apply rstrip_end.
Qed.

Lemma tidy_fixed t : tidy t = true -> suggestValidFileName t = t.
Proof.
  intros H. apply tidy_parts in H. destruct H as (Hn & Hh & Hd & Hs & He).
  rewrite suggest_eq.
  rewrite (@squeezeBy_none isSpace ["-"%char] t).
  2:{ rewrite forallb_forall in *. intros c Hc.
      now rewrite (nameChar_not_space _ (Hn c Hc)). }
  assert (Hl : toLowerCase t = t).
  { unfold toLowerCase. clear - Hn. induction t as [|c t IH]; [reflexivity|].
    cbn [forallb] in Hn. apply andb_true_iff in Hn. destruct Hn as [Hc Hn].
    cbn [map]. now rewrite (nameChar_lower _ Hc), IH. }
  rewrite Hl, filter_fixed by exact Hn.
  rewrite (@squeeze_fixed "-"%char t) by exact Hh.
  rewrite (@squeeze_fixed "."%char t) by exact Hd.
  now rewrite lstrip_fixed, rstrip_fixed.
Qed.

Lemma nameChars_no_space t :
  forallb nameChar t = true -> includes (txt " ") t = false.
Proof.
  intros H. destruct (includes (txt " ") t) eqn:E; [|reflexivity].
  apply includes_one_In in E. rewrite forallb_forall in H.
  specialize (H _ E). discriminate.
Qed.

Lemma dot_end_splits t :
  endsWith (txt ".") t = true ->
  (List.length (split "."%char t) <? 2)%nat = false.
Proof.
  intros H. apply endsWith_In, (split_length "."%char) in H.
  apply Nat.ltb_ge. exact H.
Qed.

Lemma tidy_valid t allowUppercase :
  tidy t = true -> t <> [] -> isValidFileName t allowUppercase = true.
Proof.
  intros H Hne. apply tidy_parts in H. destruct H as (Hn & Hh & Hd & Hs & He).
  unfold isValidFileName.
  destruct (arrayIncludes t specialFiles); [reflexivity|].
  rewrite (nameChars_no_space _ Hn), Hh, Hd, Hs, He.
  assert (Hpat : testWhole false
                   (if allowUppercase then Plus (OneOf anyNameItems)
                    else Plus (OneOf lowerNameItems)) t = true).
  { destruct allowUppercase; rewrite testWhole_plus;
      (destruct t as [|c t]; [congruence|]); [|exact Hn].
    rewrite forallb_forall in *. intros x Hx. apply nameChar_any. auto. }
  rewrite Hpat. cbn [negb orb].
  destruct (startsWith (txt ".") t); cbn [negb orb]; [reflexivity|].
  destruct (endsWith (txt ".") t) eqn:E; [|reflexivity].
  now rewrite dot_end_splits.
Qed.

(** ** Validity and the reason given *)

Lemma isValid_cases filename allowUppercase :
  arrayIncludes filename specialFiles = false ->
  isValidFileName filename allowUppercase
  = negb (includes (txt " ") filename)
    && testWhole false (if allowUppercase then Plus (OneOf anyNameItems)
                        else Plus (OneOf lowerNameItems)) filename
    && negb (includes (txt "--") filename)
    && negb (includes (txt "..") filename)
    && (startsWith (txt ".") filename
        || negb (startsWith (txt "-") filename || endsWith (txt "-") filename)).
Proof.
  intros Hsp. unfold isValidFileName. rewrite Hsp.
  destruct (includes (txt " ") filename); [reflexivity|].
  cbn [negb andb].
  destruct (testWhole false _ filename); [|reflexivity].
  cbn [negb andb].
  destruct (includes (txt "--") filename); [reflexivity|].
  destruct (includes (txt "..") filename); [reflexivity|].
  cbn [negb andb orb].
  destruct (startsWith (txt ".") filename) eqn:Es; [reflexivity|].
  cbn [negb orb].
  destruct (startsWith (txt "-") filename || endsWith (txt "-") filename);
    [reflexivity|].
  cbn [negb].
  destruct (endsWith (txt ".") filename) eqn:E; [|reflexivity].
  now rewrite dot_end_splits.
Qed.

Lemma upper_test filename :
  testWhole false (Plus (OneOf lowerNameItems)) filename = true ->
  test false (One (OneOf upperLetters)) filename = false.
Proof.
  rewrite testWhole_plus, test_one. destruct filename as [|c t]; [discriminate|].
  generalize (c :: t). clear. intros s H.
  induction s as [|c s IH]; [reflexivity|].
  cbn [forallb existsb] in *. apply andb_true_iff in H. destruct H as [Hc H].
  now rewrite (nameChar_not_upper _ Hc), IH.
Qed.

Lemma lower_is_any filename :
  testWhole false (Plus (OneOf lowerNameItems)) filename = true ->
  testWhole false (Plus (OneOf anyNameItems)) filename = true.
Proof.
  rewrite !testWhole_plus. destruct filename as [|c t]; [discriminate|].
  generalize (c :: t). clear. intros s H.
  induction s as [|c s IH]; [reflexivity|].
  cbn [forallb] in *. apply andb_true_iff in H. destruct H as [Hc H].
  now rewrite (nameChar_any _ Hc), IH.
Qed.

Lemma valid_tidy filename :
  isValidFileName filename false = true ->
  arrayIncludes filename specialFiles = false ->
  endsWith (txt "-") filename = false ->
  tidy filename = true.
Proof.
  intros Hv Hsp He. rewrite isValid_cases in Hv by exact Hsp.
  repeat (apply andb_true_iff in Hv; destruct Hv as [Hv ?]).
  repeat match goal with
         | H : negb _ = true |- _ => apply negb_true_iff in H
         end.
  apply tidy_parts.
  match goal with
  | H : testWhole _ _ _ = true |- _ =>
      rewrite testWhole_plus in H; rename H into Hn
  end.
  assert (Hn' : forallb nameChar filename = true)
    by (destruct filename; [discriminate|exact Hn]).
  repeat split; try assumption.
  destruct (startsWith (txt ".") filename) eqn:Ed.
  - destruct filename as [|c t]; [discriminate|].
    change (txt ".") with ["."%char] in Ed. rewrite startsWith_one in Ed.
    apply Ascii.eqb_eq in Ed. subst c. reflexivity.
  - cbn [orb] in *.
    match goal with
    | H : negb _ = true |- _ => apply negb_true_iff, orb_false_iff in H;
                                now destruct H
    end.
Qed.

(** ** The walk over a directory *)

Section WalkFacts.

Variable pathJoin : text -> text -> text.
Variable pathRelative : text -> text -> text.
Variable basePath : text.
Variable o : WalkOptions.

Lemma validateDirectory_cons entryName entry more currentPath results :
  validateDirectory pathJoin pathRelative
                    (DirNode ((entryName, entry) :: more))
                    currentPath basePath results o
  = if skipped o entryName entry
    then validateDirectory pathJoin pathRelative (DirNode more)
                           currentPath basePath results o
    else
      let fullPath := pathJoin currentPath entryName in
      let relativePath := pathRelative basePath fullPath in
      let results1 :=
        if isValidFileName entryName (allowUppercase o)
        then mkNamingResults (valid results ++ [relativePath])
                             (invalid results) (warnings results)
        else mkNamingResults
               (valid results)
               (invalid results
                ++ [mkInvalidName relativePath entryName
                      (getInvalidReason entryName (allowUppercase o))])
               (warnings results) in
      let results2 :=
        if isDirectory entry && recursive o
        then validateDirectory pathJoin pathRelative entry fullPath basePath
                               results1 o
        else results1 in
      validateDirectory pathJoin pathRelative (DirNode more)
                        currentPath basePath results2 o.
Proof.
  unfold skipped. cbn [validateDirectory].
  destruct (isDirectory entry && arrayIncludes entryName (excludeDirs o));
    [reflexivity|].
  destruct (isFile entry && arrayIncludes entryName (excludeFiles o));
    reflexivity.
Qed.

Lemma Reached_nil entryName entry : ~ Reached o [] entryName entry.
Proof. intros H. inversion H; subst; contradiction. Qed.

Lemma Reached_cons nm n more entryName entry :
  Reached o ((nm, n) :: more) entryName entry <->
  skipped o nm n = false /\
  (entryName = nm /\ entry = n \/
   exists sub, n = DirNode sub /\ recursive o = true /\
               Reached o sub entryName entry) \/
  Reached o more entryName entry.
Proof.
  split.
  - intros H. inversion H as [es x y Hin Hsk|es d sub x y Hin Hsk Hrec Hsub];
      subst.
    + destruct Hin as [Heq|Hin].
      * injection Heq as -> ->. left. split; [exact Hsk|now left].
      * right. now apply ReachedHere.
    + destruct Hin as [Heq|Hin].
      * injection Heq as -> ->. left. split; [exact Hsk|]. right.
        now exists sub.
      * right. eapply ReachedBelow; eauto.
  - intros [[Hsk [[-> ->]|(sub & -> & Hrec & Hsub)]]|H].
    + apply ReachedHere; [now left|exact Hsk].
    + eapply ReachedBelow; eauto. now left.
    + inversion H as [es x y Hin Hsk|es d sub x y Hin Hsk Hrec Hsub]; subst.
      * apply ReachedHere; [now right|exact Hsk].
      * eapply ReachedBelow; eauto. now right.
Qed.

Lemma walk_invalid dir :
  forall currentPath results,
  exists extra,
    invalid (validateDirectory pathJoin pathRelative dir currentPath basePath
                               results o)
    = invalid results ++ extra /\
    walkAdds o (match dir with DirNode entries => entries | _ => [] end) extra.
Proof.
  induction dir as [| |entries IH] using node_tree_ind;
    intros currentPath results.
  - exists []. rewrite app_nil_r. split; [reflexivity|].
    split; [intros r []|]. intros x y H. now apply Reached_nil in H.
  - exists []. rewrite app_nil_r. split; [reflexivity|].
    split; [intros r []|]. intros x y H. now apply Reached_nil in H.
  - revert results.
    induction entries as [|[nm n] more IHm]; intros results.
    + exists []. rewrite app_nil_r. split; [reflexivity|].
      split; [intros r []|]. intros x y H. now apply Reached_nil in H.
    + inversion IH as [|e es Hn Hmore]; subst. cbn [snd] in Hn.
      specialize (IHm Hmore).
      rewrite validateDirectory_cons.
      destruct (skipped o nm n) eqn:Hsk.
      { destruct (IHm results) as (extra & Heq & Hin & Hall).
        exists extra. split; [exact Heq|]. split.
        - intros r Hr. destruct (Hin r Hr) as (Hv & Hreason & entry & Hre).
          repeat split; auto. exists entry. apply Reached_cons. now right.
        - intros x y Hre Hv. apply Reached_cons in Hre.
          destruct Hre as [[Hf _]|Hre]; [congruence|]. eauto. }
      cbv zeta.
      set (results1 := if isValidFileName nm (allowUppercase o) then _ else _).
      assert (H1 : exists e1,
                 invalid results1 = invalid results ++ e1 /\
                 (forall r, In r e1 ->
                            name r = nm /\
                            isValidFileName nm (allowUppercase o) = false /\
                            reason r = getInvalidReason nm (allowUppercase o)) /\
                 (isValidFileName nm (allowUppercase o) = false ->
                  exists r, In r e1 /\ name r = nm)).
      { subst results1. destruct (isValidFileName nm (allowUppercase o)) eqn:Ev.
        - exists []. cbn [invalid]. rewrite app_nil_r.
          split; [reflexivity|]. split; [intros r []|discriminate].
        - eexists. cbn [invalid]. split; [reflexivity|]. split.
          + intros r [<-|[]]. cbn. auto.
          + intros _. eexists. split; [now left|reflexivity]. }
      destruct H1 as (e1 & Heq1 & Hin1 & Hall1).
      set (results2 := if isDirectory n && recursive o then _ else _).
      assert (H2 : exists e2,
                 invalid results2 = invalid results1 ++ e2 /\
                 (forall r, In r e2 ->
                            isValidFileName (name r) (allowUppercase o) = false /\
                            reason r = getInvalidReason (name r) (allowUppercase o) /\
                            exists sub entry,
                              n = DirNode sub /\ recursive o = true /\
                              Reached o sub (name r) entry) /\
                 (forall sub x y,
                     n = DirNode sub -> recursive o = true ->
                     Reached o sub x y ->
                     isValidFileName x (allowUppercase o) = false ->
                     exists r, In r e2 /\ name r = x)).
      { subst results2. destruct (isDirectory n && recursive o) eqn:Ed.
        - apply andb_true_iff in Ed. destruct Ed as [Hd Hrec].
          destruct n as [| |sub]; try discriminate.
          destruct (Hn (pathJoin currentPath nm) results1)
            as (e2 & Heq2 & Hin2 & Hall2).
          exists e2. split; [exact Heq2|]. split.
          + intros r Hr. destruct (Hin2 r Hr) as (Hv & Hreason & entry & Hre).
            repeat split; auto. now exists sub, entry.
          + intros sub' x y Hs _ Hre Hv. injection Hs as <-. eauto.
        - exists []. rewrite app_nil_r. split; [reflexivity|].
          split; [intros r []|].
          intros sub x y -> Hrec _ _. cbn in Ed. congruence. }
      destruct H2 as (e2 & Heq2 & Hin2 & Hall2).
      destruct (IHm results2) as (e3 & Heq3 & Hin3 & Hall3).
      exists (e1 ++ e2 ++ e3). split.
      { rewrite Heq3, Heq2, Heq1. now rewrite <- !app_assoc. }
      split.
      * intros r Hr. apply in_app_or in Hr. destruct Hr as [Hr|Hr].
        { destruct (Hin1 r Hr) as (Hname & Hv & Hreason).
          rewrite Hname. repeat split; auto.
          exists n. apply Reached_cons. left. split; [exact Hsk|now left]. }
        apply in_app_or in Hr. destruct Hr as [Hr|Hr].
        { destruct (Hin2 r Hr)
            as (Hv & Hreason & sub & entry & Hsub & Hrec & Hre).
          repeat split; auto. exists entry. apply Reached_cons. left.
          split; [exact Hsk|]. right. now exists sub. }
        destruct (Hin3 r Hr) as (Hv & Hreason & entry & Hre).
        repeat split; auto. exists entry. apply Reached_cons. now right.
      * intros x y Hre Hv. apply Reached_cons in Hre.
        destruct Hre as [[_ [[-> ->]|(sub & Hsub & Hrec & Hre)]]|Hre].
        { destruct (Hall1 Hv) as (r & Hr & Hname). exists r.
          split; [|exact Hname]. apply in_or_app. now left. }
        { destruct (Hall2 sub x y Hsub Hrec Hre Hv) as (r & Hr & Hname).
          exists r. split; [|exact Hname].
          apply in_or_app. right. apply in_or_app. now left. }
        destruct (Hall3 x y Hre Hv) as (r & Hr & Hname). exists r.
        split; [|exact Hname].
        apply in_or_app. right. apply in_or_app. now right.
Qed.

End WalkFacts.

Lemma walk_warnings pathJoin pathRelative basePath o dir :
  forall currentPath results,
    warnings (validateDirectory pathJoin pathRelative dir currentPath basePath
                                results o)
    = warnings results.
Proof.
  induction dir as [| |entries IH] using node_tree_ind;
    intros currentPath results; try reflexivity.
  revert results.
  induction entries as [|[nm n] more IHm]; intros results; [reflexivity|].
  inversion IH as [|e es Hn Hmore]; subst. cbn [snd] in Hn.
  specialize (IHm Hmore). rewrite validateDirectory_cons.
  destruct (skipped o nm n); [apply IHm|]. cbv zeta. rewrite IHm.
  destruct (isDirectory n && recursive o); [rewrite Hn|];
    now destruct (isValidFileName nm (allowUppercase o)).
Qed.

(** ** The rewriter on a page made of text and tags *)

Lemma accepts_quote_isQuote c : accepts true quote c = isQuote c.
Proof. destruct c as [[] [] [] [] [] [] [] []]; reflexivity. Qed.

Lemma sameChar_to_gt a : sameChar true a ">"%char = Ascii.eqb a ">"%char.
Proof. destruct a as [[] [] [] [] [] [] [] []]; reflexivity. Qed.

(** Only a quote folds to a quote. *)
Lemma sameChar_quote a c :
  isQuote c = true -> sameChar true a c = true -> a = c.
Proof.
  unfold isQuote. intros Hq. apply orb_true_iff in Hq.
  destruct Hq as [Hq|Hq]; apply Ascii.eqb_eq in Hq; subst c;
    destruct a as [[] [] [] [] [] [] [] []]; intros H;
    vm_compute in H; try discriminate H; reflexivity.
Qed.

Lemma noChar_app x s t : noChar x (s ++ t) = noChar x s && noChar x t.
Proof. unfold noChar. apply forallb_app. Qed.

Lemma noChar_stop w :
  noChar ">"%char w = true ->
  forallb (fun a => negb (sameChar true a ">"%char)) w = true.
Proof.
  unfold noChar. intros H.
  rewrite (@forallb_same _ _ (fun c => negb (Ascii.eqb c ">"%char)) w);
    [exact H|].
  intros a. now rewrite sameChar_to_gt.
Qed.

Lemma leads_opt_none a s :
  match s with c :: _ => accepts true a c = false | [] => True end ->
  Leads true (Opt a) s ([], [], s).
Proof.
  unfold Leads. cbn [run]. destruct s as [|c s]; cbn [step].
  - intros _. cbn. eauto.
  - intros ->. cbn. eauto.
Qed.

Lemma optionalQuote_split s q s' : optionalQuote s = (q, s') -> s = q ++ s'.
Proof.
  destruct s as [|c s]; simpl.
  - intros H. inversion H. reflexivity.
  - destruct (isQuote c); intros H; inversion H; reflexivity.
Qed.

Lemma optionalQuote_leads s q s' rest :
  optionalQuote s = (q, s') ->
  Leads true (Opt quote) (s ++ ">"%char :: rest)
        (q, [], s' ++ ">"%char :: rest).
Proof.
  destruct s as [|c s]; simpl.
  - intros H. inversion H; subst. now apply leads_opt_none.
  - destruct (isQuote c) eqn:E; intros H; inversion H; subst.
    + apply leads_opt. exact (eq_trans (accepts_quote_isQuote c) E).
    + apply leads_opt_none. exact (eq_trans (accepts_quote_isQuote c) E).
Qed.

Section References.

Variables attr key : text.

Hypothesis attr_some : attr <> [].
Hypothesis attr_plain : noChar ">"%char attr = true.
Hypothesis key_plain : plainKey key = true.

Let tail : regex := lits attr ;; Opt quote ;; lits key ;; Opt quote.

Lemma key_no_gt : noChar ">"%char key = true.
Proof.
  unfold plainKey in key_plain. now apply andb_true_iff in key_plain.
Qed.

Lemma refHere_split s m cl : refHere attr key s = Some (m, cl) -> s = m ++ cl.
Proof.
  unfold refHere. destruct (startsWithCI attr s); [|discriminate].
  destruct (optionalQuote (skipn (List.length attr) s)) as [q1 s2] eqn:E1.
  destruct (startsWithCI key s2); [|discriminate].
  destruct (optionalQuote (skipn (List.length key) s2)) as [q2 s4] eqn:E2.
  intros H. injection H as <- <-.
  apply optionalQuote_split in E1, E2.
  rewrite <- !app_assoc, <- E2, firstn_skipn, <- E1.
  now rewrite firstn_skipn.
Qed.

(** Where a reference starts, the first way of matching the end of the
    first group takes it, with the quote that follows. *)
Lemma refHere_leads s m cl rest :
  refHere attr key s = Some (m, cl) ->
  Leads true tail (s ++ ">"%char :: rest) (m, [], cl ++ ">"%char :: rest).
Proof.
  unfold refHere. destruct (startsWithCI attr s) eqn:Ea; [|discriminate].
  destruct (optionalQuote (skipn (List.length attr) s)) as [q1 s2] eqn:E1.
  destruct (startsWithCI key s2) eqn:Ek; [|discriminate].
  destruct (optionalQuote (skipn (List.length key) s2)) as [q2 s4] eqn:E2.
  intros H. injection H as <- <-.
  apply startsWithCI_split in Ea, Ek.
  set (n := firstn (List.length attr) s) in *.
  set (u := firstn (List.length key) s2) in *.
  set (X := ">"%char :: rest).
  assert (Hs : s = n ++ skipn (List.length attr) s)
    by (unfold n; now rewrite firstn_skipn).
  assert (Hs2 : s2 = u ++ skipn (List.length key) s2)
    by (unfold u; now rewrite firstn_skipn).
  rewrite Hs at 1. rewrite <- app_assoc.
  apply Leads_cast
    with (s := n ++ skipn (List.length attr) s ++ X)
         (w := (n ++ q1 ++ u ++ q2, [] ++ [] ++ [] ++ [], s4 ++ X));
    [|reflexivity|reflexivity].
  unfold tail.
  apply leads_seq with (rest1 := skipn (List.length attr) s ++ X);
    [now apply leads_lits|].
  apply leads_seq with (rest1 := s2 ++ X);
    [now apply optionalQuote_leads|].
  rewrite Hs2 at 1. rewrite <- app_assoc.
  apply leads_seq with (rest1 := skipn (List.length key) s2 ++ X);
    [now apply leads_lits|].
  now apply optionalQuote_leads.
Qed.

Lemma sameText_skipn (w m t : text) :
  sameText true w m = true -> skipn (List.length w) (m ++ t) = t.
Proof.
  intros H. apply sameText_length in H. rewrite <- H.
  rewrite skipn_app, skipn_all, Nat.sub_diag. reflexivity.
Qed.

Lemma startsWithCI_skipn (w s t : text) :
  startsWithCI w s = true ->
  skipn (List.length w) (s ++ t) = skipn (List.length w) s ++ t.
Proof.
  intros H. apply startsWithCI_split, sameText_length in H.
  rewrite skipn_app.
  replace (List.length w - List.length s) with 0; [reflexivity|].
  rewrite <- H, length_firstn. lia.
Qed.

(** Where the end of the first group matches at all, a reference
    starts. *)
Lemma refHere_found s rest m caps rest' :
  Matches true tail m caps ->
  s ++ ">"%char :: rest = m ++ rest' ->
  refHere attr key s <> None.
Proof.
  unfold tail. intros HM Heq.
  apply Matches_seq_inv in HM.
  destruct HM as (n & ? & m1 & ? & -> & _ & Hn & HM).
  apply Matches_seq_inv in HM.
  destruct HM as (q1 & ? & m2 & ? & -> & _ & Hq1 & HM).
  apply Matches_seq_inv in HM.
  destruct HM as (u & ? & q2 & ? & -> & _ & Hu & _).
  apply Matches_lits in Hn. destruct Hn as [_ Hn].
  apply Matches_lits in Hu. destruct Hu as [_ Hu].
  apply Matches_opt_inv in Hq1. destruct Hq1 as [_ Hq1].
  rewrite <- !app_assoc in Heq.
  assert (Ha : startsWithCI attr s = true).
  { apply startsWithCI_stop with (g := ">"%char) (t := rest);
      [apply noChar_stop, attr_plain|].
    rewrite Heq. now apply sameText_startsWithCI. }
  assert (H1 : skipn (List.length attr) s ++ ">"%char :: rest
               = q1 ++ u ++ q2 ++ rest').
  { rewrite <- (startsWithCI_skipn attr s (">"%char :: rest) Ha), Heq.
    now apply sameText_skipn. }
  unfold refHere. rewrite Ha.
  set (s1 := skipn (List.length attr) s) in *.
  assert (Hkey : forall s2 t,
             s2 ++ ">"%char :: rest = u ++ t -> startsWithCI key s2 = true).
  { intros s2 t Hs2.
    apply startsWithCI_stop with (g := ">"%char) (t := rest);
      [apply noChar_stop, key_no_gt|].
    rewrite Hs2. now apply sameText_startsWithCI. }
  destruct Hq1 as [->|(c & -> & Hc)].
  - cbn [app] in H1. pose proof (Hkey _ _ H1) as Hk.
    destruct s1 as [|c s2]; cbn [optionalQuote].
    + rewrite Hk. now destruct (optionalQuote (skipn (List.length key) [])).
    + destruct (isQuote c) eqn:Eq.
      * destruct key as [|a key'].
        -- cbn [startsWithCI startsWith map].
           now destruct (optionalQuote (skipn (List.length (@nil ascii)) s2)).
        -- exfalso. rewrite startsWithCI_cons in Hk.
           apply andb_true_iff in Hk. destruct Hk as [Hk _].
           assert (a = c) by (apply sameChar_quote; assumption). subst a.
           unfold plainKey in key_plain.
           apply andb_true_iff in key_plain. destruct key_plain as [_ Hp].
           rewrite Eq in Hp. discriminate.
      * rewrite Hk.
        now destruct (optionalQuote (skipn (List.length key) (c :: s2))).
  - rewrite accepts_quote_isQuote in Hc.
    destruct s1 as [|c' s2].
    + cbn [app] in H1. injection H1 as <- _. discriminate.
    + cbn [app] in H1. injection H1 as -> H1. cbn [optionalQuote].
      rewrite Hc. rewrite (Hkey s2 _ H1).
      now destruct (optionalQuote (skipn (List.length key) s2)).
Qed.

Lemma tail_fails s rest :
  refHere attr key s = None -> run true tail (s ++ ">"%char :: rest) = [].
Proof.
  intros Hnone.
  destruct (run true tail (s ++ ">"%char :: rest)) as [|[[m caps] r] l] eqn:E;
    [reflexivity|].
  exfalso.
  assert (Hin : In (m, caps, r) (run true tail (s ++ ">"%char :: rest)))
    by (rewrite E; now left).
  apply run_sound in Hin. destruct Hin as [Heq HM].
  now apply (@refHere_found s rest m caps r HM Heq).
Qed.

Lemma refHere_nil : refHere attr key [] = None.
Proof.
  unfold refHere. destruct attr; [congruence|reflexivity].
Qed.

Lemma lastRefFrom_none s :
  lastRefFrom attr key s = None ->
  forall a t, s = a ++ t -> refHere attr key t = None.
Proof.
  induction s as [|c s IH]; intros H a t Hs.
  - symmetry in Hs. apply app_eq_nil in Hs. destruct Hs as [_ ->].
    apply refHere_nil.
  - cbn [lastRefFrom] in H.
    destruct (lastRefFrom attr key s) as [[o cl]|] eqn:E; [discriminate|].
    destruct a as [|c' a]; cbn [app] in Hs.
    + now subst t.
    + inversion Hs; subst. now apply (IH eq_refl a).
Qed.

Lemma lastRefFrom_some s :
  forall o cl,
    lastRefFrom attr key s = Some (o, cl) ->
    exists a t m,
      s = a ++ t /\ o = a ++ m /\
      refHere attr key t = Some (m, cl) /\
      forall y t', t = y ++ t' -> y <> [] -> refHere attr key t' = None.
Proof.
  induction s as [|c s IH]; intros o cl H; [discriminate|].
  cbn [lastRefFrom] in H.
  destruct (lastRefFrom attr key s) as [[o' cl']|] eqn:E.
  - inversion H; subst.
    destruct (IH _ _ eq_refl) as (a & t & m & -> & -> & Hr & Hl).
    exists (c :: a), t, m. repeat split; assumption.
  - exists [], (c :: s), o. repeat split; [assumption|].
    intros y t' Hs Hy. destruct y as [|c' y]; [congruence|].
    cbn [app] in Hs. inversion Hs; subst.
    now apply (lastRefFrom_none E y).
Qed.

End References.

Lemma app_eq_length (A : Type) (l1 l2 r1 r2 : list A) :
  l1 ++ r1 = l2 ++ r2 -> List.length l1 = List.length l2 ->
  l1 = l2 /\ r1 = r2.
Proof.
  revert l2. induction l1 as [|x l1 IH]; intros [|y l2] H Hlen;
    simpl in *; try discriminate; [auto|].
  injection H as -> H. destruct (IH l2 H) as [-> ->]; [lia|auto].
Qed.

Lemma refAttr_some k : txt (refAttr k) <> [].
Proof. destruct k; discriminate. Qed.

Lemma refAttr_plain k : noChar ">"%char (txt (refAttr k)) = true.
Proof. destruct k; reflexivity. Qed.

Lemma tagName_shape k :
  exists w, txt (tagName k) = "<"%char :: w /\ noChar "<"%char w = true.
Proof. destruct k; eexists; split; reflexivity. Qed.

(** A tag name in any letter case: [<], then no [<]. *)
Lemma tag_name_shape k name :
  sameText true (txt (tagName k)) name = true ->
  exists c name', name = c :: name' /\ noChar "<"%char name' = true.
Proof.
  assert (Hc : forall a c, Ascii.eqb a "<"%char = false ->
                           sameChar true a c = true ->
                           negb (Ascii.eqb c "<"%char) = true).
  { intros a c Ha Hs. destruct (Ascii.eqb c "<"%char) eqn:E; [|reflexivity].
    apply Ascii.eqb_eq in E. subst c.
    assert (H : sameChar true "<"%char a = true).
    { unfold sameChar in *. now rewrite Ascii.eqb_sym. }
    rewrite sameChar_lt in H. congruence. }
  assert (Hw : forall w m, noChar "<"%char w = true ->
                           sameText true w m = true ->
                           noChar "<"%char m = true).
  { induction w as [|a w IH]; intros [|c m] Hn Hs; simpl in *;
      try discriminate; [reflexivity|].
    apply andb_true_iff in Hn. destruct Hn as [Ha Hn].
    apply andb_true_iff in Hs. destruct Hs as [Hs Hm].
    rewrite (Hc a c), (IH m); auto. now apply negb_true_iff in Ha. }
  intros H. destruct name as [|c name'].
  - apply sameText_length in H. destruct k; discriminate H.
  - exists c, name'. split; [reflexivity|].
    destruct (tagName_shape k) as (w & Hk & Hn). rewrite Hk in H.
    cbn [sameText] in H. apply andb_true_iff in H. destruct H as [_ H].
    exact (Hw _ _ Hn H).
Qed.

(** The name of a tag of one kind is not the start of a tag of the
    other. *)
Lemma other_name k k0 name s :
  sameKind k k0 = false ->
  sameText true (txt (tagName k)) name = true ->
  startsWithCI (txt (tagName k0)) (name ++ s) = false.
Proof.
  intros Hk H. pose proof (sameText_length _ _ _ H) as Hlen.
  destruct name as [|c1 [|c2 name']];
    [destruct k; discriminate Hlen|destruct k; discriminate Hlen|].
  clear Hlen. destruct k, k0; try discriminate Hk.
  - change (txt (tagName ScriptTag))
      with ("<"%char :: "s"%char :: txt "cript") in H.
    change (txt (tagName LinkTag))
      with ("<"%char :: "l"%char :: txt "ink").
    cbn [sameText] in H.
    apply andb_true_iff in H. destruct H as [_ H].
    apply andb_true_iff in H. destruct H as [H _].
    unfold sameChar in H. apply Ascii.eqb_eq in H.
    cbn [app]. rewrite !startsWithCI_cons, <- H.
    now rewrite andb_false_r.
  - change (txt (tagName LinkTag))
      with ("<"%char :: "l"%char :: txt "ink") in H.
    change (txt (tagName ScriptTag))
      with ("<"%char :: "s"%char :: txt "cript").
    cbn [sameText] in H.
    apply andb_true_iff in H. destruct H as [_ H].
    apply andb_true_iff in H. destruct H as [H _].
    unfold sameChar in H. apply Ascii.eqb_eq in H.
    cbn [app]. rewrite !startsWithCI_cons, <- H.
    now rewrite andb_false_r.
Qed.

Section TagPasses.

Variable k0 : tagKind.
Variables key hash : text.

Hypothesis key_plain : plainKey key = true.

(** At a tag whose body holds a reference to the key, the first way of
    matching takes the whole tag, the first group ending with the last
    reference. *)
Lemma tag_leads_last name body opening closing rest :
  sameText true (txt (tagName k0)) name = true ->
  noChar ">"%char body = true ->
  lastRef (txt (refAttr k0)) key body = Some (opening, closing) ->
  Leads true (rewriterRegex (tagName k0) (refAttr k0) key)
        (name ++ body ++ ">"%char :: rest)
        (name ++ body ++ [">"%char],
         [name ++ opening; closing ++ [">"%char]], rest).
Proof.
  intros Hname Hbody Hlast.
  destruct body as [|c0 s]; [discriminate|]. cbn [lastRef] in Hlast.
  destruct (lastRefFrom (txt (refAttr k0)) key s) as [[o cl]|] eqn:E;
    [|discriminate].
  injection Hlast as <- <-.
  destruct (@lastRefFrom_some (txt (refAttr k0)) key (refAttr_some k0)
              (refAttr_plain k0)
              s o cl E)
    as (a & t & m & -> & -> & Hr & Hl).
  pose proof (@refHere_split (txt (refAttr k0)) key t m cl Hr) as Ht. subst t.
  change (c0 :: a ++ m ++ cl) with ((c0 :: a) ++ m ++ cl) in *.
  rewrite !noChar_app in Hbody.
  apply andb_true_iff in Hbody. destruct Hbody as [Ha Hbody].
  apply andb_true_iff in Hbody. destruct Hbody as [Hm Hcl].
  set (X := ">"%char :: rest).
  unfold rewriterRegex. rewrite compile_escaped.
  apply Leads_cast
    with (s := name ++ (c0 :: a) ++ (m ++ cl) ++ X)
         (w := ((name ++ (c0 :: a) ++ m) ++ cl ++ [">"%char],
                [name ++ (c0 :: a) ++ m] ++ [cl ++ [">"%char]], rest));
    [|unfold X; flatten_app; reflexivity|unfold X; flatten_app; reflexivity].
  apply leads_seq with (rest1 := cl ++ X).
  - apply leads_group.
    apply Leads_cast
      with (s := name ++ (c0 :: a) ++ (m ++ cl) ++ X)
           (w := (name ++ (c0 :: a) ++ m, [] ++ [], cl ++ X));
      [|reflexivity|reflexivity].
    apply leads_seq with (rest1 := (c0 :: a) ++ (m ++ cl) ++ X);
      [now apply leads_lits|].
    apply leads_plus_then.
    + discriminate.
    + now rewrite forallb_notGt.
    + intros y t' Heq Hy Hgt. rewrite forallb_notGt in Hgt.
      unfold X in Heq. symmetry in Heq.
      apply prefix_before_stop in Heq;
        [|exact Hgt|rewrite noChar_app; now rewrite Hm, Hcl].
      destruct Heq as (p' & Hp & ->).
      apply (@tail_fails (txt (refAttr k0)) key (refAttr_plain k0) key_plain).
      now apply (Hl y p').
    + exact (@refHere_leads (txt (refAttr k0)) key (m ++ cl) m cl rest Hr).
  - apply leads_group.
    apply Leads_cast
      with (s := cl ++ X)
           (w := (cl ++ [">"%char], [] ++ [], rest));
      [|reflexivity|reflexivity].
    apply leads_seq with (rest1 := X).
    + apply leads_star_run; [now rewrite forallb_notGt|reflexivity].
    + now apply leads_one.
Qed.

(** At a tag whose body holds no reference to the key the expression
    does not match. *)
Lemma tag_no_match name body rest :
  sameText true (txt (tagName k0)) name = true ->
  noChar ">"%char body = true ->
  lastRef (txt (refAttr k0)) key body = None ->
  run true (rewriterRegex (tagName k0) (refAttr k0) key)
      (name ++ body ++ ">"%char :: rest) = [].
Proof.
  intros Hname Hbody Hnone.
  destruct (run true (rewriterRegex (tagName k0) (refAttr k0) key)
                (name ++ body ++ ">"%char :: rest))
    as [|[[m caps] r] l] eqn:E; [reflexivity|].
  exfalso.
  assert (Hin : In (m, caps, r)
                  (run true (rewriterRegex (tagName k0) (refAttr k0) key)
                       (name ++ body ++ ">"%char :: rest)))
    by (rewrite E; now left).
  apply run_sound in Hin. destruct Hin as [Heq HM].
  unfold rewriterRegex in HM. rewrite compile_escaped in HM.
  apply Matches_seq_inv in HM.
  destruct HM as (m1 & ? & m2 & ? & -> & _ & H1 & H2).
  apply Matches_group_inv in H1. destruct H1 as (? & _ & H1).
  apply Matches_seq_inv in H1.
  destruct H1 as (t1 & ? & m3 & ? & -> & _ & Ht1 & H1).
  apply Matches_seq_inv in H1.
  destruct H1 as (a & ? & mT & ? & -> & _ & Ha & HT).
  apply Matches_lits in Ht1. destruct Ht1 as [_ Ht1].
  apply Matches_plus_inv in Ha. destruct Ha as (_ & Hane & Ha).
  rewrite forallb_notGt in Ha.
  rewrite <- !app_assoc in Heq.
  apply app_eq_length in Heq;
    [|apply sameText_length in Hname, Ht1; congruence].
  destruct Heq as [_ Heq]. symmetry in Heq.
  apply prefix_before_stop in Heq; [|exact Ha|exact Hbody].
  destruct Heq as (p' & -> & Heq). symmetry in Heq.
  apply (@refHere_found (txt (refAttr k0)) key (refAttr_plain k0) key_plain
                        p' rest mT _ _ HT) in Heq.
  apply Heq. destruct a as [|c0 a]; [congruence|].
  cbn [app lastRef] in Hnone.
  destruct (lastRefFrom (txt (refAttr k0)) key (a ++ p')) as [[o cl]|] eqn:El;
    [discriminate|].
  now apply (@lastRefFrom_none (txt (refAttr k0)) key (refAttr_some k0)
               (refAttr_plain k0)
                               (a ++ p') El a).
Qed.

(** A tag at which the expression does not match is copied. *)
Lemma tag_skipped k name body rest :
  sameText true (txt (tagName k)) name = true ->
  noChar "<"%char body = true ->
  run true (rewriterRegex (tagName k0) (refAttr k0) key)
      (name ++ body ++ ">"%char :: rest) = [] ->
  replace true (rewriterRegex (tagName k0) (refAttr k0) key)
            (addIntegrity hash) (name ++ body ++ ">"%char :: rest)
  = name ++ body
    ++ ">"%char :: replace true (rewriterRegex (tagName k0) (refAttr k0) key)
                           (addIntegrity hash) rest.
Proof.
  intros Hname Hbody Hrun.
  destruct (tag_name_shape _ _ Hname) as (c & name' & -> & Hn').
  change ((c :: name') ++ body ++ ">"%char :: rest)
    with ([c] ++ (name' ++ body ++ ">"%char :: rest)).
  rewrite replace_skip.
  - cbn [app]. f_equal.
    replace (name' ++ body ++ ">"%char :: rest)
      with ((name' ++ body ++ [">"%char]) ++ rest)
      by (now rewrite <- !app_assoc).
    rewrite rewriter_pass_skip.
    + now rewrite <- !app_assoc.
    + destruct (tagName_shape k0) as (w & -> & _). apply clashes_noLt.
      now rewrite !noChar_app, Hn', Hbody.
  - intros p1 p2 Hp Hne. destruct p1 as [|c' p1].
    + cbn [app] in Hp. subst p2. exact Hrun.
    + cbn [app] in Hp. injection Hp as _ Hp. symmetry in Hp.
      apply app_eq_nil in Hp. destruct Hp as [_ ->]. congruence.
Qed.

(** One pass over a page. *)
Lemma pass_pieces ps :
  forallb wellFormed ps = true ->
  replace true (rewriterRegex (tagName k0) (refAttr k0) key)
            (addIntegrity hash) (render ps)
  = render (map (passTag k0 key hash) ps).
Proof.
  induction ps as [|p ps IH]; intros Hwf.
  - cbn [render flat_map map]. rewrite replace_eq. cbn [exec].
    rewrite rewriterRegex_none; [reflexivity|].
    now destruct k0.
  - cbn [forallb] in Hwf. apply andb_true_iff in Hwf.
    destruct Hwf as [Hp Hwf]. specialize (IH Hwf).
    cbn [render flat_map map]. fold (render ps).
    fold (render (map (passTag k0 key hash) ps)).
    destruct p as [z|k name body].
    + cbn [renderPiece passTag wellFormed] in *.
      unfold noTagStart in Hp. apply andb_true_iff in Hp.
      rewrite rewriter_pass_skip; [now rewrite IH|].
      destruct k0; tauto.
    + cbn [renderPiece wellFormed] in *.
      apply andb_true_iff in Hp. destruct Hp as [Hp Hgt].
      apply andb_true_iff in Hp. destruct Hp as [Hname Hlt].
      rewrite <- !app_assoc. cbn [app passTag].
      destruct (sameKind k k0) eqn:Ek.
      * assert (k = k0) by (destruct k, k0; discriminate || reflexivity).
        subst k. cbn [rewriteTag].
        destruct (lastRef (txt (refAttr k0)) key body) as [[o cl]|] eqn:El.
        -- rewrite (replace_first (addIntegrity hash)
                      (@tag_leads_last name body o cl (render ps) Hname Hgt
                                       El)).
           ++ rewrite IH. unfold addIntegrity. cbn [nth].
              destruct (includes (txt "integrity=") (name ++ o));
                cbn [renderPiece]; flatten_app; reflexivity.
           ++ intros H. apply app_eq_nil in H. destruct H as [_ H].
              apply app_eq_nil in H. destruct H as [_ H]. discriminate.
        -- rewrite (@tag_skipped k0 name body (render ps) Hname Hlt
                      (@tag_no_match name body (render ps) Hname Hgt El)).
           rewrite IH. cbn [renderPiece]. flatten_app. reflexivity.
      * rewrite (@tag_skipped k name body (render ps) Hname Hlt).
        -- rewrite IH. cbn [renderPiece]. flatten_app. reflexivity.
        -- apply rewriterRegex_none. now apply other_name with (k := k).
Qed.

End TagPasses.

(** ** One entry, and the pages it leaves *)

Lemma lastRefFrom_split attr key s :
  forall o cl, lastRefFrom attr key s = Some (o, cl) -> s = o ++ cl.
Proof.
  induction s as [|c s IH]; intros o cl H; [discriminate|].
  cbn [lastRefFrom] in H.
  destruct (lastRefFrom attr key s) as [[o' cl']|] eqn:E.
  - injection H as <- <-. cbn [app]. f_equal. now apply IH.
  - now apply refHere_split in H.
Qed.

Lemma lastRef_split attr key body o cl :
  lastRef attr key body = Some (o, cl) -> body = o ++ cl.
Proof.
  destruct body as [|c s]; [discriminate|]. cbn [lastRef].
  destruct (lastRefFrom attr key s) as [[o' cl']|] eqn:E; [|discriminate].
  intros H. injection H as <- <-. cbn [app]. f_equal.
  now apply lastRefFrom_split in E.
Qed.

Lemma sriAttributes_plain hash :
  plainHash hash = true -> plainHash (sriAttributes hash) = true.
Proof.
  unfold plainHash, sriAttributes, noChar. intros H.
  apply andb_true_iff in H. destruct H as [Hlt Hgt].
  repeat (rewrite ?forallb_app; cbn [forallb app]).
  rewrite Hlt, Hgt. reflexivity.
Qed.

Lemma rewriteTag_wellFormed key hash p :
  plainHash hash = true -> wellFormed p = true ->
  wellFormed (rewriteTag key hash p) = true.
Proof.
  intros Hh Hp. destruct p as [z|k name body]; [exact Hp|].
  cbn [rewriteTag].
  destruct (lastRef (txt (refAttr k)) key body) as [[o cl]|] eqn:El;
    [|exact Hp].
  destruct (includes (txt "integrity=") (name ++ o)); [exact Hp|].
  apply lastRef_split in El. subst body.
  apply sriAttributes_plain in Hh. unfold plainHash in Hh.
  apply andb_true_iff in Hh. destruct Hh as [Hlt Hgt].
  cbn [wellFormed] in *. rewrite !noChar_app in *.
  apply andb_true_iff in Hp. destruct Hp as [Hp H2].
  apply andb_true_iff in Hp. destruct Hp as [Hn H1].
  apply andb_true_iff in H1. destruct H1 as [H1o H1c].
  apply andb_true_iff in H2. destruct H2 as [H2o H2c].
  now rewrite Hn, H1o, H1c, H2o, H2c, Hlt, Hgt.
Qed.

Lemma passTag_both key hash p :
  passTag LinkTag key hash (passTag ScriptTag key hash p)
  = rewriteTag key hash p.
Proof.
  destruct p as [z|[|] name body]; try reflexivity.
  cbn [passTag sameKind rewriteTag].
  destruct (lastRef (txt (refAttr ScriptTag)) key body) as [[o cl]|];
    [|reflexivity].
  now destruct (includes (txt "integrity=") (name ++ o)).
Qed.

Lemma passTag_wellFormed k0 key hash ps :
  plainHash hash = true -> forallb wellFormed ps = true ->
  forallb wellFormed (map (passTag k0 key hash) ps) = true.
Proof.
  intros Hh. induction ps as [|p ps IH]; [reflexivity|].
  cbn [forallb map]. intros H. apply andb_true_iff in H.
  destruct H as [Hp H]. rewrite (IH H), andb_true_r.
  destruct p as [z|k name body]; [exact Hp|]. cbn [passTag].
  destruct (sameKind k k0); [|exact Hp].
  now apply rewriteTag_wellFormed.
Qed.

(** One round of the loop over the entries, on a page. *)
Lemma rewriteEntry_pieces ps entry :
  cleanEntry entry = true -> forallb wellFormed ps = true ->
  rewriteEntry (render ps) entry = render (rewriteBy ps entry).
Proof.
  destruct entry as [key [[|c h]|]]; try reflexivity.
  unfold cleanEntry, rewriteBy. cbn [fst snd rewriteEntry].
  intros Hc Hwf. apply andb_true_iff in Hc. destruct Hc as [Hk Hh].
  change "<script"%string with (tagName ScriptTag).
  change "src="%string with (refAttr ScriptTag).
  change "<link"%string with (tagName LinkTag).
  change "href="%string with (refAttr LinkTag).
  rewrite (@pass_pieces ScriptTag key (c :: h) Hk ps Hwf).
  rewrite (@pass_pieces LinkTag key (c :: h) Hk _
             (@passTag_wellFormed ScriptTag key (c :: h) ps Hh Hwf)).
  rewrite map_map. f_equal. apply map_ext. intros p. apply passTag_both.
Qed.

Lemma rewriteBy_wellFormed ps entry :
  cleanEntry entry = true -> forallb wellFormed ps = true ->
  forallb wellFormed (rewriteBy ps entry) = true.
Proof.
  destruct entry as [key [[|c h]|]]; try (intros _ H; exact H).
  unfold cleanEntry, rewriteBy. cbn [fst snd].
  intros Hc. apply andb_true_iff in Hc. destruct Hc as [_ Hh].
  induction ps as [|p ps IH]; [reflexivity|].
  cbn [forallb map]. intros H. apply andb_true_iff in H.
  destruct H as [Hp H]. now rewrite (IH H), rewriteTag_wellFormed.
Qed.

Lemma rewriteBy_app ps1 ps2 entry :
  rewriteBy (ps1 ++ ps2) entry = rewriteBy ps1 entry ++ rewriteBy ps2 entry.
Proof.
  unfold rewriteBy. destruct (snd entry) as [[|c h]|]; try reflexivity.
  apply map_app.
Qed.

(** An entry leaves alone the tags that hold no reference to its key. *)
Lemma rewriteBy_apart p entry :
  (hashed entry = true -> refersTo (fst entry) p = false) ->
  rewriteBy [p] entry = [p].
Proof.
  unfold rewriteBy, hashed, refersTo.
  destruct entry as [key [[|c h]|]]; try reflexivity.
  cbn [fst snd falsy negb map]. intros H. specialize (H eq_refl).
  destruct p as [z|k name body]; [reflexivity|]. cbn [rewriteTag].
  now destruct (lastRef (txt (refAttr k)) key body).
Qed.

(** ** A tag once rewritten *)









Section Stops.

Variables attr key : text.
Variable g : ascii.

Hypothesis attr_stops :
  forallb (fun a => negb (sameChar true a g)) attr = true.
Hypothesis key_stops :
  forallb (fun a => negb (sameChar true a g)) key = true.
Hypothesis key_some : key <> [].



End Stops.







(** ** The entries of a hash object, one after the other *)









(** * The documented properties *)

(** C1. Idempotence fails on the specification's own scenario: the replacer
    looks for [integrity=] in the first group only, which ends with the
    source attribute, so a second run adds the two attributes again. *)
Theorem rewriter_runs_twice :
  addSRIAttributesToHTML exampleHTML exampleHashes = exampleHTMLOnce /\
  addSRIAttributesToHTML exampleHTMLOnce exampleHashes = exampleHTMLTwice /\
  addSRIAttributesToHTML
    (addSRIAttributesToHTML exampleHTML exampleHashes) exampleHashes
  <> addSRIAttributesToHTML exampleHTML exampleHashes.
Proof.
  assert (H1 : addSRIAttributesToHTML exampleHTML exampleHashes
               = exampleHTMLOnce) by (vm_compute; reflexivity).
  assert (H2 : addSRIAttributesToHTML exampleHTMLOnce exampleHashes
               = exampleHTMLTwice) by (vm_compute; reflexivity).
  split; [exact H1|]. split; [exact H2|].
  rewrite H1, H2. vm_compute. discriminate.
Qed.

(** C2. A tag whose integrity attribute stands after its source is not
    left alone: it comes out with two integrity attributes. *)
Theorem rewriter_duplicates_integrity :
  occurrences (txt "integrity=") pinnedHTML = 1 /\
  addSRIAttributesToHTML pinnedHTML exampleHashes = pinnedHTMLRewritten /\
  occurrences (txt "integrity=") pinnedHTMLRewritten = 2 /\
  addSRIAttributesToHTML pinnedFirstHTML exampleHashes = pinnedFirstHTML.
Proof. vm_compute. repeat split. Qed.




(** C4. A preload link whose URL goes through a directory named
    [stylesheets] is listed as a stylesheet: the test looks for the word
    in the whole text of the tag, not in its [rel] attribute. *)
Theorem preload_link_is_listed :
  includes (txt "rel=" ++ dq :: txt "preload" ++ [dq]) preloadHTML = true /\
  includes (txt "rel=" ++ dq :: txt "stylesheet") preloadHTML = false /\
  stylesheets (extractExternalResources preloadHTML)
  = [txt "https://cdn.example.com/stylesheets/font.woff2"].
Proof. vm_compute. repeat split. Qed.

(** C5, as amended. The entries whose hash is null (or empty) are
    skipped: the result is the one obtained without them.  And on a page
    made of text and of script and link tags, with a hash object whose
    keys with a hash hold no [>] and do not start with a quote and whose
    hashes hold neither [<] nor [>], a tag that holds no reference to a
    key with a non-empty hash (the attribute name, a quote or none, and
    the key, letter case apart) is left unchanged where it is, whatever
    the other tags of the page and the entries of the object, the text
    before it and the text after it being rewritten each on its own.  So
    the tag of a URL whose hash is null is changed only when its
    reference starts, letter case apart, with a key that has a hash. *)
Theorem null_entries_are_skipped :
  (forall (input : text) (sriHashes : list (text * hashValue)),
      addSRIAttributesToHTML input sriHashes
      = addSRIAttributesToHTML input (filter hashed sriHashes)) /\
  (forall (ps1 : list piece) (k : tagKind) (name body : text)
          (ps2 : list piece) (sriHashes : list (text * hashValue)),
      forallb wellFormed (ps1 ++ Tag k name body :: ps2) = true ->
      forallb cleanEntry sriHashes = true ->
      (forall key h, In (key, h) sriHashes -> hashed (key, h) = true ->
                     refersTo key (Tag k name body) = false) ->
      addSRIAttributesToHTML (render (ps1 ++ Tag k name body :: ps2))
                             sriHashes
      = addSRIAttributesToHTML (render ps1) sriHashes
        ++ name ++ body
        ++ ">"%char :: addSRIAttributesToHTML (render ps2) sriHashes).
Proof.
  split; [intros input sriHashes; apply addSRI_filter|].
  intros ps1 k name body ps2 sriHashes. revert ps1 ps2.
  induction sriHashes as [|entry more IH]; intros ps1 ps2 Hwf Hclean Hapart.
  - unfold addSRIAttributesToHTML, render. cbn [fold_left].
    rewrite flat_map_app. cbn [flat_map renderPiece].
    now rewrite <- !app_assoc.
  - cbn [forallb] in Hclean. apply andb_true_iff in Hclean.
    destruct Hclean as [Hentry Hclean].
    pose proof Hwf as Hparts. rewrite forallb_app in Hparts.
    cbn [forallb] in Hparts. apply andb_true_iff in Hparts.
    destruct Hparts as [Hwf1 Hparts].
    apply andb_true_iff in Hparts. destruct Hparts as [_ Hwf2].
    unfold addSRIAttributesToHTML in *. cbn [fold_left].
    rewrite (rewriteEntry_pieces _ entry Hentry Hwf).
    rewrite (rewriteEntry_pieces ps1 entry Hentry Hwf1).
    rewrite (rewriteEntry_pieces ps2 entry Hentry Hwf2).
    change (Tag k name body :: ps2) with ([Tag k name body] ++ ps2) in *.
    rewrite !rewriteBy_app.
    assert (Hsame : rewriteBy [Tag k name body] entry = [Tag k name body]).
    { apply rewriteBy_apart. intros Hh. destruct entry as [key h].
      apply (Hapart key h); [now left|exact Hh]. }
    pose proof (rewriteBy_wellFormed _ entry Hentry Hwf) as Hwf'.
    rewrite !rewriteBy_app, Hsame in Hwf'.
    rewrite Hsame. apply IH.
    + exact Hwf'.
    + exact Hclean.
    + intros key h Hin. apply Hapart. now right.
Qed.

Lemma null_entries_are_skipped_witness :
  addSRIAttributesToHTML (render examplePage) examplePageHashes
  = addSRIAttributesToHTML (render (firstn 3 examplePage)) examplePageHashes
    ++ txt "<LINK"
    ++ (attribute "rel" "stylesheet"
        ++ attribute "href" "https://cdn.example.com/b.css")
    ++ ">"%char
       :: addSRIAttributesToHTML (render (skipn 4 examplePage))
                                 examplePageHashes.
Proof.
  refine (proj2 null_entries_are_skipped (firstn 3 examplePage) LinkTag
                (txt "<LINK")
                (attribute "rel" "stylesheet"
                 ++ attribute "href" "https://cdn.example.com/b.css")
                (skipn 4 examplePage) examplePageHashes eq_refl eq_refl _).
  intros key h [H|[H|[]]] Hh; inversion H; subst.
  - reflexivity.
  - discriminate Hh.
Defined.

(** C5, as stated, fails: the first URL has a null hash, and its tag is
    rewritten all the same, by the entry of the second URL, which matches it
    because the expressions ignore letter case. *)
Lemma null_entries_are_skipped_counterexample :
  getProperty twoCasesHashes (txt "https://cdn.example.com/a.js") = Some None /\
  addSRIAttributesToHTML twoCasesHTML twoCasesHashes = twoCasesHTMLRewritten /\
  includes (txt "<script" ++ attribute "src" "https://cdn.example.com/a.js"
            ++ txt ">") twoCasesHTML = true /\
  includes (txt "<script" ++ attribute "src" "https://cdn.example.com/a.js"
            ++ txt ">") twoCasesHTMLRewritten = false.
Proof. vm_compute. repeat split. Qed.




(** C7, as amended. Each of the two lists is duplicate-free and lists the
    located references in the order of the text, each at its first
    occurrence: the matches of the loop lie one after the other in the
    text, the loop stops when nothing further matches, and the list is
    the sequence of captured URLs (for links, of the marked tags only)
    with repetitions dropped.  Every listed URL starts with [http://] or
    [https://], letter case apart, so a relative path is never listed. *)
Theorem locator_lists (input : text) :
  let res := extractExternalResources input in
  let scriptHits := hits true scriptRegex input in
  let linkHits := hits true linkRegex input in
  NoDup (scripts res) /\ NoDup (stylesheets res) /\
  scripts res = keepFirst (map group1 scriptHits) /\
  stylesheets res = keepFirst (map group1 (filter marked linkHits)) /\
  (exists tail, input = covered scriptHits ++ tail /\
                exec true scriptRegex tail = None) /\
  (exists tail, input = covered linkHits ++ tail /\
                exec true linkRegex tail = None) /\
  (forall u, In u (scripts res) \/ In u (stylesheets res) ->
             absoluteCI u = true /\ includes u input = true).
Proof.
  intros res scriptHits linkHits. unfold res.
  rewrite scripts_keepFirst, stylesheets_keepFirst.
  fold scriptHits linkHits.
  split; [apply keepFirst_NoDup|]. split; [apply keepFirst_NoDup|].
  split; [reflexivity|]. split; [reflexivity|].
  split; [apply hits_complete, locatorRegex_never_empty|].
  split; [apply hits_complete, locatorRegex_never_empty|].
  assert (Hloc : forall tag attr h,
             In h (hits true (locatorRegex tag attr) input) ->
             absoluteCI (group1 h) = true /\
             includes (group1 h) input = true).
  { intros tag attr h Hin. apply located_shape in Hin.
    destruct Hin as (pre & post & t & a & n & q1 & q2 & b & Hs & Hm & _ & _
                     & _ & _ & Habs & _).
    split; [exact Habs|]. rewrite Hs, Hm.
    replace (pre ++ (t ++ a ++ n ++ q1 ++ group1 h ++ q2 ++ b ++ [">"%char])
             ++ post)
      with ((pre ++ t ++ a ++ n ++ q1) ++ group1 h
            ++ (q2 ++ b ++ [">"%char] ++ post))
      by (repeat rewrite <- app_assoc; reflexivity).
    apply includes_app. clear. induction (group1 h) as [|c u IH]; simpl.
    - reflexivity.
    - rewrite Ascii.eqb_refl. simpl.
      assert (Hs : forall v : text, startsWith v v = true)
        by (induction v as [|x v IHv]; simpl;
            [reflexivity|now rewrite Ascii.eqb_refl]).
      now rewrite Hs. }
  intros u [Hu|Hu]; apply keepFirst_In, in_map_iff in Hu;
    destruct Hu as (h & <- & Hin).
  - now apply (Hloc "<script"%string "src="%string).
  - apply filter_In in Hin. destruct Hin as [Hin _].
    now apply (Hloc "<link"%string "href="%string).
Qed.

Lemma locator_lists_witness :
  In exampleUrl (scripts (extractExternalResources exampleHTML)) /\
  absoluteCI exampleUrl = true /\ includes exampleUrl exampleHTML = true.
Proof.
  assert (Hin : In exampleUrl (scripts (extractExternalResources exampleHTML)))
    by (vm_compute; left; reflexivity).
  split; [exact Hin|].
  destruct (locator_lists exampleHTML) as (_ & _ & _ & _ & _ & _ & H).
  exact (H exampleUrl (or_introl Hin)).
Defined.

(** C7, as stated, fails: a URL written with its scheme in capitals is
    listed although it starts with neither [http://] nor [https://]. *)
Lemma locator_lists_counterexample :
  scripts (extractExternalResources capitalSchemeHTML)
  = [txt "HTTPS://cdn.example.com/a.js"] /\
  startsWith (txt "http://") (txt "HTTPS://cdn.example.com/a.js") = false /\
  startsWith (txt "https://") (txt "HTTPS://cdn.example.com/a.js") = false.
Proof. vm_compute. repeat split. Qed.

(** C8. When the locator finds no external script or stylesheet, the
    orchestrator is fulfilled at once with the input text, the two empty
    resource lists, an empty hash object and [modified = false]; no
    request is made and nothing is printed, whatever the options. *)
Theorem no_resources_no_fetch
        (digestBase64 : algorithm -> bytes -> text)
        (network : nat -> client -> text -> fetchOutcome)
        (input : text) (options : Options) (w : World) :
  scripts (extractExternalResources input)
  ++ stylesheets (extractExternalResources input) = [] ->
  processHTMLForSRI digestBase64 network input options w
  = (Fulfilled (mkResult input (mkResources [] []) [] false), w).
Proof.
  intros Hnone. unfold processHTMLForSRI. rewrite Hnone. simpl.
  apply app_eq_nil in Hnone. destruct Hnone as [Hs Hl].
  destruct (extractExternalResources input) as [s l]. simpl in *.
  now subst.
Qed.

Lemma no_resources_no_fetch_witness :
  processHTMLForSRI scenarioDigest scenarioNetwork localOnlyHTML
                    (mkOptions None None) (mkWorld [] [])
  = (Fulfilled (mkResult localOnlyHTML (mkResources [] []) [] false),
     mkWorld [] []).
Proof.
  refine (no_resources_no_fetch scenarioDigest scenarioNetwork
            localOnlyHTML (mkOptions None None) (mkWorld [] []) _).
  vm_compute. reflexivity.
Defined.






(** * Further properties of the module *)

(** X1. The rewriter only inserts: whatever the hash object, the input
    text is a subsequence of the output (nothing is deleted, replaced or
    reordered), and the output is either the input itself or strictly
    longer. *)
Theorem rewriter_only_inserts
        (input : text) (sriHashes : list (text * hashValue)) :
  Subseq input (addSRIAttributesToHTML input sriHashes) /\
  (addSRIAttributesToHTML input sriHashes = input \/
   List.length input < List.length (addSRIAttributesToHTML input sriHashes)).
Proof.
  pose proof (addSRI_Subseq sriHashes input) as Hsub.
  split; [exact Hsub|].
  destruct (Nat.eq_dec (List.length input)
              (List.length (addSRIAttributesToHTML input sriHashes)))
    as [E|E].
  - left. symmetry. now apply Subseq_same_length.
  - right. apply Subseq_length in Hsub. lia.
Qed.

(** X2. Locator and rewriter agree: on a text that holds no [integrity=]
    yet, every URL the locator lists is found again by the rewriter, so a
    hash object that gives it a non-empty hash makes the output longer
    than the input. *)
Theorem located_url_is_rewritten
        (input u h : text) (sriHashes : list (text * hashValue)) :
  located u input ->
  In (u, Some h) sriHashes -> h <> [] ->
  includes (txt "integrity=") input = false ->
  List.length input < List.length (addSRIAttributesToHTML input sriHashes).
Proof.
  intros Hloc Hin Hh Hfresh. now apply (@addSRI_lengthens u h).
Qed.

Lemma located_url_is_rewritten_witness :
  List.length exampleHTML
  < List.length (addSRIAttributesToHTML exampleHTML exampleHashes).
Proof.
  apply (@located_url_is_rewritten exampleHTML exampleUrl exampleHash).
  - left. vm_compute. left. reflexivity.
  - left. reflexivity.
  - discriminate.
  - vm_compute. reflexivity.
Defined.

(** X3. Escaping makes the URL a literal: whatever code units the URL
    holds (dots, question marks, brackets, backslashes), [escapeRegex(url)]
    is a pattern in which every syntax character is escaped, so that it
    stands for the code units of the URL themselves; and the expression
    built from it matches at a position exactly when the text there
    starts with the URL, letter case apart, and then in one way only,
    consuming as many code units as the URL has. *)
Theorem escaped_url_matches_literally (url s : text) :
  literalPattern (escapeRegex url) = Some url /\
  run true (compileLiteral (escapeRegex url)) s
  = if startsWithCI url s
    then [(firstn (List.length url) s, [], skipn (List.length url) s)]
    else [].
Proof.
  split; [apply literal_escaped|].
  rewrite compile_escaped.
  destruct (startsWithCI url s) eqn:E.
  - rewrite <- (firstn_skipn (List.length url) s) at 1.
    apply run_lits_exact. now apply startsWithCI_split.
  - now apply run_lits_none.
Qed.

(** X4. Every URL the locator lists has at least one code unit after its
    scheme and holds no quote, no white space and no [>]. *)
Theorem located_url_is_clean (input u : text) :
  located u input ->
  forallb urlSafe u = true /\ 8 <= List.length u.
Proof.
  assert (Hhit : forall tag attr h,
             In h (hits true (locatorRegex tag attr) input) ->
             forallb urlSafe (group1 h) = true /\
             8 <= List.length (group1 h)).
  { intros tag attr h Hin. apply hitsFuel_in in Hin. destruct Hin as [HM _].
    apply locatorRegex_url in HM. destruct HM as (x & Hc & Hx).
    unfold group1. rewrite Hc. exact Hx. }
  intros [Hu|Hu].
  - rewrite scripts_keepFirst, keepFirst_In, in_map_iff in Hu.
    destruct Hu as (h & <- & Hin).
    now apply (Hhit "<script"%string "src="%string).
  - rewrite stylesheets_keepFirst, keepFirst_In, in_map_iff in Hu.
    destruct Hu as (h & <- & Hin). apply filter_In in Hin.
    destruct Hin as [Hin _]. now apply (Hhit "<link"%string "href="%string).
Qed.

Lemma located_url_is_clean_witness :
  forallb urlSafe exampleUrl = true /\ 8 <= List.length exampleUrl.
Proof.
  apply (@located_url_is_clean exampleHTML exampleUrl).
  left. vm_compute. left. reflexivity.
Defined.

(** X5. Given an options object that names one of the three documented
    algorithms, the orchestrator never rejects.  When fetching is skipped
    or every request settles it is fulfilled: it returns the resources
    the locator lists; it has requested exactly those URLs, scripts
    first, in order, and nothing when [skipFetch] is set; the text it
    returns holds the input as a subsequence; [modified] tells whether
    the two texts differ; and the hash object has no key outside the
    listed URLs.  Otherwise it stays pending at the first request that
    does not settle, the URLs after that one never being requested. *)
Theorem orchestrator_never_rejects
        (digestBase64 : algorithm -> bytes -> text)
        (network : nat -> client -> text -> fetchOutcome)
        (input : text) (options : Options) (w : World) :
  if skipFetchOf options
     || allSettle network (List.length (requests w)) (allUrlsOf input)
  then
    exists res w',
      processHTMLForSRI digestBase64 network input options w
      = (Fulfilled res, w') /\
      resources res = extractExternalResources input /\
      requests w'
      = requests w ++ (if skipFetchOf options then [] else allUrlsOf input) /\
      Subseq input (html res) /\
      modified res = negb (text_eqb (html res) input) /\
      incl (keys (hashes res)) (allUrlsOf input)
  else
    exists i u w',
      processHTMLForSRI digestBase64 network input options w
      = (Pending, w') /\
      nth_error (allUrlsOf input) i = Some u /\
      settles (network (List.length (requests w) + i) (clientFor u) u)
      = false /\
      requests w' = requests w ++ firstn (S i) (allUrlsOf input).
Proof.
  rewrite processHTMLForSRI_cases.
  destruct (allUrlsOf input) as [|u0 rest] eqn:Eall.
  - rewrite orb_true_r.
    eexists. eexists. split; [reflexivity|]. cbn.
    rewrite text_eqb_refl. repeat split.
    + destruct (skipFetchOf options); now rewrite app_nil_r.
    + apply Subseq_refl.
    + intros x [].
  - destruct (skipFetchOf options); cbn [orb].
    + eexists. eexists. split; [reflexivity|]. cbn.
      rewrite text_eqb_refl, app_nil_r. repeat split.
      * apply Subseq_refl.
      * intros x [].
    + pose proof (batch_run digestBase64 network (u0 :: rest)
                            (algorithmOf options)
                            (announced w (u0 :: rest))) as Hb.
      change (requests (announced w (u0 :: rest))) with (requests w) in Hb.
      destruct (allSettle network (List.length (requests w)) (u0 :: rest)).
      * destruct Hb as (hs & w' & Hrun & Hreq & Hkeys).
        rewrite Hrun. eexists. eexists. split; [reflexivity|]. cbn.
        repeat split.
        -- exact Hreq.
        -- apply addSRI_Subseq.
        -- exact Hkeys.
      * destruct Hb as (i & u & w' & Hrun & Hi & Hs & Hreq).
        rewrite Hrun. exists i, u, w'. auto.
Qed.

(** X6. With [skipFetch] set the orchestrator makes no request: it
    returns the input text, the located resources, an empty hash object
    and [modified = false]. *)
Theorem skip_fetch_makes_no_request
        (digestBase64 : algorithm -> bytes -> text)
        (network : nat -> client -> text -> fetchOutcome)
        (input : text) (options : Options) (w : World) :
  optSkipFetch options = Some true ->
  exists w',
    processHTMLForSRI digestBase64 network input options w
    = (Fulfilled (mkResult input (extractExternalResources input) [] false),
       w') /\
    requests w' = requests w.
Proof.
  intros Hskip. rewrite processHTMLForSRI_cases. unfold skipFetchOf.
  rewrite Hskip. destruct (allUrlsOf input); eexists; split; reflexivity.
Qed.

Lemma skip_fetch_makes_no_request_witness :
  exists w',
    processHTMLForSRI scenarioDigest servingNetwork exampleHTML
                      (mkOptions None (Some true)) (mkWorld [] [])
    = (Fulfilled (mkResult exampleHTML (extractExternalResources exampleHTML)
                           [] false), w') /\
    requests w' = [].
Proof.
  apply (skip_fetch_makes_no_request scenarioDigest servingNetwork
           exampleHTML (mkOptions None (Some true)) (mkWorld [] [])).
  reflexivity.
Defined.

(** X7. When every request settles and none gets a complete response with
    status 200, the orchestrator returns the input text unchanged, with
    [modified = false] and a hash object that holds only nulls. *)
Theorem all_fetches_fail_leaves_page
        (digestBase64 : algorithm -> bytes -> text)
        (network : nat -> client -> text -> fetchOutcome)
        (input : text) (options : Options) (w : World) :
  allSettle network (List.length (requests w)) (allUrlsOf input) = true ->
  (forall n c u chunks, network n c u <> Response 200 chunks) ->
  exists res w',
    processHTMLForSRI digestBase64 network input options w
    = (Fulfilled res, w') /\
    html res = input /\ modified res = false /\
    (forall u v, In (u, v) (hashes res) -> v = None).
Proof.
  intros Hall Hfail. rewrite processHTMLForSRI_cases.
  destruct (allUrlsOf input) as [|u0 rest] eqn:Eall.
  - eexists. eexists. split; [reflexivity|]. cbn. repeat split.
    intros u v [].
  - destruct (skipFetchOf options).
    + eexists. eexists. split; [reflexivity|]. cbn. repeat split.
      intros u v [].
    + rewrite batch_hashEach.
      destruct (hashEach_total digestBase64 network (u0 :: rest)
                  (algorithmOf options) (mkObject true [])
                  (announced w (u0 :: rest)) Hall)
        as (hs & w' & Hrun & _).
      rewrite Hrun.
      assert (Hnull : forall k v, In (k, v) (ownEntries hs) -> v = None).
      { eapply hashEach_all_fail; [exact Hfail|exact Hrun|].
        intros k v []. }
      eexists. eexists. split; [reflexivity|]. cbn.
      rewrite (addSRI_all_null input (ownEntries hs) Hnull), text_eqb_refl.
      repeat split. exact Hnull.
Qed.

Lemma all_fetches_fail_leaves_page_witness :
  exists res w',
    processHTMLForSRI scenarioDigest failingNetwork exampleHTML
                      (mkOptions None None) (mkWorld [] [])
    = (Fulfilled res, w') /\
    html res = exampleHTML /\ modified res = false /\
    (forall u v, In (u, v) (hashes res) -> v = None).
Proof.
  apply (all_fetches_fail_leaves_page scenarioDigest failingNetwork
           exampleHTML (mkOptions None None) (mkWorld [] [])).
  - vm_compute. reflexivity.
  - intros n c u chunks. discriminate.
Defined.

(** X8. On a text that holds no [integrity=] yet, when fetching is not
    skipped, every request settles and the last request for one of the
    listed URLs gets a complete response with status 200, the
    orchestrator returns a strictly longer text with [modified = true],
    and the hash object holds the hash of that response for the URL. *)
Theorem successful_fetch_modifies_page
        (digestBase64 : algorithm -> bytes -> text)
        (network : nat -> client -> text -> fetchOutcome)
        (input : text) (options : Options) (w : World)
        (i : nat) (u : text) (chunks : list bytes) :
  skipFetchOf options = false ->
  includes (txt "integrity=") input = false ->
  allSettle network (List.length (requests w)) (allUrlsOf input) = true ->
  nth_error (allUrlsOf input) i = Some u ->
  ~ In u (skipn (S i) (allUrlsOf input)) ->
  network (List.length (requests w) + i) (clientFor u) u
  = Response 200 chunks ->
  exists res w',
    processHTMLForSRI digestBase64 network input options w
    = (Fulfilled res, w') /\
    modified res = true /\
    List.length input < List.length (html res) /\
    getProperty (hashes res) u
    = Some (Some (generateSRIHash digestBase64 (List.concat chunks)
                                  (algorithmOf options))).
Proof.
  intros Hskip Hfresh Hall Hi Hlast Hok.
  rewrite processHTMLForSRI_cases, Hskip.
  assert (Hloc : located u input).
  { apply nth_error_In in Hi. unfold allUrlsOf in Hi.
    apply in_app_or in Hi. exact Hi. }
  assert (Hp : u <> protoKey).
  { intros ->. apply located_url_absolute in Hloc. discriminate Hloc. }
  destruct (allUrlsOf input) as [|u0 rest] eqn:Eall;
    [destruct i; discriminate|].
  rewrite batch_hashEach.
  destruct (hashEach_total digestBase64 network (u0 :: rest)
              (algorithmOf options) (mkObject true [])
              (announced w (u0 :: rest)) Hall)
    as (hs & w' & Hrun & _ & _ & _ & _ & _ & Hown & _).
  rewrite Hrun. specialize (Hown i u Hi Hlast Hp).
  cbn [announced requests] in Hown. rewrite Hok in Hown.
  cbn [recorded Z.eqb Pos.eqb] in Hown.
  assert (Hlen : List.length input
                 < List.length (addSRIAttributesToHTML input (ownEntries hs))).
  { apply (@addSRI_lengthens u _ input (ownEntries hs)
             (getProperty_In _ _ Hown));
      [apply generateSRIHash_nonempty|exact Hloc|exact Hfresh]. }
  eexists. eexists. split; [reflexivity|]. cbn. repeat split.
  - destruct (text_eqb (addSRIAttributesToHTML input (ownEntries hs)) input)
      eqn:E; [|reflexivity].
    apply text_eqb_eq in E. rewrite E in Hlen. lia.
  - exact Hlen.
  - exact Hown.
Qed.

Lemma successful_fetch_modifies_page_witness :
  exists res w',
    processHTMLForSRI scenarioDigest servingNetwork exampleHTML
                      (mkOptions None None) (mkWorld [] [])
    = (Fulfilled res, w') /\
    modified res = true /\
    List.length exampleHTML < List.length (html res) /\
    getProperty (hashes res) exampleUrl = Some (Some (txt "sha384-XXXX")).
Proof.
  apply (@successful_fetch_modifies_page scenarioDigest servingNetwork
           exampleHTML (mkOptions None None) (mkWorld [] []) 0 exampleUrl
           [[Byte.x61]]).
  - reflexivity.
  - vm_compute. reflexivity.
  - vm_compute. reflexivity.
  - vm_compute. reflexivity.
  - vm_compute. intros [].
  - reflexivity.
Defined.

(** ** The script *)

(** X9. What [processFile] comes to, case by case.  When nothing is at
    the path it returns [false] and sends no request.  When the path is a
    directory, or a file that may not be read, it rejects with the error
    of [readFileSync], which is called before the [try], and sends no
    request.  When the file is read it sends one request for each URL
    located in it, in a dry run too: it stays pending if one of them does
    not settle; otherwise it returns [true], unless the text was modified
    and the file, not in a dry run, could not be written, in which case
    the [catch] branch returns [false]; the file then holds the text the
    orchestrator returned if it was written, and what it held if not. *)
Theorem processFile_outcomes
        (digestBase64 : algorithm -> bytes -> text)
        (network : nat -> client -> text -> fetchOutcome)
        (filePath : text) (options : FileOptions) (m : Machine) :
  match lookup (disk m) filePath with
  | None =>
      exists m',
        processFile digestBase64 network filePath options m
        = (Fulfilled false, m') /\
        sent m' = sent m /\ disk m' = disk m
  | Some (RegularFile content true writable) =>
      if allSettle network (List.length (sent m)) (allUrlsOf content)
      then
        exists res w' m',
          processHTMLForSRI digestBase64 network content
            (mkOptions (Some (fileAlgorithmOf options)) (Some false))
            (mkWorld (sent m) [])
          = (Fulfilled res, w') /\
          processFile digestBase64 network filePath options m
          = (Fulfilled (negb (modified res) || dryRunOf options || writable),
             m') /\
          sent m' = sent m ++ allUrlsOf content /\
          readFileSync (disk m') filePath
          = Some (if negb (dryRunOf options) && writable
                  then html res else content)
      else
        exists m',
          processFile digestBase64 network filePath options m
          = (Pending, m') /\
          disk m' = disk m
  | Some _ =>
      exists e m',
        processFile digestBase64 network filePath options m
        = (Rejected e, m') /\
        sent m' = sent m /\ disk m' = disk m
  end.
Proof.
  pose proof (processFile_run digestBase64 network filePath options m) as H.
  destruct (lookup (disk m) filePath) as [[|content [|] writable]|] eqn:El.
  - destruct H as (m' & Hrun & Hs & Hd). eauto.
  - destruct (allSettle network (List.length (sent m)) (allUrlsOf content));
      [|exact H].
    destruct H as (res & w' & m' & Ho & _ & Hmod & Hrun & Hs & Hd).
    exists res, w', m'. repeat split; try assumption.
    rewrite Hd. unfold readFileSync.
    destruct (modified res) eqn:Em; cbn [andb].
    + destruct (negb (dryRunOf options) && writable) eqn:Ew;
        [|now rewrite El].
      now rewrite lookup_store, text_eqb_refl, El.
    + rewrite El. symmetry in Hmod.
      apply negb_false_iff, text_eqb_eq in Hmod. rewrite Hmod.
      now destruct (negb (dryRunOf options) && writable).
  - destruct H as (m' & Hrun & Hs & Hd). eauto.
  - exact H.
Qed.

(** X10. [processFile] touches no file but its own: every other path
    reads as before, and no file is created or removed. *)
Theorem processFile_leaves_other_files
        (digestBase64 : algorithm -> bytes -> text)
        (network : nat -> client -> text -> fetchOutcome)
        (filePath : text) (options : FileOptions) (m : Machine) (q : text) :
  q <> filePath ->
  readFileSync
    (disk (snd (processFile digestBase64 network filePath options m))) q
  = readFileSync (disk m) q /\
  forall p,
    existsSync
      (disk (snd (processFile digestBase64 network filePath options m))) p
    = existsSync (disk m) p.
Proof.
  intros Hne. split; [|apply processFile_keeps_files].
  destruct (processFile_effect digestBase64 network filePath options m)
    as [Hd | (_ & content & html' & _ & _ & _ & Hd)];
    [now rewrite Hd|].
  eapply read_write_other; eauto.
Qed.

Lemma processFile_leaves_other_files_witness :
  readFileSync
    (disk (snd (processFile scenarioDigest servingNetwork (txt "index.html")
                            (mkFileOptions None None) exampleMachine)))
    (txt "about.html")
  = readFileSync (disk exampleMachine) (txt "about.html") /\
  forall p,
    existsSync
      (disk (snd (processFile scenarioDigest servingNetwork (txt "index.html")
                              (mkFileOptions None None) exampleMachine))) p
    = existsSync (disk exampleMachine) p.
Proof.
  apply (@processFile_leaves_other_files scenarioDigest servingNetwork
           (txt "index.html") (mkFileOptions None None) exampleMachine
           (txt "about.html")).
  discriminate.
Defined.

(** X11. When the file can be read and written and every request
    settles, after [processFile] the file holds the text the orchestrator
    returned for its content (asked with [skipFetch: false] and the
    algorithm of the options); in a dry run it holds what it held. *)
Theorem processFile_stores_rewritten_page
        (digestBase64 : algorithm -> bytes -> text)
        (network : nat -> client -> text -> fetchOutcome)
        (filePath : text) (options : FileOptions) (m : Machine)
        (content : text) :
  readFileSync (disk m) filePath = Some content ->
  processable (disk m) filePath = true ->
  allSettle network (List.length (sent m)) (allUrlsOf content) = true ->
  exists res w',
    processHTMLForSRI digestBase64 network content
      (mkOptions (Some (fileAlgorithmOf options)) (Some false))
      (mkWorld (sent m) [])
    = (Fulfilled res, w') /\
    readFileSync
      (disk (snd (processFile digestBase64 network filePath options m)))
      filePath
    = Some (if dryRunOf options then content else html res).
Proof.
  intros Hread Hrights Hall.
  pose proof (processFile_run digestBase64 network filePath options m) as H.
  unfold readFileSync, processable in *.
  destruct (lookup (disk m) filePath) as [[|c [|] [|]]|] eqn:El;
    try discriminate.
  inversion Hread; subst c. rewrite Hall in H.
  destruct H as (res & w' & m' & Ho & _ & Hmod & Hrun & _ & Hd).
  exists res, w'. split; [exact Ho|].
  rewrite Hrun. cbn [snd]. rewrite Hd, andb_true_r.
  destruct (modified res) eqn:Em; cbn [andb].
  - destruct (dryRunOf options); cbn [negb]; [now rewrite El|].
    now rewrite lookup_store, text_eqb_refl, El.
  - rewrite El. symmetry in Hmod.
    apply negb_false_iff, text_eqb_eq in Hmod. rewrite Hmod.
    now destruct (dryRunOf options).
Qed.

Lemma processFile_stores_rewritten_page_witness :
  exists res w',
    processHTMLForSRI scenarioDigest servingNetwork exampleHTML
      (mkOptions (Some sha384) (Some false)) (mkWorld [] [])
    = (Fulfilled res, w') /\
    readFileSync
      (disk (snd (processFile scenarioDigest servingNetwork
                              (txt "index.html") (mkFileOptions None None)
                              exampleMachine)))
      (txt "index.html")
    = Some (html res).
Proof.
  apply (@processFile_stores_rewritten_page scenarioDigest servingNetwork
           (txt "index.html") (mkFileOptions None None) exampleMachine
           exampleHTML).
  - reflexivity.
  - reflexivity.
  - vm_compute. reflexivity.
Defined.

(** X12. When every request settles and each of its files is missing or
    can be read and written, [main] does not reject: it ends with
    [process.exit(1)] exactly when one of the files does not exist, and
    returns otherwise. *)
Theorem main_exit_code
        (digestBase64 : algorithm -> bytes -> text)
        (network : nat -> client -> text -> fetchOutcome)
        (indexPath notFoundPath : text) (argv : list text) (m : Machine) :
  everySettles network ->
  forallb (processable (disk m)) (filesOf indexPath notFoundPath argv)
  = true ->
  exists m',
    main digestBase64 network indexPath notFoundPath argv m
    = (Fulfilled
         (if forallb (fun p => existsSync (disk m) p)
                     (filesOf indexPath notFoundPath argv)
          then Returned else Exit 1), m').
Proof.
  intros Hnet Hfiles.
  destruct (main_run digestBase64 network indexPath notFoundPath argv m)
    as (m0 & Hd0 & ->).
  rewrite <- Hd0 in *.
  destruct (@processAll_run digestBase64 network
              (filesOf indexPath notFoundPath argv)
              (mkFileOptions (Some (asksDryRun argv)) (Some sha384)) Hnet
              true m0 Hfiles)
    as (m' & ->).
  cbn [andb]. clear Hfiles.
  destruct (forallb _ _); eexists; reflexivity.
Qed.

Lemma main_exit_code_witness :
  exists m',
    main scenarioDigest servingNetwork (txt "../index.html")
         (txt "../404.html") exampleArgv exampleMachine
    = (Fulfilled Returned, m').
Proof.
  apply (@main_exit_code scenarioDigest servingNetwork (txt "../index.html")
           (txt "../404.html") exampleArgv exampleMachine).
  - intros n c u. reflexivity.
  - reflexivity.
Defined.

(** X13. With [--dry-run] or [-d] among the arguments [main] leaves every
    file as it was. *)
Theorem main_dry_run_writes_nothing
        (digestBase64 : algorithm -> bytes -> text)
        (network : nat -> client -> text -> fetchOutcome)
        (indexPath notFoundPath : text) (argv : list text) (m : Machine) :
  asksDryRun argv = true ->
  disk (snd (main digestBase64 network indexPath notFoundPath argv m))
  = disk m.
Proof.
  intros Hdry.
  destruct (main_effect digestBase64 network indexPath notFoundPath argv m)
    as (Hd & _).
  auto.
Qed.

Lemma main_dry_run_writes_nothing_witness :
  disk (snd (main scenarioDigest servingNetwork (txt "../index.html")
                  (txt "../404.html") exampleDryArgv exampleMachine))
  = disk exampleMachine.
Proof.
  apply (@main_dry_run_writes_nothing scenarioDigest servingNetwork
           (txt "../index.html") (txt "../404.html") exampleDryArgv
           exampleMachine).
  reflexivity.
Defined.

(** X14. [main] only adds text to files: what a file held is still there,
    in order, in what it holds afterwards, and a file that is not one of
    those processed holds what it held. *)
Theorem main_only_adds_text
        (digestBase64 : algorithm -> bytes -> text)
        (network : nat -> client -> text -> fetchOutcome)
        (indexPath notFoundPath : text) (argv : list text) (m : Machine)
        (q content : text) :
  readFileSync (disk m) q = Some content ->
  exists content',
    readFileSync
      (disk (snd (main digestBase64 network indexPath notFoundPath argv m))) q
    = Some content' /\
    Subseq content content' /\
    (~ In q (filesOf indexPath notFoundPath argv) -> content' = content).
Proof.
  intros Hread.
  destruct (main_effect digestBase64 network indexPath notFoundPath argv m)
    as (_ & Hother & Hsub).
  destruct (Hsub q content Hread) as (content' & Hr & Hs).
  exists content'. repeat split; auto.
  intros Hq. rewrite (Hother q Hq), Hread in Hr. congruence.
Qed.

Lemma main_only_adds_text_witness :
  exists content',
    readFileSync
      (disk (snd (main scenarioDigest servingNetwork (txt "../index.html")
                       (txt "../404.html") exampleArgv exampleMachine)))
      (txt "index.html")
    = Some content' /\
    Subseq exampleHTML content' /\
    (~ In (txt "index.html")
          (filesOf (txt "../index.html") (txt "../404.html") exampleArgv) ->
     content' = exampleHTML).
Proof.
  apply (@main_only_adds_text scenarioDigest servingNetwork
           (txt "../index.html") (txt "../404.html") exampleArgv
           exampleMachine (txt "index.html") exampleHTML).
  reflexivity.
Defined.

(** ** The rewriter and the checks made of its result *)

(** X15. When the rewriter changes the text at all, its result holds the
    two attributes, complete, with one of the hashes it was given: the text
    [ integrity=QhashQ crossorigin=QanonymousQ] (Q the double quote), and
    so both [integrity=] and [crossorigin=]. *)
Theorem changed_page_has_the_attributes (input : text)
        (sriHashes : list (text * hashValue)) :
  addSRIAttributesToHTML input sriHashes = input \/
  (exists url hash,
      In (url, Some hash) sriHashes /\ hash <> [] /\
      includes (sriAttributes hash) (addSRIAttributesToHTML input sriHashes)
      = true) /\
  includes (txt "integrity=") (addSRIAttributesToHTML input sriHashes) = true /\
  includes (txt "crossorigin=") (addSRIAttributesToHTML input sriHashes) = true.
Proof.
  destruct (addSRI_changed sriHashes input)
    as [H|(u & hash & Hin & Hne & Hinc)];
    [now left|right].
  split; [now exists u, hash|].
  split; (eapply includes_trans; [|exact Hinc]); unfold sriAttributes.
  - apply (includes_here (txt "integrity=") [" "%char]).
  - apply includes_iff.
    exists (txt " integrity=" ++ dq :: hash ++ [dq; " "%char]),
           (dq :: txt "anonymous" ++ [dq]).
    rewrite <- !app_assoc. cbn [app]. rewrite <- !app_assoc. reflexivity.
Qed.

(** X16. The rewriter never changes what the validator's DOCTYPE check
    says of a page: the check returns the same object for the rewritten
    text as for the text given, whatever the hashes. *)
Theorem rewriter_keeps_doctype_check (input : text)
        (sriHashes : list (text * hashValue)) :
  checkDoctype (addSRIAttributesToHTML input sriHashes) = checkDoctype input.
Proof.
  unfold addSRIAttributesToHTML. revert input.
  induction sriHashes as [|entry more IH]; intros input; [reflexivity|].
  cbn [fold_left]. now rewrite IH, rewriteEntry_keeps_doctype.
Qed.

(** X17. The DOCTYPE check accepts a text exactly when, after white space
    only, it goes on with [<!DOCTYPE html>] in any letter case; what
    follows, and white space at the end, do not matter. *)
Theorem doctype_check_reads_the_start (input : text) :
  checkValid (checkDoctype input) = true <->
  exists spaces declaration rest,
    input = spaces ++ declaration ++ rest /\
    forallb isSpace spaces = true /\
    map canonicalize declaration = txt "<!DOCTYPE HTML>".
Proof.
  rewrite checkDoctype_valid. split.
  - intros H. destruct (trimStart_spaces input) as (ws & Hws & Hsp).
    exists ws, (firstn 15 (trimStart input)), (skipn 15 (trimStart input)).
    rewrite firstn_skipn. repeat split; auto.
    apply startsWithCI_split in H. cbn [List.length txt list_ascii_of_string] in H.
    revert H. generalize (firstn 15 (trimStart input)). clear.
    intros d H.
    assert (G : forall w m, sameText true w m = true ->
                            map canonicalize m = map canonicalize w).
    { induction w as [|a w IH]; intros [|c m] Hm; try discriminate;
        [reflexivity|].
      cbn in Hm. apply andb_true_iff in Hm. destruct Hm as [Hc Hm].
      apply Ascii.eqb_eq in Hc. cbn. now rewrite Hc, (IH m Hm). }
    now rewrite (G _ _ H).
  - intros (ws & d & rest & -> & Hws & Hd).
    assert (Ht : trimStart (ws ++ d ++ rest) = d ++ rest).
    { induction ws as [|c ws IH]; cbn [app trimStart].
      - destruct d as [|x d]; [discriminate|].
        cbn [app trimStart]. injection Hd as Hx _.
        assert (Hsx : isSpace x = false).
        { rewrite <- isSpace_canonicalize, Hx. reflexivity. }
        now rewrite Hsx.
      - cbn [forallb] in Hws. apply andb_true_iff in Hws.
        destruct Hws as [-> Hws]. now apply IH. }
    rewrite Ht. apply startsWithCI_app.
    unfold startsWithCI. rewrite Hd. reflexivity.
Qed.

(** ** The escaping of the page generator *)

(** X18. A text escaped by [escapeHtml] holds none of [<], [>], the
    double quote, the apostrophe and [/], whatever was given (for a value
    that is no string the result is the empty text). *)
Theorem escaped_text_has_no_markup (value : jsValue) :
  forallb plainChar (escapeHtml value) = true.
Proof.
  destruct value as [s|]; [|reflexivity].
  rewrite escapeHtml_flat.
  induction s as [|c s IH]; [reflexivity|].
  cbn [flat_map]. rewrite forallb_app, IH, andb_true_r.
  apply escapeHtmlChar_plain.
Qed.

(** X19. Every ampersand of an escaped text starts one of the six
    entities [escapeHtml] writes: an ampersand of the text given is
    written [&amp;]. *)
Theorem escaped_ampersand_starts_entity (value : jsValue) (pre post : text) :
  escapeHtml value = pre ++ "&"%char :: post ->
  exists e post', In e entities /\ "&"%char :: post = e ++ post'.
Proof.
  destruct value as [s|].
  - rewrite escapeHtml_flat. apply escaped_ampersand.
  - destruct pre; discriminate.
Qed.

Lemma escaped_ampersand_starts_entity_witness :
  exists e post', In e entities /\ txt "&amp;b" = e ++ post'.
Proof.
  apply (@escaped_ampersand_starts_entity (JsString (txt "a&b")) (txt "a")
           (txt "amp;b")).
  vm_compute. reflexivity.
Defined.

(** X20. [escapeHtml] loses nothing: two texts with the same escaping are
    the same text. *)
Theorem escapeHtml_injective (s t : text) :
  escapeHtml (JsString s) = escapeHtml (JsString t) -> s = t.
Proof.
  rewrite !escapeHtml_flat. revert t.
  assert (Hne : forall c, escapeHtmlChar c <> []).
  { intros c. unfold escapeHtmlChar.
    repeat match goal with |- context [if ?b then _ else _] => destruct b end;
      discriminate. }
  induction s as [|c s IH]; intros [|d t] H; cbn [flat_map] in H.
  - reflexivity.
  - symmetry in H. apply app_eq_nil in H. destruct H as [H _].
    now apply Hne in H.
  - apply app_eq_nil in H. destruct H as [H _]. now apply Hne in H.
  - apply escapeHtmlChar_inj in H. destruct H as [-> H]. f_equal. now apply IH.
Qed.

Lemma escapeHtml_injective_witness :
  txt "<a href='x'>" = txt "<a href='x'>".
Proof.
  apply (@escapeHtml_injective (txt "<a href='x'>") (txt "<a href='x'>")).
  reflexivity.
Defined.

(** X21. In a text without [<] the locator finds no resource and the
    rewriter changes nothing, whatever the hashes. *)
Theorem text_without_tags_is_inert (input : text) :
  noChar "<"%char input = true ->
  extractExternalResources input = mkResources [] [] /\
  forall sriHashes, addSRIAttributesToHTML input sriHashes = input.
Proof.
  intros Hno. split; [now apply no_lt_no_resources|].
  intros sriHashes. now apply no_lt_not_rewritten.
Qed.

Lemma text_without_tags_is_inert_witness :
  extractExternalResources (txt "src=https://cdn.example.com/a.js")
  = mkResources [] [] /\
  forall sriHashes,
    addSRIAttributesToHTML (txt "src=https://cdn.example.com/a.js") sriHashes
    = txt "src=https://cdn.example.com/a.js".
Proof.
  apply (@text_without_tags_is_inert (txt "src=https://cdn.example.com/a.js")).
  reflexivity.
Defined.

(** X22. Content written through [escapeHtml] brings no resource: in an
    escaped text the locator finds nothing, so the orchestrator would
    fetch nothing for it, and the rewriter leaves it as it is. *)
Theorem escaped_text_is_inert (value : jsValue) :
  extractExternalResources (escapeHtml value) = mkResources [] [] /\
  forall sriHashes,
    addSRIAttributesToHTML (escapeHtml value) sriHashes = escapeHtml value.
Proof.
  pose proof (plain_noLt _ (escapeHtml_plain value)) as Hno.
  split; [now apply no_lt_no_resources|].
  intros sriHashes. now apply no_lt_not_rewritten.
Qed.

(** ** The file-name validator *)

(** X23. What [suggestValidFileName] returns is the empty text or a name
    that [isValidFileName] accepts, with or without [allowUppercase]. *)
Theorem suggestion_is_valid_or_empty (filename : text) (allowUppercase : bool) :
  suggestValidFileName filename = [] \/
  isValidFileName (suggestValidFileName filename) allowUppercase = true.
Proof.
  destruct (suggestValidFileName filename) as [|c t] eqn:E; [now left|right].
  assert (H : isValidFileName (c :: t) allowUppercase = true).
  { apply tidy_valid; [|discriminate]. rewrite <- E. apply suggest_tidy. }
  exact H.
Qed.

(** X24. A suggestion is its own suggestion: [suggestValidFileName]
    applied twice gives what it gives applied once. *)
Theorem suggestion_is_stable (filename : text) :
  suggestValidFileName (suggestValidFileName filename)
  = suggestValidFileName filename.
Proof. apply tidy_fixed, suggest_tidy. Qed.

(** X25. For a name that [isValidFileName] rejects, [getInvalidReason]
    names one of the rules: it never falls through to its last answer,
    [Unknown naming convention violation]. *)
Theorem invalid_name_has_a_reason (filename : text) (allowUppercase : bool) :
  isValidFileName filename allowUppercase = false ->
  getInvalidReason filename allowUppercase
  <> txt "Unknown naming convention violation".
Proof.
  intros Hinv.
  destruct (arrayIncludes filename specialFiles) eqn:Es.
  { unfold isValidFileName in Hinv. rewrite Es in Hinv. discriminate. }
  rewrite isValid_cases in Hinv by exact Es.
  unfold getInvalidReason.
  destruct (includes (txt " ") filename); [discriminate|].
  destruct (negb allowUppercase
            && test false (One (OneOf upperLetters)) filename);
    [discriminate|].
  destruct (includes (txt "--") filename); [discriminate|].
  destruct (includes (txt "..") filename); [discriminate|].
  destruct (startsWith (txt ".") filename);
    destruct (startsWith (txt "-") filename || endsWith (txt "-") filename);
    cbn [negb andb orb] in *;
    try discriminate;
    destruct (testWhole false _ filename); cbn [negb] in *; discriminate.
Qed.

Lemma invalid_name_has_a_reason_witness :
  getInvalidReason (txt "My File.txt") false
  <> txt "Unknown naming convention violation".
Proof.
  apply (@invalid_name_has_a_reason (txt "My File.txt") false).
  vm_compute. reflexivity.
Defined.

(** X26. The two functions agree on the names that are not special
    files: for a name [isValidFileName] accepts that is none of them,
    [getInvalidReason] finds no rule broken and gives its last answer. *)
Theorem valid_name_breaks_no_rule (filename : text) (allowUppercase : bool) :
  isValidFileName filename allowUppercase = true ->
  arrayIncludes filename specialFiles = false ->
  getInvalidReason filename allowUppercase
  = txt "Unknown naming convention violation".
Proof.
  intros Hv Hsp. rewrite isValid_cases in Hv by exact Hsp.
  repeat (apply andb_true_iff in Hv; destruct Hv as [Hv ?]).
  apply negb_true_iff in Hv.
  repeat match goal with
         | H : negb _ = true |- _ => apply negb_true_iff in H
         end.
  unfold getInvalidReason. rewrite Hv.
  assert (Hu : negb allowUppercase
               && test false (One (OneOf upperLetters)) filename = false).
  { destruct allowUppercase; [reflexivity|]. cbn [negb andb].
    now apply upper_test. }
  rewrite Hu.
  repeat match goal with
         | H : includes _ _ = false |- _ => rewrite H; clear H
         | H : testWhole _ _ _ = true |- _ => rewrite H; clear H
         end.
  destruct (startsWith (txt ".") filename); cbn [negb andb orb] in *;
    [reflexivity|].
  match goal with
  | H : negb _ = true |- _ => apply negb_true_iff in H; rewrite H
  end.
  reflexivity.
Qed.

Lemma valid_name_breaks_no_rule_witness :
  getInvalidReason (txt "my-file.txt") false
  = txt "Unknown naming convention violation".
Proof.
  apply (@valid_name_breaks_no_rule (txt "my-file.txt") false).
  - vm_compute. reflexivity.
  - vm_compute. reflexivity.
Defined.

(** X27. Allowing upper-case letters only accepts more: a name valid
    without [allowUppercase] is valid with it. *)
Theorem allowing_uppercase_accepts_more (filename : text) :
  isValidFileName filename false = true ->
  isValidFileName filename true = true.
Proof.
  destruct (arrayIncludes filename specialFiles) eqn:Es.
  - intros _. unfold isValidFileName. now rewrite Es.
  - rewrite !isValid_cases by exact Es. intros H.
    repeat (apply andb_true_iff in H; destruct H as [H ?]).
    rewrite H. rewrite lower_is_any by assumption.
    repeat (apply andb_true_iff; split); auto.
Qed.

Lemma allowing_uppercase_accepts_more_witness :
  isValidFileName (txt "my-file.txt") true = true.
Proof.
  apply (@allowing_uppercase_accepts_more (txt "my-file.txt")).
  vm_compute. reflexivity.
Defined.

(** X28. A valid name that is no special file and does not end with a
    hyphen is suggested as it is. *)
Theorem valid_name_is_its_own_suggestion (filename : text) :
  isValidFileName filename false = true ->
  arrayIncludes filename specialFiles = false ->
  endsWith (txt "-") filename = false ->
  suggestValidFileName filename = filename.
Proof. intros Hv Hsp He. now apply tidy_fixed, valid_tidy. Qed.

Lemma valid_name_is_its_own_suggestion_witness :
  suggestValidFileName (txt "my-file.txt") = txt "my-file.txt".
Proof.
  apply (@valid_name_is_its_own_suggestion (txt "my-file.txt"));
    vm_compute; reflexivity.
Defined.

(** ** The walk over a directory *)

(** X29. [ensureValidFileNaming] on a directory returns [true] exactly
    when every entry the walk comes to has a valid name: the entries of
    the directory that are no excluded directory and no excluded file
    and, when the walk is recursive, those it comes to in the directories
    among them.  Nothing inside an excluded directory counts. *)
Theorem naming_passes_iff_all_names_valid
        (pathJoin pathRelative : text -> text -> text)
        (entries : list (text * node)) (dirPath : text)
        (options : NamingOptions) :
  exists passed lines,
    ensureValidFileNaming pathJoin pathRelative (Some (DirNode entries))
                          dirPath options
    = Some (passed, lines) /\
    (passed = true <->
     forall entryName entry,
       Reached (withDefaults options) entries entryName entry ->
       isValidFileName entryName (allowUppercase (withDefaults options))
       = true).
Proof.
  unfold ensureValidFileNaming, validateFileNaming.
  destruct (walk_invalid pathJoin pathRelative dirPath (withDefaults options)
              (DirNode entries) dirPath (mkNamingResults [] [] []))
    as (extra & Heq & Hin & Hall).
  cbn [invalid app] in Heq. rewrite Heq.
  destruct extra as [|r extra]; cbn [List.length Nat.ltb Nat.leb].
  - eexists. eexists. split; [reflexivity|]. split; [|reflexivity].
    intros _ x y Hre.
    destruct (isValidFileName x _) eqn:Ev; [reflexivity|].
    destruct (Hall x y Hre Ev) as (r & [] & _).
  - eexists. eexists. split; [reflexivity|]. split; [discriminate|].
    intros H. destruct (Hin r (or_introl eq_refl)) as (Hv & _ & entry & Hre).
    rewrite (H _ _ Hre) in Hv. discriminate.
Qed.

(** X30. The names [validateFileNaming] reports as invalid are those of
    the entries the walk comes to that [isValidFileName] rejects, each
    with the reason [getInvalidReason] gives for it; none is left out. *)
Theorem reported_names_are_the_invalid_ones
        (pathJoin pathRelative : text -> text -> text)
        (entries : list (text * node)) (dirPath : text)
        (options : NamingOptions) :
  exists results,
    validateFileNaming pathJoin pathRelative (Some (DirNode entries))
                       dirPath options
    = Some results /\
    warnings results = [] /\
    (forall r, In r (invalid results) ->
       isValidFileName (name r) (allowUppercase (withDefaults options))
       = false /\
       reason r
       = getInvalidReason (name r) (allowUppercase (withDefaults options)) /\
       exists entry, Reached (withDefaults options) entries (name r) entry) /\
    (forall entryName entry,
       Reached (withDefaults options) entries entryName entry ->
       isValidFileName entryName (allowUppercase (withDefaults options))
       = false ->
       exists r, In r (invalid results) /\ name r = entryName).
Proof.
  unfold validateFileNaming. eexists. split; [reflexivity|].
  destruct (walk_invalid pathJoin pathRelative dirPath (withDefaults options)
              (DirNode entries) dirPath (mkNamingResults [] [] []))
    as (extra & Heq & Hin & Hall).
  cbn [invalid app] in Heq. rewrite Heq. split; [|split; assumption].
  now rewrite walk_warnings.
Qed.
